(** * goes: the aggregate rebuild pipeline, the projection-job event cache
      and the fan-in helper

    Shallow embedding of
    - [aggregate/stream] (accept / group / emit goroutines of [stream.NewOf]),
    - [projection/job]   ([continuousJob], [baseJob], [cache.ensure]),
    - [helper/streams]   ([FanIn]),
    - [event/stream]     ([Drain]).

    Goroutines are embedded as transition systems: every blocking channel
    operation of the source is a program point, every rendezvous a labelled
    step.  Slices that the source shares between a job and its callers live
    in an explicit heap so that aliasing is visible. *)

From stdpp Require Import base option numbers list sorting relations gmap sets strings.

Open Scope Z_scope.

(** ** Event model *)

Module event.

(** [uuid.UUID]: a 128-bit identifier, kept as its numeric value;
    [uuid.Nil] is [0]. *)
Definition UUID := N.

(** An event as its accessors show it: [ID], [Name], [Time] (nanoseconds),
    the aggregate tuple returned by [Aggregate()], and the one capability of
    the payload the pipeline probes, [SoftDelete() bool]. *)
Record Event := {
  ID : UUID;
  Name : string;
  Time : Z;
  AggregateName : string;
  AggregateID : UUID;
  AggregateVersion : Z;
  SoftDelete : bool
}.

Inductive Sorting :=
  SortTime | SortAggregateName | SortAggregateID | SortAggregateVersion.

Inductive SortDirection := SortAsc | SortDesc.

Record SortOptions := { Sort_ : Sorting; Dir : SortDirection }.

Definition compareBy (s : Sorting) (a b : Event) : comparison :=
  match s with
  | SortTime => Z.compare (Time a) (Time b)
  | SortAggregateName => String.compare (AggregateName a) (AggregateName b)
  | SortAggregateID => N.compare (AggregateID a) (AggregateID b)
  | SortAggregateVersion => Z.compare (AggregateVersion a) (AggregateVersion b)
  end.

(** [before s dir a b]: [a] has to come strictly before [b]. *)
Definition before (s : Sorting) (dir : SortDirection) (a b : Event) : bool :=
  match dir, compareBy s a b with
  | SortAsc, Lt => true
  | SortDesc, Gt => true
  | _, _ => false
  end.

Fixpoint insertSorted (s : Sorting) (dir : SortDirection)
    (x : Event) (l : list Event) : list Event :=
  match l with
  | [] => [x]
  | y :: l' =>
      if before s dir y x then y :: insertSorted s dir x l' else x :: y :: l'
  end.

(** Modelled from the spec: [event.Sort] is called by the emit stage but its
    file is not among the sources.  The spec describes the sorter as a
    stable sort on the given key; this is a stable insertion sort that
    returns a new list and leaves its argument alone. *)
Definition Sort (events : list Event) (s : Sorting) (dir : SortDirection)
    : list Event :=
  foldr (insertSorted s dir) [] events.

End event.

(** ** Aggregates and the consistency validator *)

Module aggregate.
Import event.

Record Ref := { Name : string; ID : UUID }.

(** Modelled from the spec: the aggregate base type is not among the
    sources.  An aggregate has a reference, a current version, and the
    events replayed on it so far. *)
Record Aggregate := {
  AggregateName : string;
  AggregateID : UUID;
  AggregateVersion : Z;
  Applied : list Event
}.

Definition Option := Aggregate → Aggregate.


(** Modelled from the spec: [aggregate.New(name, id, opts...)]; without
    options the aggregate is fresh, at version 0. *)
Definition New (name : string) (id : UUID) (opts : list Option) : Aggregate :=
  foldl (λ a opt, opt a)
    {| AggregateName := name; AggregateID := id;
       AggregateVersion := 0; Applied := [] |} opts.

Inductive ErrorKind :=
| AggregateIdentityMismatch
| UnexpectedStartVersion (expected got : Z)
| VersionGap (at_ : nat) (expected got : Z).

#[global] Instance Ref_eq_dec : EqDecision Ref.
Proof. solve_decision. Defined.

(** A tagged consistency error; it names the aggregate it was raised for. *)
Record ConsistencyError := { Kind : ErrorKind; Aggregate_ : Ref }.

Definition sameIdentity (name : string) (id : UUID) (e : Event) : bool :=
  bool_decide (event.AggregateName e = name ∧ event.AggregateID e = id).

(** Third rule of the validator: [E[i].version = E[i-1].version + 1];
    [i] is the index of the first event of [events] in [E]. *)
Fixpoint checkGaps (i : nat) (prev : Z) (events : list Event) : option ErrorKind :=
  match events with
  | [] => None
  | e :: rest =>
      if bool_decide (event.AggregateVersion e = prev + 1)
      then checkGaps (S i) (event.AggregateVersion e) rest
      else Some (VersionGap i (prev + 1) (event.AggregateVersion e))
  end.

Definition checkVersions (v0 : Z) (events : list Event) : option ErrorKind :=
  match events with
  | [] => None
  | e :: rest =>
      if bool_decide (event.AggregateVersion e = v0 + 1)
      then checkGaps 1 (event.AggregateVersion e) rest
      else Some (UnexpectedStartVersion (v0 + 1) (event.AggregateVersion e))
  end.

(** Modelled from the spec: [aggregate.ValidateConsistency] is not among the
    sources.  The three rules of the validator in the order the spec lists
    them: identity of every event, start version, then no gap; the first
    violation is returned, [None] stands for a nil error. *)
Definition ValidateConsistency (a : Aggregate) (events : list Event)
    : option ConsistencyError :=
  let ref := {| Name := AggregateName a; ID := AggregateID a |} in
  if forallb (sameIdentity (AggregateName a) (AggregateID a)) events
  then (λ k, {| Kind := k; Aggregate_ := ref |})
         <$> checkVersions (AggregateVersion a) events
  else Some {| Kind := AggregateIdentityMismatch; Aggregate_ := ref |}.

(** Modelled from the spec: [aggregate.ApplyHistory] replays the events on
    the aggregate; afterwards its version is the last event's version. *)
Definition ApplyHistory (a : Aggregate) (events : list Event) : Aggregate :=
  {| AggregateName := AggregateName a; AggregateID := AggregateID a;
     AggregateVersion :=
       default (AggregateVersion a) (event.AggregateVersion <$> last events);
     Applied := Applied a ++ events |}.

End aggregate.

Module softdelete.
(** Modelled from the spec: [softdelete.SoftDeleted] is not among the
    sources; a group is soft-deleted when any of its events carries the
    soft-delete marker. *)
Definition SoftDeleted (events : list event.Event) : bool :=
  existsb event.SoftDelete events.
End softdelete.

(** ** The rebuild pipeline ([aggregate/stream]) *)

Module stream.
Import event.

Record options := {
  isSorted : bool;
  isGrouped : bool;
  validateConsistency : bool;
  withSoftDeleted : bool;
  filters : list (Event → bool)
}.

Definition Option := options → options.

Definition Sorted (v : bool) : Option := λ o,
  {| isSorted := v; isGrouped := isGrouped o;
     validateConsistency := validateConsistency o;
     withSoftDeleted := withSoftDeleted o; filters := filters o |}.

Definition Grouped (v : bool) : Option := λ o,
  {| isSorted := isSorted o; isGrouped := v;
     validateConsistency := validateConsistency o;
     withSoftDeleted := withSoftDeleted o; filters := filters o |}.

Definition ValidateConsistency (v : bool) : Option := λ o,
  {| isSorted := isSorted o; isGrouped := isGrouped o;
     validateConsistency := v;
     withSoftDeleted := withSoftDeleted o; filters := filters o |}.

Definition Filter (fns : list (Event → bool)) : Option := λ o,
  {| isSorted := isSorted o; isGrouped := isGrouped o;
     validateConsistency := validateConsistency o;
     withSoftDeleted := withSoftDeleted o; filters := filters o ++ fns |}.

Definition WithSoftDeleted (v : bool) : Option := λ o,
  {| isSorted := isSorted o; isGrouped := isGrouped o;
     validateConsistency := validateConsistency o;
     withSoftDeleted := v; filters := filters o |}.

(** The options [NewOf] starts from, [options{validateConsistency: true}],
    with the caller's option functions applied in order. *)
Definition configure (opts : list Option) : options :=
  foldl (λ o opt, opt o)
    {| isSorted := false; isGrouped := false; validateConsistency := true;
       withSoftDeleted := false; filters := [] |} opts.

Record job := { name : string; id : UUID }.

#[global] Instance job_eq_dec : EqDecision job.
Proof. solve_decision. Defined.

#[global] Instance job_countable : Countable job.
Proof.
  refine (inj_countable' (λ j, (name j, id j))
                         (λ p, {| name := p.1; id := p.2 |}) _).
  by intros [].
Defined.

(** [id, name, _ := evt.Aggregate(); j := job{name: name, id: id}] *)
Definition jobOf (evt : Event) : job :=
  {| name := AggregateName evt; id := AggregateID evt |}.

(** The value sent on [s.out]: the job and the events captured by the
    [apply] closure. *)
Record applier := { job_ : job; events : list Event }.

Definition Aggregate (a : applier) : aggregate.Ref :=
  {| aggregate.Name := name (job_ a); aggregate.ID := id (job_ a) |}.

(** [a.apply(ag)], that is [aggregate.ApplyHistory(ag, events)]. *)
Definition Apply (a : applier) (ag : aggregate.Aggregate) : aggregate.Aggregate :=
  aggregate.ApplyHistory ag (events a).

(** Errors that travel on [s.outErrors]. *)
Inductive Error :=
| EventStream (cause : string)               (* "event stream: %w" *)
| Consistency (err : aggregate.ConsistencyError).

(** What the select of [acceptEvents] can receive: an event from [s.stream],
    an error from [s.inErrors], or the closing of [s.inErrors].  The end of
    the list is the closing of [s.stream]. *)
Inductive item :=
| InEvent (evt : Event)
| InError (cause : string)
| InErrorsClosed.

Definition shouldDiscard (s : options) (evt : Event) : bool :=
  existsb (λ fn, negb (fn evt)) (filters s).

(** Program points of [acceptEvents]. *)
Inductive acceptPoint :=
| AcceptSelect                   (* at the select of the loop *)
| AcceptSendError (cause : string) (* blocked in [s.outErrors <- ...] *)
| AcceptSendEvent (evt : Event)  (* blocked in [s.events <- evt] *)
| AcceptSendComplete (j : job)   (* blocked in [s.complete <- prev] *)
| AcceptRange (todo : gset job)  (* in [for j := range pending] *)
| AcceptReturned.                (* the deferred closes have run *)

(** Program points of [sortEvents]. *)
Inductive sortPoint :=
| SortRange                      (* at [for j := range s.complete] *)
| SortRequest (j : job)          (* blocked in [s.groupReqs <- req] *)
| SortSendError (err : aggregate.ConsistencyError)
                                 (* blocked in [s.outErrors <- err] *)
| SortSendOut (h : applier)      (* blocked in [s.out <- applier{...}] *)
| SortReturned.                  (* [s.out], [s.outErrors], [s.groupReqs] closed *)

(** The three goroutines and what the consumer has received so far.
    [eventsNil] and [groupReqsNil] are the two channel variables of
    [groupEvents] that it sets to nil once it has seen them closed. *)
Record state := {
  input : list item;
  acceptAt : acceptPoint;
  pending : gset job;
  prev : job;
  groups : gmap job (list Event);
  eventsNil : bool;
  groupReqsNil : bool;
  sortAt : sortPoint;
  out : list applier;
  outErrors : list Error
}.

Definition init (events : list item) : state := {|
  input := events;
  acceptAt := AcceptSelect;
  pending := ∅;
  prev := {| name := ""; id := 0%N |};
  groups := ∅;
  eventsNil := false;
  groupReqsNil := false;
  sortAt := SortRange;
  out := [];
  outErrors := []
|}.

(** The body of the loop of [sortEvents] after the group has answered. *)
Definition sortGroup (s : options) (j : job) (events : list Event) : sortPoint :=
  let events :=
    if isSorted s then events else Sort events SortAggregateVersion SortAsc in
  match
    (if validateConsistency s
     then aggregate.ValidateConsistency (aggregate.New (name j) (id j) []) events
     else None)
  with
  | Some err => SortSendError err
  | None =>
      if negb (withSoftDeleted s) && softdelete.SoftDeleted events
      then SortRange
      else SortSendOut {| job_ := j; events := events |}
  end.

(** The steps of the pipeline; each is one channel operation completing. *)
Inductive label :=
| Receive           (* the select of [acceptEvents] fires *)
| TakeStreamError   (* the consumer receives the wrapped upstream error *)
| Forward           (* [s.events <- evt] meets the receive of [groupEvents] *)
| Complete          (* [s.complete <- prev] meets [range s.complete] *)
| Range (j : job)   (* [s.complete <- j] of the final loop, any map order *)
| AcceptReturn      (* [acceptEvents] returns, its deferred closes run *)
| Group             (* [s.groupReqs <- req] and the answer on [req.out] *)
| Take              (* the consumer receives from [s.out] or [s.outErrors] *)
| SortReturn        (* [s.complete] is closed: [sortEvents] returns *)
| EventsClosed      (* [groupEvents] sees [s.events] closed *)
| GroupReqsClosed.  (* [groupEvents] sees [s.groupReqs] closed *)

Definition setAccept (st : state) (inp : list item) (at_ : acceptPoint) : state :=
  {| input := inp; acceptAt := at_; pending := pending st; prev := prev st;
     groups := groups st; eventsNil := eventsNil st;
     groupReqsNil := groupReqsNil st; sortAt := sortAt st;
     out := out st; outErrors := outErrors st |}.

Definition setSort (st : state) (at_ : sortPoint) : state :=
  {| input := input st; acceptAt := acceptAt st; pending := pending st;
     prev := prev st; groups := groups st; eventsNil := eventsNil st;
     groupReqsNil := groupReqsNil st; sortAt := at_;
     out := out st; outErrors := outErrors st |}.

Definition step (s : options) (l : label) (st : state) : option state :=
  match l with
  | Receive =>
      match acceptAt st with
      | AcceptSelect =>
          match input st with
          | [] => Some (setAccept st [] (AcceptRange (pending st)))
          | InErrorsClosed :: rest => Some (setAccept st rest AcceptSelect)
          | InError cause :: rest =>
              Some (setAccept st rest (AcceptSendError cause))
          | InEvent evt :: rest =>
              if shouldDiscard s evt
              then Some (setAccept st rest AcceptSelect)
              else Some (setAccept st rest (AcceptSendEvent evt))
          end
      | _ => None
      end
  | TakeStreamError =>
      match acceptAt st with
      | AcceptSendError cause =>
          Some {| input := input st; acceptAt := AcceptRange (pending st);
                  pending := pending st; prev := prev st; groups := groups st;
                  eventsNil := eventsNil st; groupReqsNil := groupReqsNil st;
                  sortAt := sortAt st; out := out st;
                  outErrors := outErrors st ++ [EventStream cause] |}
      | _ => None
      end
  | Forward =>
      match acceptAt st with
      | AcceptSendEvent evt =>
          let j := jobOf evt in
          let groups' :=
            <[j := default [] (groups st !! j) ++ [evt]]> (groups st) in
          let pending' := {[j]} ∪ pending st in
          if isGrouped s && negb (bool_decide (name (prev st) = ""))
                         && negb (bool_decide (prev st = j))
          then Some {| input := input st; acceptAt := AcceptSendComplete j;
                       pending := pending'; prev := prev st; groups := groups';
                       eventsNil := eventsNil st;
                       groupReqsNil := groupReqsNil st;
                       sortAt := sortAt st; out := out st;
                       outErrors := outErrors st |}
          else Some {| input := input st; acceptAt := AcceptSelect;
                       pending := pending'; prev := j; groups := groups';
                       eventsNil := eventsNil st;
                       groupReqsNil := groupReqsNil st;
                       sortAt := sortAt st; out := out st;
                       outErrors := outErrors st |}
      | _ => None
      end
  | Complete =>
      match acceptAt st, sortAt st with
      | AcceptSendComplete j, SortRange =>
          Some {| input := input st; acceptAt := AcceptSelect;
                  pending := pending st ∖ {[prev st]}; prev := j;
                  groups := groups st;
                  eventsNil := eventsNil st; groupReqsNil := groupReqsNil st;
                  sortAt := SortRequest (prev st);
                  out := out st; outErrors := outErrors st |}
      | _, _ => None
      end
  | Range j =>
      match acceptAt st, sortAt st with
      | AcceptRange todo, SortRange =>
          if bool_decide (j ∈ todo)
          then Some {| input := input st;
                       acceptAt := AcceptRange (todo ∖ {[j]});
                       pending := pending st; prev := prev st;
                       groups := groups st;
                       eventsNil := eventsNil st;
                       groupReqsNil := groupReqsNil st;
                       sortAt := SortRequest j;
                       out := out st; outErrors := outErrors st |}
          else None
      | _, _ => None
      end
  | AcceptReturn =>
      match acceptAt st with
      | AcceptRange todo =>
          if bool_decide (todo = ∅)
          then Some (setAccept st (input st) AcceptReturned)
          else None
      | _ => None
      end
  | Group =>
      match sortAt st with
      | SortRequest j =>
          Some {| input := input st; acceptAt := acceptAt st;
                  pending := pending st; prev := prev st;
                  groups := delete j (groups st);
                  eventsNil := eventsNil st; groupReqsNil := groupReqsNil st;
                  sortAt := sortGroup s j (default [] (groups st !! j));
                  out := out st; outErrors := outErrors st |}
      | _ => None
      end
  | Take =>
      match sortAt st with
      | SortSendError err =>
          Some {| input := input st; acceptAt := acceptAt st;
                  pending := pending st; prev := prev st; groups := groups st;
                  eventsNil := eventsNil st; groupReqsNil := groupReqsNil st;
                  sortAt := SortRange; out := out st;
                  outErrors := outErrors st ++ [Consistency err] |}
      | SortSendOut h =>
          Some {| input := input st; acceptAt := acceptAt st;
                  pending := pending st; prev := prev st; groups := groups st;
                  eventsNil := eventsNil st; groupReqsNil := groupReqsNil st;
                  sortAt := SortRange; out := out st ++ [h];
                  outErrors := outErrors st |}
      | _ => None
      end
  | SortReturn =>
      match acceptAt st, sortAt st with
      | AcceptReturned, SortRange => Some (setSort st SortReturned)
      | _, _ => None
      end
  | EventsClosed =>
      match acceptAt st with
      | AcceptReturned =>
          if eventsNil st then None
          else Some {| input := input st; acceptAt := acceptAt st;
                       pending := pending st; prev := prev st;
                       groups := groups st;
                       eventsNil := true; groupReqsNil := groupReqsNil st;
                       sortAt := sortAt st; out := out st;
                       outErrors := outErrors st |}
      | _ => None
      end
  | GroupReqsClosed =>
      match sortAt st with
      | SortReturned =>
          if groupReqsNil st then None
          else Some {| input := input st; acceptAt := acceptAt st;
                       pending := pending st; prev := prev st;
                       groups := groups st;
                       eventsNil := eventsNil st; groupReqsNil := true;
                       sortAt := sortAt st; out := out st;
                       outErrors := outErrors st |}
      | _ => None
      end
  end.

(** One step, in any of the ways the scheduler allows. *)
Definition steps (s : options) (st st' : state) : Prop :=
  ∃ l, step s l st = Some st'.

(** A run under a given schedule. *)
Fixpoint run (s : options) (sched : list label) (st : state) : option state :=
  match sched with
  | [] => Some st
  | l :: sched' =>
      match step s l st with
      | Some st' => run s sched' st'
      | None => None
      end
  end.

(** States the pipeline can be in after [NewOf(ctx, events, opts...)]. *)
Definition reachable (s : options) (events : list item) (st : state) : Prop :=
  rtc (steps s) (init events) st.

(** All three goroutines have returned and every channel is closed. *)
Definition finished (st : state) : Prop :=
  acceptAt st = AcceptReturned ∧ sortAt st = SortReturned
  ∧ eventsNil st = true ∧ groupReqsNil st = true.

(** A scheduler: the emit stage and the consumer go first, then the accept
    stage; the final loop of [acceptEvents] visits [pending] in the order
    of [elements]. *)
Definition next (st : state) : option label :=
  match sortAt st with
  | SortRequest _ => Some Group
  | SortSendError _ | SortSendOut _ => Some Take
  | SortRange =>
      match acceptAt st with
      | AcceptSelect => Some Receive
      | AcceptSendError _ => Some TakeStreamError
      | AcceptSendEvent _ => Some Forward
      | AcceptSendComplete _ => Some Complete
      | AcceptRange todo =>
          match elements todo with
          | [] => Some AcceptReturn
          | j :: _ => Some (Range j)
          end
      | AcceptReturned => Some SortReturn
      end
  | SortReturned =>
      if eventsNil st
      then if groupReqsNil st then None else Some GroupReqsClosed
      else Some EventsClosed
  end.

(** The run the scheduler [next] produces, for at most [fuel] steps. *)
Fixpoint exec (s : options) (fuel : nat) (st : state) : state :=
  match fuel with
  | O => st
  | S fuel' =>
      match next st with
      | Some l =>
          match step s l st with
          | Some st' => exec s fuel' st'
          | None => st
          end
      | None => st
      end
  end.

(** A bound on the number of steps that are left in a state. *)
Definition weight (st : state) : nat :=
  (match acceptAt st with
   | AcceptSelect => 3 + 3 * size (pending st) + 10 * length (input st)
   | AcceptSendEvent _ => 12 + 3 * size (pending st) + 10 * length (input st)
   | AcceptSendComplete _ => 6 + 3 * size (pending st) + 10 * length (input st)
   | AcceptSendError _ => 2 + 3 * size (pending st)
   | AcceptRange todo => 1 + 3 * size todo
   | AcceptReturned => 0
   end
   + match sortAt st with
     | SortRequest _ => 3
     | SortSendError _ | SortSendOut _ => 2
     | SortRange => 1
     | SortReturned => 0
     end
   + (if eventsNil st then 0 else 1)
   + (if groupReqsNil st then 0 else 1))%nat.

(** The events [acceptEvents] forwards to [groupEvents]: those read before
    the first upstream error that no filter discards. *)
Fixpoint accepted (s : options) (events : list item) : list Event :=
  match events with
  | [] => []
  | InEvent evt :: rest =>
      if shouldDiscard s evt then accepted s rest else evt :: accepted s rest
  | InError _ :: _ => []
  | InErrorsClosed :: rest => accepted s rest
  end.

(** The state the scheduler [next] ends in, started on [events]. *)
Definition finish (s : options) (events : list item) : state :=
  exec s (weight (init events)) (init events).

End stream.

(** ** Vocabulary of the statements about the pipeline *)

Module history.
Import event stream.

(** [events[i].version = v0 + 1 + i] for every index: the versions are
    contiguous and ascending, starting right after [v0]. *)
Definition contiguousFrom (v0 : Z) (events : list Event) : Prop :=
  ∀ i e, events !! i = Some e → AggregateVersion e = v0 + 1 + Z.of_nat i.

Definition versionLe (a b : Event) : Prop :=
  AggregateVersion a ≤ AggregateVersion b.

Definition identityOf (name : string) (id : UUID) (events : list Event) : Prop :=
  Forall (λ e, AggregateName e = name ∧ AggregateID e = id) events.

(** The reference [applier.Aggregate] returns for a job. *)
Definition refOf (j : job) : aggregate.Ref :=
  {| aggregate.Name := name j; aggregate.ID := id j |}.

(** The events of one aggregate among [l], in arrival order. *)
Definition groupOf (j : job) (l : list Event) : list Event :=
  filter (λ e, jobOf e = j) l.

(** What [acceptEvents] has still to forward. *)
Definition futureOf (s : options) (st : state) : list Event :=
  match acceptAt st with
  | AcceptSelect | AcceptSendComplete _ => accepted s (input st)
  | AcceptSendEvent evt => evt :: accepted s (input st)
  | _ => []
  end.

Definition sendingOut (st : state) : list applier :=
  match sortAt st with SortSendOut h => [h] | _ => [] end.

Definition sendingError (st : state) : list aggregate.ConsistencyError :=
  match sortAt st with SortSendError err => [err] | _ => [] end.

Definition inflight (st : state) : list job :=
  match sortAt st with SortRequest j => [j] | _ => [] end.

Definition consistencyErrors (l : list Error) : list aggregate.ConsistencyError :=
  omap (λ e, match e with Consistency err => Some err | _ => None end) l.

Definition histories (l : list sortPoint) : list applier :=
  omap (λ r, match r with SortSendOut h => Some h | _ => None end) l.

Definition errors (l : list sortPoint) : list aggregate.ConsistencyError :=
  omap (λ r, match r with SortSendError err => Some err | _ => None end) l.

(** What the emit stage makes of each of the jobs [js] when it is handed
    the complete group of the job. *)
Definition results (s : options) (total : list Event) (js : list job) : list sortPoint :=
  (λ j, sortGroup s j (groupOf j total)) <$> js.

(** The contract of the [Grouped] option: once the stream has moved on
    from a named aggregate to another one, it does not come back to it. *)
Definition sequentiallyGrouped (l : list job) : Prop :=
  ∀ l1 a b l2, l = l1 ++ a :: b :: l2 → a ≠ b → name a ≠ "" → a ∉ l2.

Fixpoint groupedFrom (prev : job) (l : list job) : Prop :=
  match l with
  | [] => True
  | j :: l' => (name prev ≠ "" → prev ≠ j → prev ∉ l') ∧ groupedFrom j l'
  end.

(** The jobs [acceptEvents] has still to complete: its [pending] set, or
    what is left of it in the final loop. *)
Definition todoOf (st : state) : gset job :=
  match acceptAt st with
  | AcceptRange todo => todo
  | AcceptReturned => ∅
  | _ => pending st
  end.

(** How a state of the pipeline relates to the events [total] that
    [acceptEvents] forwards in all: [acc] are those [groupEvents] has
    received so far, [reqd] the jobs whose group the emit stage has already
    fetched, in that order. *)
Record consistent (s : options) (total acc : list Event) (reqd : list job)
    (st : state) : Prop := {
  c_total : total = acc ++ futureOf s st;
  c_nodup : NoDup (reqd ++ inflight st);
  c_seen : ∀ j, j ∈ reqd ++ inflight st → j ∈ jobOf <$> acc;
  c_gone : ∀ j, j ∈ reqd ++ inflight st → j ∉ jobOf <$> futureOf s st;
  c_pending :
    ∀ j, j ∈ todoOf st ↔ j ∈ jobOf <$> acc ∧ j ∉ reqd ++ inflight st;
  c_prev :
    match acceptAt st with
    | AcceptSelect | AcceptSendEvent _ =>
        (name (prev st) = "" ∨ prev st ∈ pending st)
        ∧ (isGrouped s = true →
           groupedFrom (prev st) (jobOf <$> futureOf s st))
    | AcceptSendComplete j =>
        prev st ∈ pending st ∧ j ∈ pending st ∧ prev st ≠ j
        ∧ (prev st ∉ jobOf <$> futureOf s st)
        ∧ groupedFrom j (jobOf <$> futureOf s st)
    | _ => True
    end;
  c_groups :
    ∀ j, default [] (groups st !! j)
         = if decide (j ∈ reqd) then [] else groupOf j acc;
  c_out : out st ++ sendingOut st = histories (results s total reqd);
  c_errors :
    consistencyErrors (outErrors st) ++ sendingError st
    = errors (results s total reqd)
}.

(** What holds of every state whatever the input looks like: the pipeline
    only ever handles events that [acceptEvents] forwards, files them under
    their own job, and sends only what [sortGroup] produced from a group. *)
Record sound (s : options) (total : list Event) (st : state) : Prop := {
  s_future : futureOf s st `suffix_of` total;
  s_groups :
    ∀ j evs, groups st !! j = Some evs →
             Forall (λ e, jobOf e = j ∧ e ∈ total) evs;
  s_out :
    ∀ h, h ∈ out st ++ sendingOut st →
         ∃ evs, sortGroup s (job_ h) evs = SortSendOut h
                ∧ Forall (λ e, jobOf e = job_ h ∧ e ∈ total) evs;
  s_errors :
    ∀ err, err ∈ consistencyErrors (outErrors st) ++ sendingError st →
           ∃ j evs, sortGroup s j evs = SortSendError err;
  s_order :
    (sortAt st = SortReturned → acceptAt st = AcceptReturned)
    ∧ (eventsNil st = true → acceptAt st = AcceptReturned)
    ∧ (groupReqsNil st = true → sortAt st = SortReturned)
}.

#[global] Instance groupedFrom_dec prev l : Decision (groupedFrom prev l).
Proof. revert prev. induction l; intros prev; simpl; apply _. Defined.

(** The input keeps the promise the [Grouped] option makes about it; the
    walk starts from the zero value of [prev]. *)
Definition wellGrouped (s : options) (events : list item) : Prop :=
  isGrouped s = true →
  groupedFrom (prev (init events)) (jobOf <$> accepted s events).

(** The versions of a group are exactly 1, ..., n once the group is put in
    ascending version order. *)
Definition gapless (group : list Event) : Prop :=
  AggregateVersion <$> Sort group SortAggregateVersion SortAsc
  = Z.of_nat <$> seq 1 (length group).


(** The error is about the aggregate of job [R]. *)
Definition about (R : job) (err : aggregate.ConsistencyError) : Prop :=
  aggregate.Aggregate_ err = refOf R.

#[global] Instance about_dec R err : Decision (about R err).
Proof. unfold about. apply _. Defined.

End history.

(** ** Tactics for the case analysis of a step *)

Ltac step_inv H :=
  unfold stream.step, stream.setAccept, stream.setSort in H;
  repeat (case_match; try done);
  simplify_eq.

Ltac unfold_views :=
  unfold history.futureOf, history.todoOf, history.inflight,
    history.sendingOut, history.sendingError in *; simpl in *.


(** ** Sample inputs for the pipeline *)

Module sample.
Import event stream.

Definition evt (n : string) (i : N) (v : Z) (deleted : bool) : Event :=
  {| ID := i; Name := "changed"; Time := v;
     AggregateName := n; AggregateID := i;
     AggregateVersion := v; SoftDelete := deleted |}.

Definition fooA : job := {| name := "foo"; id := 1%N |}.
Definition barB : job := {| name := "bar"; id := 2%N |}.


(** (foo, A) with versions 1, 2, 3 in order. *)
Definition clean : list item :=
  [InEvent (evt "foo" 1 1 false); InEvent (evt "foo" 1 2 false);
   InEvent (evt "foo" 1 3 false)].

(** (foo, A) with versions 3, 1, 2 and (bar, B) with 2, 1, 3, interleaved. *)
Definition interleaved : list item :=
  [InEvent (evt "foo" 1 3 false); InEvent (evt "bar" 2 2 false);
   InEvent (evt "foo" 1 1 false); InEvent (evt "bar" 2 1 false);
   InEvent (evt "foo" 1 2 false); InEvent (evt "bar" 2 3 false)].

(** (foo, A) with versions 1, 2, 4, then (bar, B) with version 1. *)
Definition gapped : list item :=
  [InEvent (evt "foo" 1 1 false); InEvent (evt "foo" 1 2 false);
   InEvent (evt "foo" 1 4 false); InEvent (evt "bar" 2 1 false)].

(** (foo, A) with versions 1, 2 and a soft-deleting 3, then (bar, B). *)
Definition softDeleted : list item :=
  [InEvent (evt "foo" 1 1 false); InEvent (evt "foo" 1 2 false);
   InEvent (evt "foo" 1 3 true); InEvent (evt "bar" 2 1 false)].

(** (foo, A) with version 1 and a soft-deleting version 3: a gap as well. *)
Definition softDeletedGap : list item :=
  [InEvent (evt "foo" 1 1 false); InEvent (evt "foo" 1 3 true)].

(** A single event of (foo, A) at version 2. *)
Definition lateStart : list item := [InEvent (evt "foo" 1 2 false)].

(** (foo, A), then (bar, B), then (foo, A) again: not grouped. *)
Definition comeback : list item :=
  [InEvent (evt "foo" 1 1 false); InEvent (evt "bar" 2 1 false);
   InEvent (evt "foo" 1 2 false)].

(** A schedule for [comeback] under [Grouped(true)] in which the group
    stage receives the last event of (foo, A) before it serves the request
    for the first completion token of (foo, A). *)
Definition comebackSchedule : list label :=
  [Receive; Forward; Receive; Forward; Complete; Receive; Forward;
   Group; Take; Complete; Group; Take; Receive; Range fooA; Group; Take;
   AcceptReturn; SortReturn; EventsClosed; GroupReqsClosed].



(** Only events of aggregates named bar pass. *)
Definition barOnly : Event → bool :=
  λ e, bool_decide (AggregateName e = "bar").

End sample.

(** ** Draining a stream ([event/stream]) *)

Module streams.
Import event.

(** What the select of [Drain] can receive, in the order it receives it:
    an event, an error from the fanned-in error channels, the closing of
    that channel, or the cancellation of [ctx].  The end of the list is the
    closing of the event channel. *)
Inductive item :=
| Received (evt : Event)
| Failed (cause : string)
| ErrorsClosed
| Cancelled.

(** The loop of [Drain]: the events drained so far are returned together
    with the error that stopped it, if any. *)
Fixpoint drainFrom (out : list Event) (items : list item)
    : list Event * option string :=
  match items with
  | [] => (out, None)
  | Received evt :: rest => drainFrom (out ++ [evt]) rest
  | Failed cause :: _ => (out, Some cause)
  | ErrorsClosed :: rest => drainFrom out rest
  | Cancelled :: _ => (out, Some "context canceled")
  end.

Definition Drain (items : list item) : list Event * option string :=
  drainFrom [] items.

End streams.

(** ** Queries ([event/query]) *)

Module query.
Import event.

Inductive TimeConstraint := After (t : Z) | Before (t : Z).

Inductive VersionConstraint :=
| Min (v : Z) | Max (v : Z) | Exact (v : Z) | Range (lo hi : Z).

(** Modelled from the spec: the query type is not among the sources.  Sets
    are lists without duplicates; a list of constraints stands for their
    intersection. *)
Record Query := {
  Names : list string;
  IDs : list UUID;
  AggregateNames : list string;
  AggregateIDs : list UUID;
  Aggregates : list (string * UUID * Z);
  AggregateVersions : list VersionConstraint;
  Times : list TimeConstraint;
  Sortings : list SortOptions
}.

Definition Option := Query → Query.

Definition empty : Query :=
  {| Names := []; IDs := []; AggregateNames := []; AggregateIDs := [];
     Aggregates := []; AggregateVersions := []; Times := [];
     Sortings := [] |}.

Definition Name (names : list string) : Option := λ q,
  {| Names := list_union (Names q) names; IDs := IDs q;
     AggregateNames := AggregateNames q; AggregateIDs := AggregateIDs q;
     Aggregates := Aggregates q; AggregateVersions := AggregateVersions q;
     Times := Times q; Sortings := Sortings q |}.

Definition SortByMulti (sorts : list SortOptions) : Option := λ q,
  {| Names := Names q; IDs := IDs q;
     AggregateNames := AggregateNames q; AggregateIDs := AggregateIDs q;
     Aggregates := Aggregates q; AggregateVersions := AggregateVersions q;
     Times := Times q; Sortings := Sortings q ++ sorts |}.

Definition Time (c : TimeConstraint) : Option := λ q,
  {| Names := Names q; IDs := IDs q;
     AggregateNames := AggregateNames q; AggregateIDs := AggregateIDs q;
     Aggregates := Aggregates q; AggregateVersions := AggregateVersions q;
     Times := Times q ++ [c]; Sortings := Sortings q |}.

Definition New (opts : list Option) : Query :=
  foldl (λ q opt, opt q) empty opts.

(** Modelled from the spec: union of the name and identifier sets,
    intersection of the ranges, concatenation of the sort keys with the
    later query last. *)
Definition merge2 (a b : Query) : Query :=
  {| Names := list_union (Names a) (Names b);
     IDs := list_union (IDs a) (IDs b);
     AggregateNames := list_union (AggregateNames a) (AggregateNames b);
     AggregateIDs := list_union (AggregateIDs a) (AggregateIDs b);
     Aggregates := list_union (Aggregates a) (Aggregates b);
     AggregateVersions := AggregateVersions a ++ AggregateVersions b;
     Times := Times a ++ Times b;
     Sortings := Sortings a ++ Sortings b |}.

(** [Merge(queries...)]; a nil query contributes nothing. *)
Definition Merge (queries : list (option Query)) : Query :=
  foldl (λ acc q, from_option (merge2 acc) acc q) empty queries.

End query.

(** ** Projection jobs and their event cache ([projection/job]) *)

Module project.
Import event.

(** A slice of events: nil, or a backing array in the heap.  Two slices
    with the same address share their elements. *)
Definition slice := option nat.

Inductive error :=
| QueryEvents (cause : string)     (* "query Events: %w" *)
| DrainEvents (cause : string).    (* "drain Events: %w" *)

(** What [store.Query] answers: a setup error, or the two channels as
    [Drain] will see them. *)
Inductive answer :=
| Refused (cause : string)
| Streamed (items : list streams.item).

(** An event store: its answer may depend on the queries it has served. *)
Definition Store := list query.Query → query.Query → answer.

Record applyConfig := { fromBase : bool }.

Definition ApplyOption := applyConfig → applyConfig.


Definition configureApply (opts : list ApplyOption) : applyConfig :=
  foldl (λ cfg opt, opt cfg) {| fromBase := false |} opts.

(** An [EventApplier] as far as a job looks at it: whether it provides
    [LatestEventTime], and what that returns. *)
Record EventApplier := { LatestEventTime : option Z }.

Record subscribeConfig := { filter : option query.Query }.

Record baseJob := {
  cfg : subscribeConfig;
  store : Store;
  eventNames : list string;
  query_ : option query.Query
}.

(** [j.cfg.filter] *)
Definition subscriptionFilter (j : baseJob) : option query.Query :=
  filter (cfg j).

Record continuousJob := {
  base : baseJob;
  events : slice
}.

Record periodicJob := { base_ : baseJob }.

(** Everything a job can read or change: the heap of backing arrays, the
    job's cache from key to slice, and the queries the store has served. *)
Record world := {
  heap : list (list Event);
  cache : gmap N slice;
  queried : list query.Query
}.

Definition newCache : gmap N slice := ∅.

Definition newWorld : world :=
  {| heap := []; cache := newCache; queried := [] |}.

(** The elements of a slice. *)
Definition load (w : world) (s : slice) : list Event :=
  match s with
  | None => []
  | Some a => default [] (heap w !! a)
  end.

(** [s[i] = evt] by whoever holds [s]; out of range it panics ([None]). *)
Definition assign (s : slice) (i : nat) (evt : Event) (w : world)
    : option world :=
  match s with
  | None => None
  | Some a =>
      match heap w !! a with
      | Some arr =>
          if decide (i < length arr)%nat
          then Some {| heap := <[a := <[i := evt]> arr]> (heap w);
                       cache := cache w; queried := queried w |}
          else None
      | None => None
      end
  end.

(** Computations that read and change the world. *)
Definition M (A : Type) : Type := world → A * world.

#[global] Instance M_ret : MRet M := λ A x w, (x, w).
#[global] Instance M_bind : MBind M := λ A B f m w,
  let '(x, w') := m w in f x w'.

(** A new backing array holding [elems]. *)
Definition alloc (elems : list Event) : M slice := λ w,
  (Some (length (heap w)),
   {| heap := heap w ++ [elems]; cache := cache w; queried := queried w |}).

(** [out := make([]event.Event, len(events)); copy(out, events)] *)
Definition copySlice (s : slice) : M slice := λ w, alloc (load w s) w.

Definition lookupCache (h : N) : M (option slice) := λ w, (cache w !! h, w).

Definition storeCache (h : N) (s : slice) : M unit := λ w,
  (tt, {| heap := heap w; cache := <[h := s]> (cache w);
          queried := queried w |}).

(** [j.store.Query(ctx, q)] *)
Definition Query (st : Store) (q : query.Query) : M answer := λ w,
  (st (queried w) q,
   {| heap := heap w; cache := cache w; queried := queried w ++ [q] |}).

Section hashed.
(** [cacheHasher.hash]: SHA-256 of the formatted configuration and
    query, as a number. *)
Context (hash : applyConfig → query.Query → N).

(** First critical section of [ensure]: the lookup, and the copy on a
    hit. *)
Definition ensureLookup (cfg : applyConfig) (q : query.Query)
    : M (option slice) :=
  hit ← lookupCache (hash cfg q);
  match hit with
  | Some events => out ← copySlice events; mret (Some out)
  | None => mret None
  end.

(** After a successful fetch: the copy for the caller and the second
    critical section, which stores the fetched slice itself. *)
Definition ensureStore (cfg : applyConfig) (q : query.Query)
    (events : slice) : M slice :=
  out ← copySlice events;
  _ ← storeCache (hash cfg q) events;
  mret out.

Definition ensure (cfg : applyConfig) (q : query.Query)
    (proj : option EventApplier)
    (fetch : M (slice * option error)) : M (slice * option error) :=
  hit ← ensureLookup cfg q;
  match hit with
  | Some out => mret (out, None)
  | None =>
      r ← fetch;
      match r.2 with
      | Some err => mret r
      | None => out ← ensureStore cfg q r.1; mret (out, None)
      end
  end.

(** The fetch function [eventsFor] hands to [ensure]. *)
Definition fetchEvents (j : baseJob) (q : query.Query)
    : M (slice * option error) :=
  ans ← Query (store j) q;
  match ans with
  | Refused cause => mret (None, Some (QueryEvents cause))
  | Streamed items =>
      match streams.Drain items with
      | (_, Some cause) => mret (None, Some (DrainEvents cause))
      | (evs, None) => events ← alloc evs; mret (events, None)
      end
  end.

Definition eventsFor (j : baseJob) (proj : option EventApplier)
    (cfg : applyConfig) (q : query.Query) : M (slice * option error) :=
  ensure cfg q proj (fetchEvents j q).

Definition buildQuery (j : baseJob) (p : option EventApplier)
    (cfg : applyConfig) : query.Query :=
  let queryOpts :=
    [query.Name (eventNames j);
     query.SortByMulti
       [{| Sort_ := SortTime; Dir := SortAsc |};
        {| Sort_ := SortAggregateName; Dir := SortAsc |};
        {| Sort_ := SortAggregateID; Dir := SortAsc |};
        {| Sort_ := SortAggregateVersion; Dir := SortAsc |}]] in
  let queryOpts :=
    match p ≫= LatestEventTime with
    | Some t =>
        if negb (fromBase cfg)
        then queryOpts ++ [query.Time (query.After t)]
        else queryOpts
    | None => queryOpts
    end in
  query.Merge [Some (query.New queryOpts); subscriptionFilter j; query_ j].

Definition baseJob_EventsFor (j : baseJob) (p : option EventApplier)
    (opts : list ApplyOption) : M (slice * option error) :=
  let cfg := configureApply opts in
  eventsFor j p cfg (buildQuery j p cfg).

Definition baseJob_Events (j : baseJob) : M (slice * option error) :=
  baseJob_EventsFor j None [].

Definition continuousJob_EventsFor (j : continuousJob)
    (p : option EventApplier) (opts : list ApplyOption)
    : M (slice * option error) :=
  let cfg := configureApply opts in
  if negb (fromBase cfg) && bool_decide (events j ≠ None)
  then mret (events j, None)
  else baseJob_EventsFor (base j) p opts.

Definition continuousJob_Events (j : continuousJob)
    : M (slice * option error) :=
  continuousJob_EventsFor j None [].

(** Program points of one call of [ensure], for callers that overlap. *)
Inductive ensurePoint :=
| AtLookup                      (* before the first [c.Lock()] *)
| AtFetch                       (* unlocked after a miss, before [fetch] *)
| AtStore (events : slice)      (* [fetch] returned without error *)
| Returned (result : slice * option error).

(** One caller of [ensure] moves to its next program point. *)
Definition ensureStep (cfg : applyConfig) (q : query.Query)
    (fetch : M (slice * option error)) (pt : ensurePoint) : M ensurePoint :=
  match pt with
  | AtLookup =>
      hit ← ensureLookup cfg q;
      mret (match hit with Some out => Returned (out, None) | None => AtFetch end)
  | AtFetch =>
      r ← fetch;
      mret (match r.2 with Some _ => Returned r | None => AtStore r.1 end)
  | AtStore events =>
      out ← ensureStore cfg q events; mret (Returned (out, None))
  | Returned r => mret (Returned r)
  end.

(** Two callers of [ensure] with the same arguments; [true] in the
    schedule lets the first one move, [false] the second. *)
Fixpoint overlap (cfg : applyConfig) (q : query.Query)
    (fetch : M (slice * option error)) (sched : list bool)
    (a b : ensurePoint) : M (ensurePoint * ensurePoint) :=
  match sched with
  | [] => mret (a, b)
  | true :: sched' =>
      a' ← ensureStep cfg q fetch a; overlap cfg q fetch sched' a' b
  | false :: sched' =>
      b' ← ensureStep cfg q fetch b; overlap cfg q fetch sched' a b'
  end.

End hashed.


(** Every slice in the cache has its backing array in the heap. *)
Definition allocated (w : world) : Prop :=
  ∀ h a, cache w !! h = Some (Some a) → (a < length (heap w))%nat.

End project.

(** ** Sample jobs *)

Module sampleJobs.
Import event project.

(** A stand-in for the digest that tells the two configurations apart and
    looks at the names of the query. *)
Definition hash (cfg : applyConfig) (q : query.Query) : N :=
  (2 * N.of_nat (length (query.Names q)) + (if fromBase cfg then 1 else 0))%N.

Definition created : Event := sample.evt "foo" 1 1 false.
Definition renamed : Event := sample.evt "foo" 1 2 false.

(** A store that refuses its first query and afterwards streams two
    events. *)
Definition flaky : Store := λ served _,
  match served with
  | [] => Refused "connection reset"
  | _ => Streamed [streams.Received created; streams.Received renamed]
  end.

(** A store that always streams the same two events. *)
Definition steady : Store := λ _ _,
  Streamed [streams.Received created; streams.Received renamed].

Definition flakyJob : baseJob :=
  {| cfg := {| filter := None |}; store := flaky;
     eventNames := ["changed"]; query_ := None |}.

Definition steadyJob : baseJob :=
  {| cfg := {| filter := None |}; store := steady;
     eventNames := ["changed"]; query_ := None |}.

(** A continuous job whose subscription delivered [created]; its slice
    lives at address 0 of [subscribed]. *)
Definition subscribed : world :=
  {| heap := [[created]]; cache := newCache; queried := [] |}.

Definition continuous : continuousJob :=
  {| base := steadyJob; events := Some 0%nat |}.


End sampleJobs.

(** ** Fan-in ([helper/streams]) *)

Module fanin.

Section FanIn.
Context {T : Type}.

(** Program points of the goroutine that forwards one input. *)
Inductive point :=
| Selecting            (* at the outer select *)
| Sending (v : T)      (* at the inner select, holding a value *)
| Exited.              (* returned; [wg.Done()] has run *)

(** One input channel with its goroutine: the values its producer will
    still send, whether the producer closes the channel after them, and
    where the goroutine is. *)
Record worker := {
  pending : list T;
  closes : bool;
  at_ : point
}.

(** [stopped] is closed, [out] is closed, and what the consumer has
    received from [out]. *)
Record state := {
  workers : list worker;
  stopped : bool;
  outClosed : bool;
  delivered : list T
}.

(** [FanIn(in...)]: nothing is stopped or closed, every goroutine is at
    its select. *)
Definition FanIn (ins : list (list T * bool)) : state :=
  {| workers :=
       (λ i, {| pending := i.1; closes := i.2; at_ := Selecting |}) <$> ins;
     stopped := false; outClosed := false; delivered := [] |}.

Inductive label :=
| Receive (i : nat)    (* goroutine [i] receives a value from its input *)
| SeeClosed (i : nat)  (* goroutine [i] finds its input closed *)
| SeeStopped (i : nat) (* a select of goroutine [i] takes [<-stopped] *)
| Deliver (i : nat)    (* [out <- v] of goroutine [i] meets the consumer *)
| Stop                 (* somebody calls [stop()] *)
| Close.               (* [wg.Wait()] returns and [close(out)] runs *)

Definition setWorker (st : state) (i : nat) (w : worker) : state :=
  {| workers := <[i := w]> (workers st); stopped := stopped st;
     outClosed := outClosed st; delivered := delivered st |}.

(** [stop = func() { once.Do(func() { close(stopped) }) }] *)
Definition stop (st : state) : state :=
  {| workers := workers st; stopped := true;
     outClosed := outClosed st; delivered := delivered st |}.

Definition exited (w : worker) : bool :=
  match at_ w with Exited => true | _ => false end.

Definition step (l : label) (st : state) : option state :=
  match l with
  | Receive i =>
      w ← workers st !! i;
      match at_ w, pending w with
      | Selecting, v :: rest =>
          Some (setWorker st i
                  {| pending := rest; closes := closes w; at_ := Sending v |})
      | _, _ => None
      end
  | SeeClosed i =>
      w ← workers st !! i;
      match at_ w, pending w with
      | Selecting, [] =>
          if closes w
          then Some (setWorker st i
                       {| pending := []; closes := true; at_ := Exited |})
          else None
      | _, _ => None
      end
  | SeeStopped i =>
      w ← workers st !! i;
      match at_ w with
      | Exited => None
      | _ =>
          if stopped st
          then Some (setWorker st i
                       {| pending := pending w; closes := closes w;
                          at_ := Exited |})
          else None
      end
  | Deliver i =>
      w ← workers st !! i;
      match at_ w with
      | Sending v =>
          Some {| workers :=
                    <[i := {| pending := pending w; closes := closes w;
                              at_ := Selecting |}]> (workers st);
                  stopped := stopped st; outClosed := outClosed st;
                  delivered := delivered st ++ [v] |}
      | _ => None
      end
  | Stop => Some (stop st)
  | Close =>
      if forallb exited (workers st) && negb (outClosed st)
      then Some {| workers := workers st; stopped := stopped st;
                   outClosed := true; delivered := delivered st |}
      else None
  end.

Definition steps (st st' : state) : Prop := ∃ l, step l st = Some st'.

Definition reachable (ins : list (list T * bool)) (st : state) : Prop :=
  rtc steps (FanIn ins) st.

(** The input has been closed by its producer: every value was taken and
    the producer closes the channel. *)
Definition inputClosed (w : worker) : Prop :=
  pending w = [] ∧ closes w = true.

(** Goroutines only exit for a reason, and [out] is only closed after
    all of them have exited. *)
Definition orderly (st : state) : Prop :=
  (outClosed st = true → Forall (λ w, at_ w = Exited) (workers st))
  ∧ Forall (λ w, at_ w = Exited → stopped st = true ∨ inputClosed w)
      (workers st).



(** The steps that need nobody outside [FanIn]: neither a producer, nor
    the consumer, nor a caller of [stop]. *)
Definition silent (l : label) : Prop :=
  match l with SeeStopped _ | SeeClosed _ | Close => True | _ => False end.

(** A bound on the number of internal steps that are left. *)
Definition workerWeight (w : worker) : nat :=
  match at_ w with
  | Selecting => 1 + 2 * length (pending w)
  | Sending _ => 2 + 2 * length (pending w)
  | Exited => 0
  end.

Definition weight (st : state) : nat :=
  sum_list (workerWeight <$> workers st) + (if outClosed st then 0 else 1).

(** A scheduler that lets every goroutine run as far as it can. *)
Fixpoint firstEnabled (i : nat) (ws : list worker) (isStopped : bool)
    : option label :=
  match ws with
  | [] => None
  | w :: ws' =>
      match at_ w with
      | Exited => firstEnabled (S i) ws' isStopped
      | Sending _ => Some (if isStopped then SeeStopped i else Deliver i)
      | Selecting =>
          if isStopped then Some (SeeStopped i)
          else match pending w with
               | _ :: _ => Some (Receive i)
               | [] => if closes w then Some (SeeClosed i)
                       else firstEnabled (S i) ws' isStopped
               end
      end
  end.

Definition next (st : state) : option label :=
  match firstEnabled 0 (workers st) (stopped st) with
  | Some l => Some l
  | None => if outClosed st then None else Some Close
  end.

Fixpoint exec (fuel : nat) (st : state) : state :=
  match fuel with
  | O => st
  | S fuel' =>
      match next st with
      | Some l =>
          match step l st with
          | Some st' => exec fuel' st'
          | None => st
          end
      | None => st
      end
  end.

End FanIn.

Arguments point : clear implicits.
Arguments worker : clear implicits.
Arguments state : clear implicits.

End fanin.

(** ** The upstream side of the pipeline *)

Module upstream.
Import event stream.

(** The causes of the wrapped upstream errors among what was surfaced on
    [s.outErrors]. *)
Definition streamErrors (l : list Error) : list string :=
  omap (λ e, match e with EventStream cause => Some cause | _ => None end) l.

(** The first error the select of [acceptEvents] receives from
    [s.inErrors], if the stream is not closed before. *)
Fixpoint firstError (items : list item) : option string :=
  match items with
  | [] => None
  | InError cause :: _ => Some cause
  | _ :: rest => firstError rest
  end.

(** What the select receives before that error. *)
Fixpoint beforeError (items : list item) : list item :=
  match items with
  | [] => []
  | InError _ :: _ => []
  | i :: rest => i :: beforeError rest
  end.

(** What is left unread behind that error. *)
Fixpoint afterError (items : list item) : list item :=
  match items with
  | [] => []
  | InError _ :: rest => rest
  | _ :: rest => afterError rest
  end.

(** The loop of [acceptEvents] is over: the goroutine is in its final
    [for j := range pending] or has returned. *)
Definition loopLeft (st : state) : Prop :=
  match acceptAt st with
  | AcceptRange _ | AcceptReturned => True
  | _ => False
  end.

(** Where the accept stage stands with respect to the upstream error of
    the input [input0] it was started on. *)
Definition errorsHandled (input0 : list item) (st : state) : Prop :=
  match acceptAt st with
  | AcceptSendError cause =>
      streamErrors (outErrors st) = []
      ∧ firstError input0 = Some cause
      ∧ input st = afterError input0
  | AcceptRange _ | AcceptReturned =>
      streamErrors (outErrors st) = option_list (firstError input0)
      ∧ input st = afterError input0
  | _ =>
      streamErrors (outErrors st) = []
      ∧ firstError (input st) = firstError input0
      ∧ afterError (input st) = afterError input0
  end.

(** As long as the loop of [acceptEvents] runs without [Grouped], the
    emit stage waits at [range s.complete] and nothing has been sent. *)
Definition quiet (st : state) : Prop :=
  match acceptAt st with
  | AcceptSelect | AcceptSendEvent _ | AcceptSendError _ =>
      sortAt st = SortRange ∧ out st = [] ∧ outErrors st = []
  | AcceptSendComplete _ => False
  | _ => True
  end.

End upstream.

Module sampleStreams.
Import event stream.

(** One event of (foo, A), then the upstream fails, leaving an event
    unread. *)
Definition failing : list item :=
  [InEvent (sample.evt "foo" 1 1 false); InError "connection lost";
   InEvent (sample.evt "foo" 1 2 false)].

End sampleStreams.

(** ** What the output of a fan-in is made of *)

Module faninViews.
Import fanin.

Section FanIn.
Context {T : Type}.

(** [merges ds l]: the list [l] is an interleaving of the lists [ds],
    built by taking the next value of one of them at a time. *)
Inductive merges : list (list T) → list T → Prop :=
| merges_nil n : merges (replicate n []) []
| merges_snoc ds l i d v :
    merges ds l → ds !! i = Some d →
    merges (<[i := d ++ [v]]> ds) (l ++ [v]).

(** The value a goroutine has received but not yet sent on. *)
Definition held (w : worker T) : list T :=
  match at_ w with Sending v => [v] | _ => [] end.

(** [ds] tells which of the delivered values came from which input:
    what goroutine [i] has delivered, holds and has still to receive
    make up input [i], unless the goroutine was stopped, in which case
    it may have dropped the value it held. *)
Definition accounted (ins : list (list T * bool)) (st : state T)
    (ds : list (list T)) : Prop :=
  length ds = length ins
  ∧ length (workers st) = length ins
  ∧ ∀ i w d inp,
      workers st !! i = Some w → ds !! i = Some d → ins !! i = Some inp →
      closes w = inp.2
      ∧ ((at_ w = Exited ∧ stopped st = true ∧ d `prefix_of` inp.1)
         ∨ d ++ held w ++ pending w = inp.1).

End FanIn.

End faninViews.

(** ** [event/stream]: [Slice] and what [Drain] makes of it *)

Module eventstream.
Import event streams.

(** [Slice(events...)]: a goroutine sends the events in order on a new
    channel and closes it.  This is what a receiver of the returned
    channel gets; the end of the list is the close. *)
Definition Slice (events : list Event) : list item := Received <$> events.

(** The events among what a select receives. *)
Definition received (items : list item) : list Event :=
  omap (λ i, match i with Received evt => Some evt | _ => None end) items.

(** The select receives neither an error nor the cancellation. *)
Definition undisturbed (items : list item) : Prop :=
  Forall (λ i, match i with Failed _ | Cancelled => False | _ => True end)
    items.

End eventstream.

(** ** The in-memory event stream with a cursor *)

Module memstream.
Import event.

Inductive error :=
| ErrClosed                          (* "stream closed" *)
| Joined (err cerr : error).         (* "[0] %w\n[1] %s" *)

(** [event.Stream]: what [All] needs of a stream.  [Event] may be nil. *)
Class Stream (S : Type) := {
  Next : S → bool * S;
  Event : S → option event.Event;
  Err : S → option error;
  Close : S → option error * S
}.

Record stream := {
  events : list event.Event;
  event_ : option event.Event;
  pos : nat;
  err : option error;
  closed : bool
}.

(** [New(events...)]: the channel [closed] is open, everything else has
    its zero value. *)
Definition New (events : list event.Event) : stream :=
  {| events := events; event_ := None; pos := 0; err := None;
     closed := false |}.

Definition stream_Next (c : stream) : bool * stream :=
  if closed c
  then (false, {| events := events c; event_ := event_ c; pos := pos c;
                  err := Some ErrClosed; closed := closed c |})
  else
    if bool_decide (length (events c) ≤ pos c)%nat
    then (false, {| events := events c; event_ := event_ c; pos := pos c;
                    err := None; closed := closed c |})
    else (true, {| events := events c; event_ := events c !! pos c;
                   pos := S (pos c); err := None; closed := closed c |}).

Definition stream_Close (c : stream) : option error * stream :=
  (None, {| events := events c; event_ := event_ c; pos := pos c;
            err := err c; closed := true |}).

#[global] Instance stream_Stream : Stream stream := {|
  Next := stream_Next;
  Event := event_;
  Err := err;
  Close := stream_Close
|}.

Section All.
Context {S : Type} `{Stream S}.

(** [for s.Next(ctx) { events = append(events, s.Event()) }]; the loop
    of a stream that never stops has no result. *)
Fixpoint collect (fuel : nat) (s : S) (acc : list (option event.Event))
    : option (list (option event.Event) * S) :=
  match fuel with
  | O => None
  | Datatypes.S fuel' =>
      let (ok, s') := Next s in
      if ok then collect fuel' s' (acc ++ [Event s']) else Some (acc, s')
  end.

(** [All]: the events fetched, the error of the stream, and the
    deferred [s.Close(ctx)] whose error is joined to it. *)
Definition All (fuel : nat) (s : S)
    : option (list (option event.Event) * option error * S) :=
  match collect fuel s [] with
  | None => None
  | Some (events, s1) =>
      let err := Err s1 in
      let (cerr, s2) := Close s1 in
      let err :=
        match cerr with
        | Some cerr =>
            match err with
            | Some err => Some (Joined err cerr)
            | None => Some cerr
            end
        | None => err
        end in
      Some (events, err, s2)
  end.
End All.

End memstream.

(** ** [projection.Base]: handlers by event name *)

Module projection.
Import event.

Section Base.
(** What the handlers of a projection act on. *)
Context {S : Type}.

(** [func(event.Event)], with its effect on the projection. *)
Definition handler : Type := Event → S → S.

Record Base := { appliers : gmap string handler }.

Definition New : Base := {| appliers := ∅ |}.

Definition RegisterEventHandler (a : Base) (eventName : string)
    (h : handler) : Base :=
  {| appliers := <[eventName := h]> (appliers a) |}.

Definition ApplyEvent (a : Base) (evt : Event) (st : S) : S :=
  match appliers a !! Name evt with
  | Some h => h evt st
  | None => st
  end.

(** Registrations made one after the other. *)
Definition registerAll (a : Base) (regs : list (string * handler)) : Base :=
  foldl (λ a r, RegisterEventHandler a r.1 r.2) a regs.

End Base.

Arguments Base : clear implicits.
Arguments handler : clear implicits.

End projection.

(** ** What a job tells about its events *)

Module jobqueries.
Import event project.

(** [uuid.Nil] *)
Definition Nil : UUID := 0%N.

(** [for _, name := range names { if evt.Name() == name { ...; break } }] *)
Fixpoint nameAmong (n : string) (names : list string) : bool :=
  match names with
  | [] => false
  | name :: rest => if decide (n = name) then true else nameAmong n rest
  end.

(** The loop of [EventsOf] over the events. *)
Definition filterByName (names : list string) (events : list Event)
    : list Event :=
  foldl (λ filtered evt,
           if nameAmong (Name evt) names then filtered ++ [evt] else filtered)
    [] events.

(** The first loop of [Aggregates]: the ids by aggregate name, in the
    order of the events; events without an aggregate name are passed
    over. *)
Definition collectIDs (events : list Event) : gmap string (list UUID) :=
  foldl (λ out evt,
           if decide (AggregateName evt = "") then out
           else <[AggregateName evt :=
                    default [] (out !! AggregateName evt)
                    ++ [AggregateID evt]]> out)
    ∅ events.

Section methods.
(** [unique.UUID] is not among the sources; the methods are embedded
    for whatever it returns. *)
Context (unique : list UUID → list UUID).

(** The methods of [continuousJob] and of [periodicJob] have the same
    bodies and differ in the [Events] they call. *)
Context (Events : M (slice * option error)).

Definition EventsOf (names : list string) : M (slice * option error) :=
  λ w,
    let '((events, err), w1) := Events w in
    match err with
    | Some err => ((None, Some err), w1)
    | None =>
        let '(filtered, w2) :=
          alloc (filterByName names (load w1 events)) w1 in
        ((filtered, None), w2)
    end.

(** A nil map reads as the empty map. *)
Definition Aggregates : M (gmap string (list UUID) * option error) :=
  λ w,
    let '((events, err), w1) := Events w in
    match err with
    | Some err => ((∅, Some err), w1)
    | None => ((unique <$> collectIDs (load w1 events), None), w1)
    end.

Definition AggregatesOf (names : list string)
    : M (list UUID * option error) :=
  λ w,
    let '((aggregates, err), w1) := Aggregates w in
    match err with
    | Some err => (([], Some err), w1)
    | None =>
        ((foldl (λ out name, out ++ default [] (aggregates !! name))
            [] names, None), w1)
    end.

Definition Aggregate (name : string) : M (UUID * option error) :=
  λ w,
    let '((ids, err), w1) := AggregatesOf [name] w in
    match err with
    | Some err => ((Nil, Some err), w1)
    | None =>
        match ids with
        | [] => ((Nil, None), w1)
        | id :: _ => ((id, None), w1)
        end
    end.

End methods.

Section jobs.
Context (unique : list UUID → list UUID).
Context (hash : applyConfig → query.Query → N).

Definition continuousJob_EventsOf (j : continuousJob) :=
  EventsOf (continuousJob_Events hash j).
Definition continuousJob_Aggregates (j : continuousJob) :=
  Aggregates unique (continuousJob_Events hash j).
Definition continuousJob_AggregatesOf (j : continuousJob) :=
  AggregatesOf unique (continuousJob_Events hash j).
Definition continuousJob_Aggregate (j : continuousJob) :=
  Aggregate unique (continuousJob_Events hash j).

Definition periodicJob_EventsOf (j : periodicJob) :=
  EventsOf (baseJob_Events hash (base_ j)).
Definition periodicJob_Aggregates (j : periodicJob) :=
  Aggregates unique (baseJob_Events hash (base_ j)).
Definition periodicJob_AggregatesOf (j : periodicJob) :=
  AggregatesOf unique (baseJob_Events hash (base_ j)).
Definition periodicJob_Aggregate (j : periodicJob) :=
  Aggregate unique (baseJob_Events hash (base_ j)).

End jobs.

End jobqueries.

Module samplePeriodic.
Import event project.

(** A store that refuses every query. *)
Definition refusing : Store := λ _ _, Refused "unavailable".

Definition refusedJob : periodicJob :=
  {| base_ := {| cfg := {| filter := None |}; store := refusing;
                 eventNames := ["changed"]; query_ := None |} |}.

(** A store whose stream fails after the first event. *)
Definition breaking : Store := λ _ _,
  Streamed [streams.Received sampleJobs.created;
            streams.Failed "broken pipe";
            streams.Received sampleJobs.renamed].

Definition breakingJob : baseJob :=
  {| cfg := {| filter := None |}; store := breaking;
     eventNames := ["changed"]; query_ := None |}.

Definition steadyPeriodic : periodicJob :=
  {| base_ := sampleJobs.steadyJob |}.

(** An event of another name in the slice of a continuous job. *)
Definition archived : Event :=
  {| ID := 7%N; Name := "archived"; Time := 3;
     AggregateName := "bar"; AggregateID := 2%N;
     AggregateVersion := 1; SoftDelete := false |}.

Definition mixed : world :=
  {| heap := [[sampleJobs.created; archived; sampleJobs.renamed]];
     cache := newCache; queried := [] |}.

End samplePeriodic.

(** ** [codec]: the registry of encoders and decoders *)

Module codec.

Definition bytes := list Byte.byte.

Inductive error :=
| ErrMissingFactory                 (* "missing factory for data. ..." *)
| GetEncoder (name : string)        (* "get encoder: %w [name=%v]" around ErrNotFound *)
| GetDecoder (name : string)        (* "get decoder: %w [name=%v]" around ErrNotFound *)
| CannotCast                        (* "cannot cast %T to %T" *)
| ReaderError (cause : string)      (* "reader: %w" *)
| UnmarshalBinary (err : error)     (* "unmarshal binary: %w" *)
| UnmarshalText (err : error)       (* "unmarshal text: %w" *)
| CustomUnmarshaler (err : error)   (* "custom unmarshaler: %w" *)
| Other (msg : string).             (* an error of a marshaler, an encoder,
                                       a decoder or a writer *)

(** [errors.Is(err, ErrNotFound)] *)
Definition isNotFound (err : error) : bool :=
  match err with GetEncoder _ | GetDecoder _ => true | _ => false end.

(** A call returns, or it panics on a failed type assertion. *)
Inductive outcome (A : Type) :=
| Returned (a : A)
| Panicked.
Arguments Returned {A} a.
Arguments Panicked {A}.

(** An [io.Reader] as [io.ReadAll] finds it: it gives its bytes, or
    reading fails. *)
Inductive Reader :=
| Bytes (b : bytes)
| Broken (cause : string).

Section registry.
(** The dynamic values an interface can hold, and the writers.  An
    interface value is such a value or nil. *)
Context {value W : Type}.
Definition any : Type := option value.

(** [w.Write(b)] *)
Context (write : bytes → W → option error * W).

(** Whether the dynamic type of a value implements
    [encoding.BinaryMarshaler] or [encoding.TextMarshaler], and what
    the method returns for it. *)
Context (marshalBinary marshalText : value → option (bytes + error)).

(** A type argument [D] as far as the registry looks at it: which
    values a type assertion [x.(D)] lets through, the zero value of
    [D] as an interface value (nil when [D] is itself an interface
    type), and the methods [UnmarshalBinary] and [UnmarshalText] of
    [*D] if it has them: they change the value pointed to and return
    an error. *)
Record type := {
  holds : value → bool;
  zero : any;
  unmarshalBinary : option (bytes → any → any * option error);
  unmarshalText : option (bytes → any → any * option error)
}.

(** [v, ok := x.(D)] *)
Definition assert_ (D : type) (x : any) : option value :=
  match x with
  | Some v => if holds D v then Some v else None
  | None => None
  end.

Definition Encoder : Type := any → W → option error * W.
Definition Decoder : Type := Reader → any * option error.

Record Registry := {
  encoders : gmap string (any → W → outcome (option error * W));
  decoders : gmap string Decoder;
  factories : gmap string (option any)   (* what the factory returns;
                                            [None] is a nil function *)
}.

Definition New : Registry :=
  {| encoders := ∅; decoders := ∅; factories := ∅ |}.

Definition encodeWith (m : bytes + error) (w : W) : option error * W :=
  match m with
  | inr err => (Some err, w)
  | inl b => write b w
  end.

(** [encodeCustomMarshaler]; [None] is [errNotCustomMarshaler]. *)
Definition encodeCustomMarshaler (w : W) (data : any)
    : option (option error * W) :=
  match data with
  | None => None
  | Some v =>
      match marshalBinary v with
      | Some m => Some (encodeWith m w)
      | None =>
          match marshalText v with
          | Some m => Some (encodeWith m w)
          | None => None
          end
      end
  end.

(** [decodeCustomMarshaler(r, &data)]: the error and the value [data]
    has afterwards; [None] is [errNotCustomMarshaler]. *)
Definition decodeCustomMarshaler (D : type) (r : Reader) (data : any)
    : option (option error * any) :=
  match r with
  | Broken cause => Some (Some (ReaderError cause), data)
  | Bytes b =>
      match unmarshalBinary D with
      | Some unmarshal =>
          let (data', err) := unmarshal b data in
          Some (UnmarshalBinary <$> err, data')
      | None =>
          match unmarshalText D with
          | Some unmarshal =>
              let (data', err) := unmarshal b data in
              Some (UnmarshalText <$> err, data')
          | None => None
          end
      end
  end.

Definition Make (D : type) (r : Registry) (name : string)
    : any * option error :=
  match factories r !! name with
  | Some (Some d) =>
      match assert_ D d with
      | Some v => (Some v, None)
      | None => (zero D, Some CannotCast)
      end
  | _ => (zero D, Some ErrMissingFactory)
  end.

(** [registerWithFactoryFunc]: the encoder is wrapped with the
    assertion [data.(D)]. *)
Definition registerWithFactoryFunc (D : type) (r : Registry)
    (name : string) (enc : Encoder) (dec : Decoder) (fn : option any)
    : Registry :=
  {| encoders :=
       <[name := λ data w,
           match assert_ D data with
           | Some v => Returned (enc (Some v) w)
           | None => Panicked
           end]> (encoders r);
     decoders := <[name := dec]> (decoders r);
     factories := <[name := fn]> (factories r) |}.

(** [Register]: the factory returns the zero value of [D]. *)
Definition Register (D : type) (r : Registry) (name : string)
    (enc : Encoder) (dec : Decoder) : Registry :=
  registerWithFactoryFunc D r name enc dec (Some (zero D)).

Definition Encode (r : Registry) (w : W) (name : string) (data : any)
    : outcome (option error * W) :=
  match encodeCustomMarshaler w data with
  | Some res => Returned res
  | None =>
      match encoders r !! name with
      | Some enc => enc data w
      | None => Returned (Some (GetEncoder name), w)
      end
  end.

(** The tail of [Decode]: the lookup of the decoder and the assertion
    on what it decoded. *)
Definition decodeWith (D : type) (r : Registry) (in_ : Reader)
    (name : string) : outcome (any * option error) :=
  match decoders r !! name with
  | Some dec =>
      match dec in_ with
      | (_, Some err) => Returned (zero D, Some err)
      | (decoded, None) =>
          match assert_ D decoded with
          | Some v => Returned (Some v, None)
          | None => Panicked
          end
      end
  | None => Returned (zero D, Some (GetDecoder name))
  end.

Definition Decode (D : type) (r : Registry) (in_ : Reader)
    (name : string) : outcome (any * option error) :=
  match factories r !! name with
  | Some _ =>
      match Make D r name with
      | (_, Some err) => Returned (zero D, Some err)
      | (data, None) =>
          match decodeCustomMarshaler D in_ data with
          | Some (err, data') => Returned (data', CustomUnmarshaler <$> err)
          | None =>
              (* [in = &buf]: the bytes [io.ReadAll] has read *)
              decodeWith D r in_ name
          end
      end
  | None => decodeWith D r in_ name
  end.

(** The type argument [any] of the methods of [*Registry]: every
    non-nil value passes the assertion, the zero value is nil, and
    [*any] has no methods. *)
Definition anyType : type :=
  {| holds := λ _, true; zero := None;
     unmarshalBinary := None; unmarshalText := None |}.

(** The methods [Encode], [Decode] and [New] of [*Registry]. *)
Definition Registry_Encode (reg : Registry) (w : W) (name : string)
    (data : any) : outcome (option error * W) :=
  Encode reg w name data.

Definition Registry_Decode (reg : Registry) (r : Reader) (name : string)
    : outcome (any * option error) :=
  Decode anyType reg r name.

Definition Registry_New (reg : Registry) (name : string)
    : any * option error :=
  Make anyType reg name.

(** Registrations made one after the other. *)
Definition registerAll (r : Registry)
    (regs : list (type * string * Encoder * Decoder)) : Registry :=
  foldl (λ r reg, Register reg.1.1.1 r reg.1.1.2 reg.1.2 reg.2) r regs.

End registry.

Arguments any : clear implicits.
Arguments type : clear implicits.
Arguments Registry : clear implicits.
Arguments Encoder : clear implicits.
Arguments Decoder : clear implicits.

End codec.

Module sampleCodec.
Import codec.

(** Two kinds of data: counters, which go through a registered encoder,
    and stamps, which marshal themselves. *)
Inductive data :=
| Counter (n : nat)
| Stamp (b : bytes).

(** A [bytes.Buffer]. *)
Definition write (b : bytes) (w : bytes) : option error * bytes :=
  (None, w ++ b).

Definition marshalBinary (v : data) : option (bytes + error) :=
  match v with
  | Stamp b => Some (inl b)
  | Counter _ => None
  end.

Definition marshalText (v : data) : option (bytes + error) := None.

Definition counterType : type data :=
  {| holds := λ v, match v with Counter _ => true | _ => false end;
     zero := Some (Counter 0);
     unmarshalBinary := None; unmarshalText := None |}.

Definition stampType : type data :=
  {| holds := λ v, match v with Stamp _ => true | _ => false end;
     zero := Some (Stamp []);
     unmarshalBinary := Some (λ b _, (Some (Stamp b), None));
     unmarshalText := None |}.

(** A counter is written as that many bytes. *)
Definition counterEncoder : Encoder data bytes := λ v w,
  match v with
  | Some (Counter n) => write (replicate n Byte.x01) w
  | _ => (Some (Other "not a counter"), w)
  end.

Definition counterDecoder : Decoder data := λ r,
  match r with
  | Bytes b => (Some (Counter (length b)), None)
  | Broken cause => (None, Some (Other cause))
  end.

End sampleCodec.

(** ** Two overlapping callers of [ensure] *)

Module overlapping.
Import event project.

(** A caller has been through its fetch. *)
Definition fetched (pt : ensurePoint) : nat :=
  match pt with
  | AtLookup | AtFetch => 0
  | AtStore _ | Returned _ => 1
  end.

(** The slice a caller holds at a program point, if any. *)
Definition holding (pt : ensurePoint) : list slice :=
  match pt with
  | AtStore s => [s]
  | Returned r => [r.1]
  | _ => []
  end.

(** The slice a caller was given, if it has returned. *)
Definition given (pt : ensurePoint) : list slice :=
  match pt with
  | Returned r => [r.1]
  | _ => []
  end.

(** No caller has failed. *)
Definition unfailed (pt : ensurePoint) : Prop :=
  match pt with
  | Returned r => r.2 = None
  | _ => True
  end.

(** What two callers and the cache entry [key] hold while both call
    [ensure] for events [evs], from a world in which the store had
    served [served] queries: every slice is in the heap and holds
    [evs], what a caller was given is shared with nobody, and each
    caller has asked the store at most once. *)
Record sharing (key : N) (evs : list Event) (served : nat)
    (a b : ensurePoint) (w : world) : Prop := {
  sh_unfailed : unfailed a ∧ unfailed b;
  sh_holds :
    ∀ s, s ∈ holding a ++ holding b ++ option_list (cache w !! key) →
         (∃ addr, s = Some addr ∧ (addr < length (heap w))%nat)
         ∧ load w s = evs;
  sh_given :
    NoDup (given a ++ given b)
    ∧ ∀ s, s ∈ given a ++ given b →
           (s ∉ option_list (cache w !! key))
           ∧ AtStore s ≠ a ∧ AtStore s ≠ b;
  sh_cached : given a ++ given b ≠ [] → is_Some (cache w !! key);
  sh_served :
    (length (queried w) ≤ served + fetched a + fetched b)%nat
}.

End overlapping.

(** * Facts about the rebuild pipeline *)

Module pipeline.

Import event stream history.

Section sorting.

Lemma insertSorted_perm s d x l : insertSorted s d x l ≡ₚ x :: l.
Proof.
  induction l as [|y l IH]; cbn [insertSorted]; [done|].
  destruct (before s d y x); [|done].
  rewrite IH. apply Permutation_swap.
Qed.

Lemma Sort_perm l s d : Sort l s d ≡ₚ l.
Proof.
  induction l as [|x l IH]; simpl; [done|].
  unfold Sort in *. simpl. rewrite insertSorted_perm. by rewrite IH.
Qed.

Lemma before_version_false x y :
  before SortAggregateVersion SortAsc y x = false → versionLe x y.
Proof.
  unfold before, compareBy, versionLe. simpl.
  destruct (Z.compare_spec (AggregateVersion y) (AggregateVersion x)); intros; try done; lia.
Qed.

Lemma before_version_true x y :
  before SortAggregateVersion SortAsc y x = true → versionLe y x.
Proof.
  unfold before, compareBy, versionLe. simpl.
  destruct (Z.compare_spec (AggregateVersion y) (AggregateVersion x)); intros; try done; lia.
Qed.

#[local] Instance versionLe_trans : Transitive versionLe.
Proof. unfold versionLe. intros x y z. lia. Qed.

Lemma insertSorted_sorted x l :
  StronglySorted versionLe l →
  StronglySorted versionLe (insertSorted SortAggregateVersion SortAsc x l).
Proof.
  induction 1 as [|y l Hl IH Hy]; cbn [insertSorted].
  - repeat constructor.
  - destruct (before SortAggregateVersion SortAsc y x) eqn:Hb.
    + constructor; [done|].
      rewrite insertSorted_perm. constructor; [|done].
      by apply before_version_true.
    + apply before_version_false in Hb.
      constructor; [by constructor|].
      constructor; [done|].
      eapply Forall_impl; [done|]. intros z Hz. by etrans.
Qed.

Lemma Sort_sorted l :
  StronglySorted versionLe (Sort l SortAggregateVersion SortAsc).
Proof.
  induction l as [|x l IH]; [constructor|].
  by apply insertSorted_sorted.
Qed.

(** Sorting a list that is already in ascending version order changes
    nothing: the sort is stable. *)
Lemma insertSorted_head x l :
  Forall (versionLe x) l →
  insertSorted SortAggregateVersion SortAsc x l = x :: l.
Proof.
  destruct 1 as [|y l Hy _]; cbn [insertSorted]; [done|].
  destruct (before SortAggregateVersion SortAsc y x) eqn:Hb; [|done].
  unfold before, compareBy, versionLe in *. simpl in *.
  destruct (Z.compare_spec (AggregateVersion y) (AggregateVersion x)); try done; lia.
Qed.

Lemma Sort_id l :
  StronglySorted versionLe l → Sort l SortAggregateVersion SortAsc = l.
Proof.
  induction 1 as [|x l Hl IH Hx]; [done|].
  unfold Sort in *. simpl. rewrite IH. by apply insertSorted_head.
Qed.

End sorting.

Section validator.
Import aggregate.

Lemma contiguousFrom_nil v0 : contiguousFrom v0 [].
Proof. by intros i e. Qed.

Lemma contiguousFrom_cons v0 e events :
  contiguousFrom v0 (e :: events) ↔
  event.AggregateVersion e = v0 + 1 ∧ contiguousFrom (event.AggregateVersion e) events.
Proof.
  unfold contiguousFrom. split.
  - intros H. pose proof (H 0%nat e eq_refl) as H0. split; [lia|].
    intros i e' Hi. pose proof (H (S i) e' Hi). lia.
  - intros [H0 H] [|i] e' Hi; simplify_eq/=; [lia|].
    specialize (H i e' Hi). lia.
Qed.

Lemma checkGaps_None i prev events :
  checkGaps i prev events = None ↔ contiguousFrom prev events.
Proof.
  revert i prev. induction events as [|e events IH]; intros i prev; simpl.
  - split; [intros _; apply contiguousFrom_nil|done].
  - rewrite contiguousFrom_cons. case_bool_decide as Hv.
    + rewrite IH. naive_solver.
    + naive_solver.
Qed.

Lemma checkVersions_None v0 events :
  checkVersions v0 events = None ↔ contiguousFrom v0 events.
Proof.
  destruct events as [|e events]; simpl.
  - split; [intros _; apply contiguousFrom_nil|done].
  - rewrite contiguousFrom_cons. case_bool_decide as Hv.
    + rewrite checkGaps_None. naive_solver.
    + naive_solver.
Qed.



Lemma sameIdentity_forallb name id events :
  forallb (sameIdentity name id) events = true ↔ identityOf name id events.
Proof.
  unfold identityOf. rewrite forallb_forall, Forall_forall.
  unfold sameIdentity. setoid_rewrite bool_decide_eq_true.
  by setoid_rewrite list_elem_of_In.
Qed.

Lemma ValidateConsistency_None a events :
  ValidateConsistency a events = None ↔
  identityOf (AggregateName a) (AggregateID a) events
  ∧ contiguousFrom (AggregateVersion a) events.
Proof.
  unfold ValidateConsistency.
  destruct (forallb _ events) eqn:Hid.
  - rewrite fmap_None, checkVersions_None.
    apply sameIdentity_forallb in Hid. naive_solver.
  - split; [done|]. intros [Hid' _]. apply sameIdentity_forallb in Hid'. congruence.
Qed.

Lemma ValidateConsistency_ref a events err :
  ValidateConsistency a events = Some err →
  Aggregate_ err = {| Name := AggregateName a; ID := AggregateID a |}.
Proof.
  unfold ValidateConsistency.
  destruct (forallb _ events); [|by intros [= <-]].
  destruct (checkVersions _ _); simpl; [|done]. by intros [= <-].
Qed.


End validator.


Section views.

Lemma groupOf_app j l1 l2 : groupOf j (l1 ++ l2) = groupOf j l1 ++ groupOf j l2.
Proof. apply filter_app. Qed.

Lemma groupOf_absent j l : j ∉ jobOf <$> l → groupOf j l = [].
Proof.
  intros Hj. unfold groupOf. induction l as [|e l IH]; [done|].
  rewrite fmap_cons, not_elem_of_cons in Hj. destruct Hj as [Hne Hj].
  rewrite filter_cons_False by done. by apply IH.
Qed.

Lemma groupOf_job j l : Forall (λ e, jobOf e = j) (groupOf j l).
Proof.
  apply Forall_forall. intros e He.
  unfold groupOf in He. apply list_elem_of_filter in He. tauto.
Qed.

Lemma groupOf_elem j l e : e ∈ groupOf j l ↔ jobOf e = j ∧ e ∈ l.
Proof. unfold groupOf. by rewrite list_elem_of_filter. Qed.

Lemma consistencyErrors_app l1 l2 :
  consistencyErrors (l1 ++ l2) = consistencyErrors l1 ++ consistencyErrors l2.
Proof. apply omap_app. Qed.

Lemma histories_app l1 l2 : histories (l1 ++ l2) = histories l1 ++ histories l2.
Proof. apply omap_app. Qed.

Lemma errors_app l1 l2 : errors (l1 ++ l2) = errors l1 ++ errors l2.
Proof. apply omap_app. Qed.

Lemma results_app s total l1 l2 :
  results s total (l1 ++ l2) = results s total l1 ++ results s total l2.
Proof. apply fmap_app. Qed.

End views.

Section pipeline.
Context (s : options).

Lemma sortGroup_inflight j events :
  match sortGroup s j events with SortRequest _ | SortReturned => False | _ => True end.
Proof. unfold sortGroup. repeat case_match; done. Qed.

Lemma forward_groups (gr : gmap job (list Event)) (reqd : list job) acc evt :
  (∀ j, default [] (gr !! j) = if decide (j ∈ reqd) then [] else groupOf j acc) →
  jobOf evt ∉ reqd →
  ∀ j, default [] (<[jobOf evt := default [] (gr !! jobOf evt) ++ [evt]]> gr !! j)
       = if decide (j ∈ reqd) then [] else groupOf j (acc ++ [evt]).
Proof.
  intros Hgr Hne j. rewrite groupOf_app.
  destruct (decide (jobOf evt = j)) as [<-|Hj].
  - rewrite lookup_insert_eq. simpl. rewrite Hgr.
    rewrite !decide_False by done.
    f_equal. unfold groupOf. by rewrite filter_cons_True.
  - rewrite lookup_insert_ne by done. rewrite Hgr.
    case_decide; [done|].
    unfold groupOf at 3. rewrite filter_cons_False by done.
    by rewrite filter_nil, app_nil_r.
Qed.

Lemma sequentiallyGrouped_tail a l :
  sequentiallyGrouped (a :: l) → sequentiallyGrouped l.
Proof. intros H l1 x y l2 ->. by apply (H (a :: l1)). Qed.

Lemma sequentiallyGrouped_from a l :
  sequentiallyGrouped (a :: l) → groupedFrom a l.
Proof.
  revert a. induction l as [|b l IH]; intros a H; simpl; [done|].
  split.
  - intros Hn Hne. by apply (H [] a b l).
  - apply IH. by eapply sequentiallyGrouped_tail.
Qed.

(** An input whose aggregates arrive one after the other keeps the promise
    of the [Grouped] option. *)
Lemma sequentiallyGrouped_wellGrouped events :
  sequentiallyGrouped (jobOf <$> accepted s events) → wellGrouped s events.
Proof.
  intros H _. simpl.
  destruct (jobOf <$> accepted s events) as [|j l]; simpl; [done|].
  split; [done|]. by apply sequentiallyGrouped_from.
Qed.

Lemma consistent_init events :
  wellGrouped s events →
  consistent s (accepted s events) [] [] (init events).
Proof.
  intros Hg. split; unfold_views; try done.
  - constructor.
  - set_solver.
  - set_solver.
  - split; [by left|]. intros Hgr. apply (Hg Hgr).
Qed.

Lemma consistent_step total acc reqd l st st' :
  consistent s total acc reqd st →
  step s l st = Some st' →
  ∃ acc' reqd', consistent s total acc' reqd' st'.
Proof.
  intros Hc Hstep.
  destruct l; step_inv Hstep.
  all: destruct Hc as [Ht Hnd Hseen Hgone Hpend Hprev Hgr Hout Herr].
  all: destruct st as [inp aa pend pv gr en gn sa o oe].
  all: unfold_views; revert Ht; simplify_eq/=; intros Ht.
  all: try match goal with
           | H : shouldDiscard _ _ = _ |- _ => rewrite H in *
           end.
  - (* Receive: the stream is closed *)
    exists acc, reqd. split; unfold_views; try done.
  - (* Receive: an event that a filter discards *)
    exists acc, reqd. split; unfold_views; done.
  - (* Receive: an event to forward *)
    exists acc, reqd. split; unfold_views; try done.
  - (* Receive: an upstream error *)
    exists acc, reqd. split; unfold_views; try done.
  - (* Receive: the error channel is closed *)
    exists acc, reqd. split; unfold_views; done.
  - (* TakeStreamError *)
    exists acc, reqd. split; unfold_views; try done.
    + by rewrite consistencyErrors_app, app_nil_r.
  - (* Forward, and a completion token is due *)
    match goal with H : _ && _ && _ = true |- _ =>
      apply andb_prop in H as [[Hg Hn]%andb_prop Hd] end.
    apply negb_true_iff, bool_decide_eq_false in Hn, Hd.
    destruct Hprev as [[?|Hpv] Hgrp]; [done|].
    specialize (Hgrp Hg) as [Hpvl Hgrp].
    assert (jobOf evt ∉ reqd ++ match sa with SortRequest j => [j] | _ => [] end)
      as Hfresh by (intros Hin; apply (Hgone _ Hin); set_solver).
    exists (acc ++ [evt]), reqd. split; unfold_views; try done.
    + by rewrite <- app_assoc.
    + intros j Hj. rewrite fmap_app. set_solver.
    + intros j Hj. specialize (Hgone j Hj). set_solver.
    + intros j. rewrite fmap_app. specialize (Hpend j). set_solver.
    + repeat split; [set_solver|set_solver|done|by apply Hpvl|done].
    + apply forward_groups; [done|]. set_solver.
  - (* Forward, no completion token *)
    assert (jobOf evt ∉ reqd ++ match sa with SortRequest j => [j] | _ => [] end)
      as Hfresh by (intros Hin; apply (Hgone _ Hin); set_solver).
    exists (acc ++ [evt]), reqd. split; unfold_views; try done.
    + by rewrite <- app_assoc.
    + intros j Hj. rewrite fmap_app. set_solver.
    + intros j Hj. specialize (Hgone j Hj). set_solver.
    + intros j. rewrite fmap_app. specialize (Hpend j). set_solver.
    + split; [right; set_solver|]. intros Hg.
      destruct Hprev as [_ Hgrp]. by destruct (Hgrp Hg).
    + apply forward_groups; [done|]. set_solver.
  - (* Complete *)
    destruct Hprev as (Hpv & Hj & Hne & Hpvl & Hgrp).
    rewrite app_nil_r in *.
    exists acc, reqd. split; unfold_views; rewrite ?app_nil_r; try done.
    + apply NoDup_app. split_and!; [done| |apply NoDup_singleton].
      intros j' Hj' ->%list_elem_of_singleton. by apply Hpend in Hpv as [_ ?].
    + intros j' [Hj'| ->%list_elem_of_singleton]%elem_of_app; [by apply Hseen|].
      by apply Hpend in Hpv as [? _].
    + intros j' [Hj'| ->%list_elem_of_singleton]%elem_of_app; [by apply Hgone|done].
    + intros j'. specialize (Hpend j'). set_solver.
    + split; [right; set_solver|done].
  - (* Range *)
    match goal with H : bool_decide _ = true |- _ =>
      apply bool_decide_eq_true in H; rename H into Hj end.
    rewrite app_nil_r in *.
    exists acc, reqd. split; unfold_views; rewrite ?app_nil_r; try done.
    + apply NoDup_app. split_and!; [done| |apply NoDup_singleton].
      intros j' Hj' ->%list_elem_of_singleton. by apply Hpend in Hj as [_ ?].
    + intros j' [Hj'| ->%list_elem_of_singleton]%elem_of_app; [by apply Hseen|].
      by apply Hpend in Hj as [? _].
    + intros j' _. set_solver.
    + intros j'. specialize (Hpend j'). set_solver.
  - (* AcceptReturn *)
    match goal with H : bool_decide _ = true |- _ =>
      apply bool_decide_eq_true in H; subst end.
    exists acc, reqd. split; unfold_views; try done.
  - (* Group *)
    pose proof (sortGroup_inflight j (default [] (gr !! j))) as Hr.
    assert (j ∉ reqd) as Hjr.
    { apply NoDup_app in Hnd as (_ & Hnd & _). intros ?. eapply Hnd; [done|]. set_solver. }
    assert (default [] (gr !! j) = groupOf j total) as Hgroup.
    { rewrite Hgr, decide_False by done. rewrite Ht, groupOf_app.
      rewrite (groupOf_absent j (match aa with AcceptSelect => _ | _ => _ end)).
      - by rewrite app_nil_r.
      - apply Hgone. set_solver. }
    rewrite Hgroup in *.
    exists acc, (reqd ++ [j]). split; unfold_views; try done.
    + destruct (sortGroup s j _); try done; by rewrite app_nil_r.
    + intros j' Hj'. apply Hseen. destruct (sortGroup s j _); try done; by rewrite app_nil_r in Hj'.
    + intros j' Hj'. apply Hgone. destruct (sortGroup s j _); try done; by rewrite app_nil_r in Hj'.
    + intros j'. rewrite Hpend.
      destruct (sortGroup s j _); try done; by rewrite app_nil_r.
    + intros j'. destruct (decide (j = j')) as [<-|Hne].
      * rewrite lookup_delete_eq. simpl. rewrite decide_True; [done|set_solver].
      * rewrite lookup_delete_ne by done. rewrite Hgr.
        repeat case_decide; try done; set_solver.
    + rewrite results_app, histories_app. rewrite app_nil_r in Hout.
      rewrite <- Hout. f_equal. simpl. by destruct (sortGroup s j _).
    + rewrite results_app, errors_app. rewrite app_nil_r in Herr.
      rewrite <- Herr. f_equal. simpl. by destruct (sortGroup s j _).
  - (* Take: a consistency error *)
    exists acc, reqd. split; unfold_views; rewrite ?app_nil_r in *; try done.
    + by rewrite consistencyErrors_app.
  - (* Take: a history *)
    exists acc, reqd. split; unfold_views; rewrite ?app_nil_r in *; try done.
  - (* SortReturn *)
    exists acc, reqd. split; unfold_views; try done.
  - (* EventsClosed *)
    exists acc, reqd. split; unfold_views; try done.
  - (* GroupReqsClosed *)
    exists acc, reqd. split; unfold_views; try done.
Qed.

Lemma sound_init events : sound s (accepted s events) (init events).
Proof.
  split; unfold_views; try done.
  - intros h. by rewrite elem_of_nil.
  - intros h. by rewrite elem_of_nil.
Qed.

Lemma sound_step total l st st' :
  sound s total st → step s l st = Some st' → sound s total st'.
Proof.
  intros Hs Hstep.
  destruct l; step_inv Hstep.
  all: destruct Hs as [Hfut Hgr Hout Herr Hord].
  all: destruct st as [inp aa pend pv gr en gn sa o oe].
  all: unfold_views; simplify_eq/=.
  all: try match goal with
           | H : shouldDiscard _ _ = _ |- _ => rewrite H in *
           end.
  all: split; unfold_views; try done.
  all: try (by apply suffix_nil).
  all: try (by intuition congruence).
  - (* TakeStreamError *)
    intros err. rewrite consistencyErrors_app, app_nil_r. apply Herr.
  - (* Forward, token due *)
    by eapply suffix_cons_l.
  - intros j evs. destruct (decide (jobOf evt = j)) as [<-|Hne].
    + rewrite lookup_insert_eq. intros [= <-]. apply Forall_app. split.
      * destruct (gr !! jobOf evt) as [l|] eqn:Hl; simpl; [by eapply Hgr|done].
      * apply Forall_singleton. split; [done|].
        destruct Hfut as [k ->]. set_solver.
    + rewrite lookup_insert_ne by done. apply Hgr.
  - (* Forward, no token *)
    by eapply suffix_cons_l.
  - intros j evs. destruct (decide (jobOf evt = j)) as [<-|Hne].
    + rewrite lookup_insert_eq. intros [= <-]. apply Forall_app. split.
      * destruct (gr !! jobOf evt) as [l|] eqn:Hl; simpl; [by eapply Hgr|done].
      * apply Forall_singleton. split; [done|].
        destruct Hfut as [k ->]. set_solver.
    + rewrite lookup_insert_ne by done. apply Hgr.
  - (* Group *)
    intros j' evs [_ Hl]%lookup_delete_Some. by eapply Hgr.
  - intros h [Hh|Hh]%elem_of_app.
    + apply Hout. set_solver.
    + destruct (sortGroup s j (default [] (gr !! j))) eqn:Hsg;
        try (by apply elem_of_nil in Hh).
      apply list_elem_of_singleton in Hh as ->.
      exists (default [] (gr !! j)).
      assert (job_ h0 = j) as Hj.
      { unfold sortGroup in Hsg. repeat case_match; by simplify_eq. }
      rewrite Hj. split; [done|].
      destruct (gr !! j) as [l|] eqn:Hl; simpl; [by eapply Hgr|done].
  - intros err [Hh|Hh]%elem_of_app.
    + apply Herr. set_solver.
    + destruct (sortGroup s j (default [] (gr !! j))) eqn:Hsg;
        try (by apply elem_of_nil in Hh).
      apply list_elem_of_singleton in Hh as ->. eauto.
  - pose proof (sortGroup_inflight j (default [] (gr !! j))) as Hr.
    destruct Hord as (H1 & H2 & H3). split_and!; [|done|].
    + intros Heq. by rewrite Heq in Hr.
    + intros Hgn. by specialize (H3 Hgn).
  - (* Take *)
    intros e. rewrite consistencyErrors_app, app_nil_r. simpl. apply Herr.
  - intros h'. rewrite app_nil_r. apply Hout.
Qed.

End pipeline.


Section runs.
Context (s : options).

Lemma reachable_sound events st :
  reachable s events st → sound s (accepted s events) st.
Proof.
  revert st. apply rtc_ind_r.
  - apply sound_init.
  - intros st st' _ [l Hstep] IH. by eapply sound_step.
Qed.

Lemma reachable_consistent events st :
  wellGrouped s events →
  reachable s events st →
  ∃ acc reqd, consistent s (accepted s events) acc reqd st.
Proof.
  intros Hg. revert st. apply rtc_ind_r.
  - exists [], []. by apply consistent_init.
  - intros st st' _ [l Hstep] (acc & reqd & Hc). by eapply consistent_step.
Qed.

Lemma step_weight l st st' :
  step s l st = Some st' → (weight st' < weight st)%nat.
Proof.
  intros Hstep. destruct l; step_inv Hstep.
  all: destruct st as [inp aa pend pv gr en gn sa o oe].
  all: unfold weight; simplify_eq/=; try lia.
  - (* Forward, token due *)
    pose proof (size_union_alt {[jobOf evt]} pend) as Hsz.
    pose proof (subseteq_size (pend ∖ {[jobOf evt]}) pend) as Hle.
    rewrite size_singleton in Hsz.
    specialize (Hle ltac:(set_solver)). lia.
  - pose proof (size_union_alt {[jobOf evt]} pend) as Hsz.
    pose proof (subseteq_size (pend ∖ {[jobOf evt]}) pend) as Hle.
    rewrite size_singleton in Hsz.
    specialize (Hle ltac:(set_solver)). lia.
  - (* Complete *)
    pose proof (subseteq_size (pend ∖ {[pv]}) pend ltac:(set_solver)). lia.
  - (* Range *)
    match goal with H : bool_decide _ = true |- _ =>
      apply bool_decide_eq_true in H; rename H into Hj end.
    rewrite size_difference by set_solver. rewrite size_singleton.
    assert (size todo ≠ 0)%nat by (apply size_non_empty_iff; set_solver).
    lia.
  - (* Group *)
    pose proof (sortGroup_inflight s j (default [] (gr !! j))) as Hr.
    destruct (sortGroup s j (default [] (gr !! j))); try done; lia.
Qed.

Lemma exec_reaches fuel st : rtc (steps s) st (exec s fuel st).
Proof.
  revert st. induction fuel as [|fuel IH]; intros st; simpl; [done|].
  destruct (next st) as [l|]; [|done].
  destruct (step s l st) as [st'|] eqn:Hstep; [|done].
  eapply rtc_l; [by exists l|]. apply IH.
Qed.

Lemma next_enabled total st l :
  sound s total st → next st = Some l → is_Some (step s l st).
Proof.
  intros [_ _ _ _ Hord] Hn.
  destruct st as [inp aa pend pv gr en gn sa o oe].
  unfold next in Hn; simpl in *.
  destruct sa; simpl in *; simplify_eq; try done.
  - destruct aa; simplify_eq/=; try done.
    + destruct inp as [|[]]; simpl; try done. by destruct (shouldDiscard s evt).
    + by destruct (_ && _).
    + destruct (elements todo) as [|j l'] eqn:Hel; simplify_eq/=.
      * apply elements_empty_iff in Hel.
        rewrite bool_decide_eq_true_2; [done|]. set_solver.
      * rewrite bool_decide_eq_true_2; [done|].
        apply elem_of_elements. rewrite Hel. set_solver.
  - destruct Hord as (Ha & _ & _). specialize (Ha eq_refl) as ->.
    destruct en, gn; simplify_eq/=; done.
Qed.

Lemma next_None st : next st = None → finished st ∨ sortAt st = SortReturned ∧ acceptAt st ≠ AcceptReturned.
Proof.
  destruct st as [inp aa pend pv gr en gn sa o oe].
  unfold next, finished; simpl.
  destruct sa; try done.
  - destruct aa; try done. by destruct (elements todo).
  - destruct en, gn; try done. destruct aa; intros _; try (by right). by left.
Qed.

Lemma exec_finished total fuel st :
  sound s total st → (weight st ≤ fuel)%nat → finished (exec s fuel st).
Proof.
  revert st. induction fuel as [|fuel IH]; intros st Hs Hw.
  - destruct st as [inp aa pend pv gr en gn sa o oe].
    unfold weight in Hw. simpl in *.
    destruct aa, sa, en, gn; simpl in *; try lia. done.
  - simpl. destruct (next st) as [l|] eqn:Hn.
    + destruct (next_enabled _ _ _ Hs Hn) as [st' Hstep]. rewrite Hstep.
      apply IH; [by eapply sound_step|].
      apply step_weight in Hstep. lia.
    + apply next_None in Hn as [?|[Hsa Haa]]; [done|].
      destruct Hs as [_ _ _ _ (Ha & _)]. by specialize (Ha Hsa).
Qed.

(** Every run of the pipeline can be completed: the scheduler [next]
    drives any reachable state to the end, in at most [weight] steps. *)
Lemma pipeline_finishes events st :
  reachable s events st →
  reachable s events (exec s (weight st) st) ∧ finished (exec s (weight st) st).
Proof.
  intros Hr. split.
  - eapply rtc_trans; [done|]. apply exec_reaches.
  - eapply exec_finished; [by apply reachable_sound|done].
Qed.

Lemma run_reaches sched st st' :
  run s sched st = Some st' → rtc (steps s) st st'.
Proof.
  revert st. induction sched as [|l sched IH]; intros st; simpl.
  - by intros [= ->].
  - destruct (step s l st) as [st1|] eqn:Hstep; [|done].
    intros Hrun. eapply rtc_l; [by exists l|]. by apply IH.
Qed.

End runs.


Section outcome.
Context (s : options).

Lemma refOf_inj j1 j2 : refOf j1 = refOf j2 → j1 = j2.
Proof. destruct j1, j2. by intros [= -> ->]. Qed.

Lemma sortGroup_out j evs h :
  sortGroup s j evs = SortSendOut h →
  job_ h = j
  ∧ events h = (if isSorted s then evs else Sort evs SortAggregateVersion SortAsc)
  ∧ (validateConsistency s = true →
     aggregate.ValidateConsistency (aggregate.New (name j) (id j) []) (events h) = None)
  ∧ (withSoftDeleted s = false → softdelete.SoftDeleted (events h) = false).
Proof.
  unfold sortGroup. intros Hsg.
  repeat case_match; simplify_eq/=; split_and!; try done.
  all: try (intros ->; done).
  all: intros Hw; rewrite Hw in *;
    by match goal with H : negb false && _ = false |- _ => simpl in H end.
Qed.

Lemma sortGroup_error j evs err :
  sortGroup s j evs = SortSendError err →
  validateConsistency s = true
  ∧ aggregate.ValidateConsistency (aggregate.New (name j) (id j) [])
      (if isSorted s then evs else Sort evs SortAggregateVersion SortAsc) = Some err
  ∧ aggregate.Aggregate_ err = refOf j.
Proof.
  unfold sortGroup. intros Hsg.
  repeat case_match; simplify_eq/=; split_and!; try done.
  all: by match goal with H : aggregate.ValidateConsistency _ _ = Some _ |- _ =>
         apply ValidateConsistency_ref in H end.
Qed.

Lemma sortGroup_skip j evs :
  sortGroup s j evs = SortRange →
  withSoftDeleted s = false
  ∧ softdelete.SoftDeleted
      (if isSorted s then evs else Sort evs SortAggregateVersion SortAsc) = true.
Proof.
  unfold sortGroup. intros Hsg.
  repeat case_match; simplify_eq/=.
  all: match goal with H : _ && _ = true |- _ =>
         apply andb_prop in H as [?%negb_true_iff ?] end; done.
Qed.

Lemma histories_one j evs R :
  filter (λ h, job_ h = R) (histories [sortGroup s j evs])
  = if decide (j = R) then histories [sortGroup s j evs] else [].
Proof.
  destruct (sortGroup s j evs) as [| | |h|] eqn:Hsg; try (by case_decide).
  apply sortGroup_out in Hsg as [Hjob _].
  change (histories [SortSendOut h]) with [h].
  case_decide; [by rewrite filter_cons_True by congruence|].
  by rewrite filter_cons_False by congruence.
Qed.


Lemma results_histories total js R :
  NoDup js →
  filter (λ h, job_ h = R) (histories (results s total js))
  = if decide (R ∈ js) then histories [sortGroup s R (groupOf R total)] else [].
Proof.
  induction 1 as [|j js Hj Hnd IH]; [done|].
  change (results s total (j :: js))
    with ([sortGroup s j (groupOf j total)] ++ results s total js).
  rewrite histories_app, filter_app, IH, histories_one.
  destruct (decide (j = R)) as [->|Hne].
  - rewrite decide_False by done. rewrite decide_True by set_solver.
    by rewrite app_nil_r.
  - simpl. repeat case_decide; try done; set_solver.
Qed.


Lemma consistent_finished total acc reqd st :
  consistent s total acc reqd st → finished st →
  out st = histories (results s total reqd)
  ∧ consistencyErrors (outErrors st) = errors (results s total reqd)
  ∧ NoDup reqd
  ∧ ∀ j, j ∈ reqd ↔ j ∈ jobOf <$> total.
Proof.
  intros [Ht Hnd Hseen Hgone Hpend _ _ Hout Herr] (Ha & Hs & _).
  unfold_views. rewrite Ha, Hs in *. rewrite app_nil_r in *. subst acc.
  split_and!; try done.
  intros j. split; [apply Hseen|].
  intros Hj. destruct (decide (j ∈ reqd)) as [|Hn]; [done|].
  exfalso. eapply (not_elem_of_empty (C:=gset job)). apply Hpend. done.
Qed.

End outcome.


Section groups.
Context (s : options).

Lemma contiguous_versions (k : nat) (evs : list Event) :
  contiguousFrom (Z.of_nat k) evs ↔
  AggregateVersion <$> evs = Z.of_nat <$> seq (S k) (length evs).
Proof.
  revert k. induction evs as [|e evs IH]; intros k.
  - split; [done|]. intros _. apply contiguousFrom_nil.
  - rewrite contiguousFrom_cons. simpl. split.
    + intros [He Hc]. f_equal; [lia|].
      apply (IH (S k)). by replace (Z.of_nat (S k)) with (AggregateVersion e) by lia.
    + intros [= He Hc]. split; [lia|].
      replace (AggregateVersion e) with (Z.of_nat (S k)) by lia. by apply IH.
Qed.



Lemma SoftDeleted_true (evs : list Event) :
  softdelete.SoftDeleted evs = true ↔ ∃ e, e ∈ evs ∧ SoftDelete e = true.
Proof.
  unfold softdelete.SoftDeleted. rewrite existsb_exists.
  by setoid_rewrite list_elem_of_In.
Qed.


Lemma fresh_version j :
  aggregate.AggregateVersion (aggregate.New (name j) (id j) []) = 0.
Proof. done. Qed.



Lemma groupOf_identity R total : identityOf (name R) (id R) (groupOf R total).
Proof.
  eapply Forall_impl; [apply groupOf_job|]. by intros e <-.
Qed.

Lemma seq_sorted (k n : nat) : StronglySorted Z.le (Z.of_nat <$> seq k n).
Proof.
  revert k. induction n as [|n IH]; intros k; simpl; constructor; [done|].
  apply Forall_forall. intros z (m & -> & Hm%elem_of_seq)%list_elem_of_fmap. lia.
Qed.

Lemma Sort_versions_sorted (l : list Event) :
  StronglySorted Z.le (AggregateVersion <$> Sort l SortAggregateVersion SortAsc).
Proof.
  pose proof (Sort_sorted l) as H.
  induction H as [|e l' Hl IH He]; simpl; constructor; [done|].
  by apply Forall_fmap.
Qed.

(** [gapless] says that the versions of the group are a rearrangement of
    1, ..., n. *)
Lemma gapless_perm (group : list Event) :
  gapless group ↔
  AggregateVersion <$> group ≡ₚ Z.of_nat <$> seq 1 (length group).
Proof.
  unfold gapless. split.
  - intros <-. by rewrite Sort_perm.
  - intros Hp. apply (StronglySorted_unique Z.le).
    + apply Sort_versions_sorted.
    + apply seq_sorted.
    + by rewrite Sort_perm.
Qed.

Lemma accepted_elem (input : list item) (e : Event) :
  e ∈ accepted s input → InEvent e ∈ input ∧ shouldDiscard s e = false.
Proof.
  induction input as [|[evt| |] input IH]; simpl; try set_solver.
  destruct (shouldDiscard s evt) eqn:Hd; set_solver.
Qed.

Lemma shouldDiscard_false (e : Event) :
  shouldDiscard s e = false ↔ Forall (λ fn, fn e = true) (filters s).
Proof.
  unfold shouldDiscard. induction (filters s) as [|fn fns IH]; simpl.
  - split; [constructor|done].
  - rewrite orb_false_iff, negb_false_iff, IH, Forall_cons. done.
Qed.

End groups.


Section emitted.
Context (s : options).

Lemma emitted_sound input st h :
  reachable s input st → h ∈ out st →
  ∃ group, sortGroup s (job_ h) group = SortSendOut h
           ∧ Forall (λ e, jobOf e = job_ h ∧ e ∈ accepted s input) group.
Proof.
  intros Hr Hh. apply reachable_sound in Hr as [_ _ Hout _ _].
  apply Hout. set_solver.
Qed.

Lemma emitted_exact input st h :
  wellGrouped s input → reachable s input st → h ∈ out st →
  job_ h ∈ jobOf <$> accepted s input
  ∧ sortGroup s (job_ h) (groupOf (job_ h) (accepted s input)) = SortSendOut h.
Proof.
  intros Hg Hr Hh.
  destruct (reachable_consistent s _ _ Hg Hr) as (acc & reqd & Hc).
  pose proof (c_nodup _ _ _ _ _ Hc) as Hnd.
  apply NoDup_app in Hnd as (Hnd & _ & _).
  pose proof (results_histories s (accepted s input) reqd (job_ h) Hnd) as Hf.
  assert (h ∈ filter (λ h', job_ h' = job_ h)
                (histories (results s (accepted s input) reqd))) as Hin.
  { apply list_elem_of_filter. split; [done|].
    rewrite <- (c_out _ _ _ _ _ Hc). set_solver. }
  rewrite Hf in Hin. case_decide as Hj; [|by apply elem_of_nil in Hin].
  split.
  - rewrite (c_total _ _ _ _ _ Hc), fmap_app.
    apply elem_of_app. left. apply (c_seen _ _ _ _ _ Hc). set_solver.
  - destruct (sortGroup s (job_ h) _) as [| | |h'|];
      try (by apply elem_of_nil in Hin).
    by apply list_elem_of_singleton in Hin as ->.
Qed.

Lemma emitted_complete input st R h :
  wellGrouped s input → reachable s input st → finished st →
  R ∈ jobOf <$> accepted s input →
  sortGroup s R (groupOf R (accepted s input)) = SortSendOut h →
  h ∈ out st.
Proof.
  intros Hg Hr Hfin HR Hsg.
  destruct (reachable_consistent s _ _ Hg Hr) as (acc & reqd & Hc).
  destruct (consistent_finished s _ _ _ _ Hc Hfin) as (Hout & _ & Hnd & Hall).
  pose proof (results_histories s (accepted s input) reqd R Hnd) as Hf.
  rewrite decide_True in Hf by by apply Hall.
  rewrite Hsg in Hf. rewrite Hout.
  assert (h ∈ filter (λ h', job_ h' = R)
                (histories (results s (accepted s input) reqd))) as Hin
    by (rewrite Hf; set_solver).
  by apply list_elem_of_filter in Hin as [_ ?].
Qed.

Lemma emitted_once input st R :
  wellGrouped s input → reachable s input st →
  (length (filter (λ h, job_ h = R) (out st)) ≤ 1)%nat.
Proof.
  intros Hg Hr.
  destruct (reachable_consistent s _ _ Hg Hr) as (acc & reqd & Hc).
  pose proof (c_nodup _ _ _ _ _ Hc) as Hnd.
  apply NoDup_app in Hnd as (Hnd & _ & _).
  pose proof (results_histories s (accepted s input) reqd R Hnd) as Hf.
  rewrite <- (c_out _ _ _ _ _ Hc), filter_app in Hf.
  apply (f_equal length) in Hf. rewrite length_app in Hf.
  case_decide; simpl in Hf; [|lia].
  destruct (sortGroup s R _); simpl in Hf; lia.
Qed.

Lemma surfaced_exact input st err :
  wellGrouped s input → reachable s input st →
  err ∈ consistencyErrors (outErrors st) →
  ∃ R, R ∈ jobOf <$> accepted s input
       ∧ sortGroup s R (groupOf R (accepted s input)) = SortSendError err.
Proof.
  intros Hg Hr Hh.
  destruct (reachable_consistent s _ _ Hg Hr) as (acc & reqd & Hc).
  assert (err ∈ errors (results s (accepted s input) reqd)) as Hin.
  { rewrite <- (c_errors _ _ _ _ _ Hc). set_solver. }
  unfold errors, results in Hin.
  apply list_elem_of_omap in Hin as (r & Hr' & Hsome).
  apply list_elem_of_fmap in Hr' as (R & -> & HR).
  exists R. split.
  - rewrite (c_total _ _ _ _ _ Hc), fmap_app.
    apply elem_of_app. left. apply (c_seen _ _ _ _ _ Hc). set_solver.
  - destruct (sortGroup s R _); by simplify_eq.
Qed.



Lemma finishes input :
  ∃ st, reachable s input st ∧ finished st.
Proof.
  exists (exec s (weight (init input)) (init input)).
  apply pipeline_finishes. apply rtc_refl.
Qed.

End emitted.

Import sample.




Section claims.
Context (s : options).

Lemma Aggregate_refOf (h : applier) (R : job) :
  Aggregate h = refOf R ↔ job_ h = R.
Proof.
  split; [|by intros <-]. unfold Aggregate. apply refOf_inj.
Qed.

Lemma arranged_perm (group : list Event) :
  (if isSorted s then group else Sort group SortAggregateVersion SortAsc)
  ≡ₚ group.
Proof. destruct (isSorted s); [done|apply Sort_perm]. Qed.



End claims.



(** C3: under the input precondition of the options (a grouped input when
    [Grouped] is on), at most one history carrying a given aggregate
    reference is ever on the output channel. *)
Theorem one_history_per_aggregate s input st (R : aggregate.Ref) :
  wellGrouped s input →
  reachable s input st →
  (length (filter (λ h, Aggregate h = R) (out st)) ≤ 1)%nat.
Proof.
  intros Hg Hr.
  pose proof (emitted_once s _ _
                {| name := aggregate.Name R; id := aggregate.ID R |} Hg Hr) as H.
  erewrite list_filter_iff; [exact H|].
  intros h. simpl. rewrite <- Aggregate_refOf. by destruct R.
Qed.

Lemma one_history_per_aggregate_witness :
  (length (filter (λ h, Aggregate h = refOf fooA)
             (out (exec (configure [Grouped true]) 46 (init gapped)))) ≤ 1)%nat.
Proof.
  apply (one_history_per_aggregate (configure [Grouped true]) gapped).
  - intros _. apply (@bool_decide_unpack _ (groupedFrom_dec _ _)).
    vm_compute. exact I.
  - apply exec_reaches.
Defined.

(** The [Grouped] option relies on its contract: on an input that comes back
    to an aggregate the pipeline can emit two histories for it. *)
Lemma grouped_contract_needed :
  ∃ st, run (configure [Grouped true]) comebackSchedule (init comeback) = Some st
        ∧ length (filter (λ h, Aggregate h = refOf fooA) (out st)) = 2%nat.
Proof. eexists. split; [vm_compute; reflexivity|]. vm_compute. reflexivity. Qed.

(** C4 as stated fails: with the soft-delete option off and validation on
    (both defaults), the group of [softDeletedGap] carries the soft-delete
    marker and yet an error about its aggregate is surfaced, because the group
    also has a version gap and validation runs first. *)
Lemma soft_deleted_group_counterexample :
  withSoftDeleted (configure []) = false
  ∧ (∃ e, e ∈ groupOf fooA (accepted (configure []) softDeletedGap)
          ∧ SoftDelete e = true)
  ∧ reachable (configure []) softDeletedGap
      (exec (configure []) 30 (init softDeletedGap))
  ∧ ∃ err, Consistency err
             ∈ outErrors (exec (configure []) 30 (init softDeletedGap))
           ∧ about fooA err.
Proof.
  split_and!.
  - reflexivity.
  - exists (evt "foo" 1 3 true). split; [|reflexivity].
    vm_compute. repeat constructor.
  - apply exec_reaches.
  - eexists. split; [vm_compute; constructor|]. reflexivity.
Qed.

(** C4 (amended): with the soft-delete option off, if any event of the group
    of aggregate [R] carries the soft-delete marker, no history for [R] is
    ever emitted; no error about [R] is surfaced when validation is off or
    the group is free of gaps (validation runs before the soft-delete check);
    every run can be completed, and once the pipeline has finished every
    other aggregate has the history the emit stage makes of its group.
    Under [Grouped] the input has to be grouped. *)
Theorem soft_deleted_group_dropped s input R :
  withSoftDeleted s = false →
  wellGrouped s input →
  (∃ e, e ∈ groupOf R (accepted s input) ∧ SoftDelete e = true) →
  (∃ st, reachable s input st ∧ finished st)
  ∧ ∀ st, reachable s input st →
      (∀ h, h ∈ out st → Aggregate h ≠ refOf R)
      ∧ (validateConsistency s = false
         ∨ (gapless (groupOf R (accepted s input))
            ∧ (isSorted s = true →
               StronglySorted versionLe (groupOf R (accepted s input)))) →
         filter (about R) (consistencyErrors (outErrors st)) = [])
      ∧ (finished st →
         ∀ R' h', R' ∈ jobOf <$> accepted s input → R' ≠ R →
           sortGroup s R' (groupOf R' (accepted s input)) = SortSendOut h' →
           h' ∈ out st).
Proof.
  intros Hsoft Hg (e & He & Hdel).
  split; [apply finishes|]. intros st Hr. split_and!.
  - intros h Hh HhR%Aggregate_refOf.
    destruct (emitted_exact s _ _ _ Hg Hr Hh) as [_ Hsg].
    apply sortGroup_out in Hsg as (_ & Hev & _ & Hnot).
    specialize (Hnot Hsoft).
    assert (softdelete.SoftDeleted (events h) = true) as Hyes; [|congruence].
    apply SoftDeleted_true. exists e. split; [|done].
    rewrite Hev, arranged_perm. by rewrite HhR.
  - intros Hok.
    destruct (filter (about R) (consistencyErrors (outErrors st)))
      as [|err l] eqn:Hf; [done|]. exfalso.
    assert (err ∈ filter (about R) (consistencyErrors (outErrors st))) as Hin
      by (rewrite Hf; set_solver).
    apply list_elem_of_filter in Hin as [Habout Hin].
    destruct (surfaced_exact s _ _ _ Hg Hr Hin) as (R' & _ & Hsg).
    pose proof (sortGroup_error s _ _ _ Hsg) as (Hval & _ & Href).
    unfold about in Habout. rewrite Href in Habout.
    apply refOf_inj in Habout as ->.
    destruct Hok as [Hoff|[Hless Hsorted]]; [congruence|].
    unfold sortGroup in Hsg.
    assert ((if isSorted s then groupOf R (accepted s input)
             else Sort (groupOf R (accepted s input)) SortAggregateVersion SortAsc)
            = Sort (groupOf R (accepted s input)) SortAggregateVersion SortAsc)
      as Harr.
    { destruct (isSorted s); [|done]. by rewrite Sort_id by auto. }
    rewrite Harr, Hval in Hsg.
    assert (aggregate.ValidateConsistency (aggregate.New (name R) (id R) [])
              (Sort (groupOf R (accepted s input)) SortAggregateVersion SortAsc)
            = None) as Hnone.
    { apply ValidateConsistency_None. split.
      - unfold history.identityOf. simpl. rewrite Sort_perm.
        apply groupOf_identity.
      - apply (contiguous_versions 0).
        by rewrite (Permutation_length (Sort_perm _ _ _)). }
    rewrite Hnone in Hsg. by destruct (negb _ && _).
  - intros Hfin R' h' HR' _ Hsg. by eapply emitted_complete.
Qed.

Lemma soft_deleted_group_dropped_witness :
  (∀ h, h ∈ out (exec (configure []) 46 (init softDeleted)) →
        Aggregate h ≠ refOf fooA)
  ∧ filter (about fooA)
      (consistencyErrors (outErrors (exec (configure []) 46 (init softDeleted))))
    = []
  ∧ {| job_ := barB; events := [evt "bar" 2 1 false] |}
    ∈ out (exec (configure []) 46 (init softDeleted)).
Proof.
  assert (withSoftDeleted (configure []) = false) as Hsoft by reflexivity.
  assert (wellGrouped (configure []) softDeleted) as Hg
    by (intros H; discriminate H).
  assert (∃ e, e ∈ groupOf fooA (accepted (configure []) softDeleted)
               ∧ SoftDelete e = true) as Hdel.
  { exists (evt "foo" 1 3 true). split; [|reflexivity].
    vm_compute. repeat constructor. }
  destruct (soft_deleted_group_dropped (configure []) softDeleted fooA
              Hsoft Hg Hdel) as [_ H].
  destruct (H (exec (configure []) 46 (init softDeleted)) (exec_reaches _ _ _))
    as (Hnone & Hquiet & Hothers).
  split_and!.
  - exact Hnone.
  - apply Hquiet. right. split.
    + vm_compute. reflexivity.
    + intros H'; discriminate H'.
  - apply (Hothers ltac:(vm_compute; repeat split) barB).
    + vm_compute. repeat constructor.
    + intros H'; discriminate H'.
    + vm_compute. reflexivity.
Defined.

(** C5 as stated fails: without any filter every predicate accepts the only
    event of [lateStart], but the pipeline finishes without a history that
    contains it, because its aggregate does not pass validation. *)
Lemma filtered_events_counterexample :
  InEvent (evt "foo" 1 2 false) ∈ lateStart
  ∧ Forall (λ fn, fn (evt "foo" 1 2 false) = true) (filters (configure []))
  ∧ reachable (configure []) lateStart (exec (configure []) 20 (init lateStart))
  ∧ finished (exec (configure []) 20 (init lateStart))
  ∧ ¬ ∃ h, h ∈ out (exec (configure []) 20 (init lateStart))
           ∧ evt "foo" 1 2 false ∈ events h.
Proof.
  split_and!.
  - constructor.
  - constructor.
  - apply exec_reaches.
  - vm_compute. repeat split.
  - intros (h & Hh & _). vm_compute in Hh. inversion Hh.
Qed.

(** C5 (amended): an event occurs in an emitted history only if it is an
    event of the input that every filter predicate accepts; the accept stage
    discards an event exactly when some predicate returns false for it.  For
    an event the accept stage forwards (read before any upstream error, no
    predicate returning false), once the pipeline has finished the event is
    in some emitted history if and only if the emit stage turns the group of
    its aggregate into a history, that is, the group passes validation and
    the soft-delete policy.  Under [Grouped] the input has to be grouped. *)
Theorem filtered_events s input e :
  (∀ st h, reachable s input st → h ∈ out st → e ∈ events h →
           InEvent e ∈ input ∧ Forall (λ fn, fn e = true) (filters s))
  ∧ (shouldDiscard s e = true ↔ Exists (λ fn, fn e = false) (filters s))
  ∧ ((∀ cause, InError cause ∉ input) → InEvent e ∈ input →
     Forall (λ fn, fn e = true) (filters s) → e ∈ accepted s input)
  ∧ (wellGrouped s input → e ∈ accepted s input →
     (∃ st, reachable s input st ∧ finished st)
     ∧ ∀ st, reachable s input st → finished st →
         ((∃ h, h ∈ out st ∧ e ∈ events h)
          ↔ ∃ h, sortGroup s (jobOf e) (groupOf (jobOf e) (accepted s input))
                 = SortSendOut h)).
Proof.
  split_and!.
  - intros st h Hr Hh He.
    destruct (emitted_sound s _ _ _ Hr Hh) as (group & Hsg & Hgroup).
    apply sortGroup_out in Hsg as (_ & Hev & _).
    rewrite Hev, arranged_perm in He.
    rewrite Forall_forall in Hgroup. destruct (Hgroup e He) as [_ Hacc].
    apply accepted_elem in Hacc as [Hin Hd]. split; [done|].
    by apply shouldDiscard_false.
  - unfold shouldDiscard. rewrite existsb_exists, Exists_exists.
    setoid_rewrite list_elem_of_In. by setoid_rewrite negb_true_iff.
  - intros Hne Hin Hall. apply shouldDiscard_false in Hall.
    induction input as [|[evt'|c|] input IH]; simpl.
    + by apply elem_of_nil in Hin.
    + apply elem_of_cons in Hin as [[= <-]|Hin].
      * rewrite Hall. set_solver.
      * destruct (shouldDiscard s evt'); [|right]; apply IH; set_solver.
    + exfalso. apply (Hne c). set_solver.
    + apply IH; set_solver.
  - intros Hg Hacc. split; [apply finishes|]. intros st Hr Hfin. split.
    + intros (h & Hh & He).
      destruct (emitted_exact s _ _ _ Hg Hr Hh) as [_ Hsg].
      apply sortGroup_out in Hsg as Hh'. destruct Hh' as (_ & Hev & _).
      rewrite Hev, arranged_perm in He.
      apply groupOf_elem in He as [Hj _]. rewrite <- Hj in Hsg. eauto.
    + intros (h & Hsg). exists h. split.
      * eapply emitted_complete; try done.
        apply list_elem_of_fmap. eauto.
      * apply sortGroup_out in Hsg as (_ & -> & _).
        rewrite arranged_perm. by apply groupOf_elem.
Qed.

Lemma filtered_events_witness :
  (∃ h, h ∈ out (exec (configure [Filter [barOnly]]) 46 (init interleaved))
        ∧ evt "bar" 2 1 false ∈ events h)
  ∧ shouldDiscard (configure [Filter [barOnly]]) (evt "foo" 1 3 false) = true.
Proof.
  pose proof (filtered_events (configure [Filter [barOnly]]) interleaved
                (evt "bar" 2 1 false)) as (_ & _ & Hfwd & Hiff).
  pose proof (filtered_events (configure [Filter [barOnly]]) interleaved
                (evt "foo" 1 3 false)) as (_ & Hdisc & _).
  split.
  - assert (evt "bar" 2 1 false
              ∈ accepted (configure [Filter [barOnly]]) interleaved) as Hacc.
    { apply Hfwd.
      - intros cause Hc. unfold interleaved in Hc.
        repeat (apply elem_of_cons in Hc as [Hc|Hc]; [discriminate Hc|]).
        by apply elem_of_nil in Hc.
      - vm_compute. repeat constructor.
      - repeat constructor. }
    destruct (Hiff ltac:(intros H; discriminate H) Hacc) as [_ H].
    apply (H (exec (configure [Filter [barOnly]]) 46 (init interleaved))).
    + apply exec_reaches.
    + vm_compute. repeat split.
    + eexists. vm_compute. reflexivity.
  - apply Hdisc. apply Exists_cons_hd. reflexivity.
Defined.

(** ** The scenarios of the specification, run by the scheduler [next] *)

Section scenarios.

(** Three events of one aggregate in order: one history, and a fresh
    aggregate is at version 3 once the history is applied. *)
Example clean_rebuild :
  (λ h, aggregate.AggregateVersion (Apply h (aggregate.New "foo" 1%N [])))
    <$> out (finish (configure []) clean) = [3]
  ∧ outErrors (finish (configure []) clean) = [].
Proof. split; vm_compute; reflexivity. Qed.

(** Interleaved, ungrouped, unsorted: two histories, each in version
    order. *)
Example interleaved_rebuild :
  (λ h, (job_ h, AggregateVersion <$> events h))
    <$> out (finish (configure []) interleaved)
  = [(barB, [1; 2; 3]); (fooA, [1; 2; 3])]
  ∧ outErrors (finish (configure []) interleaved) = [].
Proof. split; vm_compute; reflexivity. Qed.

(** Versions 1, 2, 4: no history for the aggregate, one [VersionGap]. *)
Example gapped_rebuild :
  job_ <$> out (finish (configure []) gapped) = [barB]
  ∧ outErrors (finish (configure []) gapped)
    = [Consistency {| aggregate.Kind := aggregate.VersionGap 2 3 4;
                      aggregate.Aggregate_ := refOf fooA |}].
Proof. split; vm_compute; reflexivity. Qed.

(** A soft-deleted group: no history for it and no error. *)
Example soft_deleted_rebuild :
  job_ <$> out (finish (configure []) softDeleted) = [barB]
  ∧ outErrors (finish (configure []) softDeleted) = []
  ∧ job_ <$> out (finish (configure [WithSoftDeleted true]) softDeleted)
    = [barB; fooA].
Proof. split_and!; vm_compute; reflexivity. Qed.

(** Grouped input: the outcome of the first aggregate is out as soon as the
    first event of the second one has been read, while the accept stage is
    still waiting on the stream and holds the events of the second one. *)
Example grouped_fast_emit :
  ∃ st, run (configure [Grouped true])
          [Receive; Forward; Receive; Forward; Receive; Forward;
           Receive; Forward; Complete; Group; Take] (init gapped) = Some st
        ∧ length (outErrors st) = 1%nat
        ∧ acceptAt st = AcceptSelect
        ∧ groups st !! barB = Some [evt "bar" 2 1 false].
Proof. eexists. split; [vm_compute; reflexivity|]. by vm_compute. Qed.

End scenarios.

Import sample.
Import upstream.

(** ** Further facts about the three goroutines *)

Section schedules.
Context (s : options).

Lemma run_weight sched st st' :
  run s sched st = Some st' → (weight st' + length sched ≤ weight st)%nat.
Proof.
  revert st. induction sched as [|l sched IH]; intros st; simpl.
  - intros [= ->]. lia.
  - destruct (step s l st) as [st1|] eqn:Hstep; [|done].
    intros Hrun. apply IH in Hrun. apply step_weight in Hstep. lia.
Qed.

Lemma finished_stuck st l : finished st → step s l st = None.
Proof.
  intros (Ha & Hs & He & Hg).
  destruct st as [inp aa pend pv gr en gn sa o oe]. simpl in *. subst.
  by destruct l.
Qed.

Lemma sound_progress total st :
  sound s total st → finished st ∨ ∃ l st', step s l st = Some st'.
Proof.
  intros Hs. destruct (next st) as [l|] eqn:Hn.
  - right. destruct (next_enabled s _ _ _ Hs Hn) as [st' Hstep]. eauto.
  - left. apply next_None in Hn as [?|[Hsa Haa]]; [done|].
    destruct Hs as [_ _ _ _ (Ha & _)]. by specialize (Ha Hsa).
Qed.

End schedules.

(** X1: The pipeline neither hangs nor runs on: under every schedule of the
    three goroutines and a consumer that keeps receiving, a run from
    [NewOf] has at most [6 + 10 * n] channel operations for an input of
    [n] receives; a state in which no operation can complete is one in
    which all goroutines have returned and every channel is closed, and in
    such a state nothing happens any more. *)
Theorem pipeline_terminates s input sched st :
  run s sched (init input) = Some st →
  (length sched ≤ 6 + 10 * length input)%nat
  ∧ (finished st ∨ ∃ l st', step s l st = Some st')
  ∧ (finished st → ∀ l, step s l st = None).
Proof.
  intros Hrun. split_and!.
  - apply run_weight in Hrun.
    assert (weight (init input) = 6 + 10 * length input)%nat as Hw.
    { unfold weight, init. cbn [acceptAt sortAt pending stream.input eventsNil
                                  groupReqsNil].
      rewrite size_empty. lia. }
    lia.
  - eapply sound_progress. apply reachable_sound. by eapply run_reaches.
  - intros Hfin l. by apply finished_stuck.
Qed.

Lemma pipeline_terminates_witness :
  (length comebackSchedule ≤ 6 + 10 * length comeback)%nat.
Proof.
  destruct (pipeline_terminates (configure [Grouped true]) comeback
              comebackSchedule
              (default (init comeback)
                 (run (configure [Grouped true]) comebackSchedule
                    (init comeback)))) as [H _].
  - vm_compute. reflexivity.
  - exact H.
Defined.

Section grouping.
Context (s : options).

Lemma sortGroup_plain j group :
  isSorted s = true → validateConsistency s = false →
  withSoftDeleted s = true →
  sortGroup s j group = SortSendOut {| job_ := j; events := group |}.
Proof. unfold sortGroup. by intros -> -> ->. Qed.

Lemma histories_plain total js :
  isSorted s = true → validateConsistency s = false →
  withSoftDeleted s = true →
  histories (results s total js)
  = (λ j, {| job_ := j; events := groupOf j total |}) <$> js
  ∧ errors (results s total js) = [].
Proof.
  intros H1 H2 H3. induction js as [|j js [IH1 IH2]]; [done|].
  change (results s total (j :: js))
    with ([sortGroup s j (groupOf j total)] ++ results s total js).
  rewrite histories_app, errors_app, IH1, IH2.
  by rewrite sortGroup_plain.
Qed.

(** The groups of a duplicate-free list of jobs that covers a list of
    events partition it. *)
Lemma groups_partition (total : list Event) (js : list job) :
  NoDup js → (∀ e, e ∈ total → jobOf e ∈ js) →
  concat ((λ j, groupOf j total) <$> js) ≡ₚ total.
Proof.
  revert total. induction js as [|j js IH]; intros total Hnd Hall.
  - destruct total as [|e total]; [done|].
    specialize (Hall e ltac:(set_solver)). by apply elem_of_nil in Hall.
  - apply NoDup_cons in Hnd as [Hj Hnd]. simpl.
    etrans; [|apply (filter_app_complement (λ e, jobOf e = j))].
    apply Permutation_app; [done|].
    rewrite <- (IH (base.filter (λ e, ¬ jobOf e = j) total)); [|done|].
    + apply reflexive_eq. f_equal. apply Forall_fmap_ext_1.
      apply Forall_forall. intros j' Hj'. unfold groupOf. rewrite list_filter_filter.
      apply list_filter_iff. intros e. split; [|tauto].
      intros He. split; [done|]. intros Hej. apply Hj. congruence.
    + intros e [He1 He2]%list_elem_of_filter.
      specialize (Hall e He2). set_solver.
Qed.

End grouping.

(** X2: With [Sorted(true)], [ValidateConsistency(false)] and
    [WithSoftDeleted(true)] the pipeline only groups: once it has finished
    there is no consistency error, and the histories are, one for each
    aggregate among the events the accept stage forwarded, the events of
    that aggregate in the order of their arrival; together they hold each
    forwarded event once.  Under [Grouped] the input has to be grouped. *)
Theorem grouping_only s input st :
  isSorted s = true → validateConsistency s = false →
  withSoftDeleted s = true →
  wellGrouped s input → reachable s input st → finished st →
  consistencyErrors (outErrors st) = []
  ∧ NoDup (job_ <$> out st)
  ∧ (∀ j, j ∈ job_ <$> out st ↔ j ∈ jobOf <$> accepted s input)
  ∧ (∀ h, h ∈ out st → events h = groupOf (job_ h) (accepted s input))
  ∧ concat (events <$> out st) ≡ₚ accepted s input.
Proof.
  intros H1 H2 H3 Hg Hr Hfin.
  destruct (reachable_consistent s _ _ Hg Hr) as (acc & reqd & Hc).
  destruct (consistent_finished s _ _ _ _ Hc Hfin) as (Hout & Herr & Hnd & Hall).
  destruct (histories_plain s (accepted s input) reqd H1 H2 H3) as [Hh He].
  rewrite Hh in Hout. rewrite He in Herr.
  assert (job_ <$> out st = reqd) as Hjobs.
  { rewrite Hout, <- list_fmap_compose. apply list_fmap_id. }
  split_and!.
  - done.
  - by rewrite Hjobs.
  - intros j. rewrite Hjobs. apply Hall.
  - intros h. rewrite Hout. intros (j & -> & _)%list_elem_of_fmap. done.
  - rewrite Hout, <- list_fmap_compose.
    apply groups_partition; [done|].
    intros e He'. apply Hall. by apply list_elem_of_fmap_2.
Qed.

Lemma grouping_only_witness :
  events <$> out (finish (configure [Sorted true; ValidateConsistency false;
                                     WithSoftDeleted true]) softDeletedGap)
  = [[evt "foo" 1 1 false; evt "foo" 1 3 true]].
Proof.
  pose proof (grouping_only
                (configure [Sorted true; ValidateConsistency false;
                            WithSoftDeleted true]) softDeletedGap
                (finish (configure [Sorted true; ValidateConsistency false;
                                    WithSoftDeleted true]) softDeletedGap))
    as H.
  destruct H as (_ & _ & _ & _ & _).
  - reflexivity.
  - reflexivity.
  - reflexivity.
  - intros H'. discriminate H'.
  - apply exec_reaches.
  - vm_compute. repeat split.
  - vm_compute. reflexivity.
Defined.

Section upstreamErrors.
Context (s : options).

Lemma streamErrors_app l1 l2 :
  streamErrors (l1 ++ l2) = streamErrors l1 ++ streamErrors l2.
Proof. apply omap_app. Qed.

Lemma errorsHandled_step input0 l st st' :
  errorsHandled input0 st → step s l st = Some st' → errorsHandled input0 st'.
Proof.
  intros Hk Hstep.
  destruct l; step_inv Hstep.
  all: destruct st as [inp aa pend pv gr en gn sa o oe].
  all: unfold errorsHandled in *; simplify_eq/=.
  all: try rewrite streamErrors_app; simpl; rewrite ?app_nil_r.
  all: try (destruct aa; done).
  all: try (by intuition congruence).
  - destruct Hk as (Hk1 & Hk2 & Hk3). simpl in *.
    rewrite <- Hk2. done.
  - destruct Hk as (Hk1 & Hk2 & Hk3). rewrite Hk1, Hk2. done.
Qed.

Lemma reachable_errorsHandled input st :
  reachable s input st → errorsHandled input st.
Proof.
  revert st. apply rtc_ind_r.
  - done.
  - intros st st' _ [l Hstep] IH. by eapply errorsHandled_step.
Qed.

Lemma quiet_step l st st' :
  isGrouped s = false → quiet st → step s l st = Some st' → quiet st'.
Proof.
  intros Hg Hq Hstep.
  destruct l; step_inv Hstep.
  all: destruct st as [inp aa pend pv gr en gn sa o oe].
  all: unfold quiet in *; simplify_eq/=; try done.
  all: try (destruct aa; done).
  all: try (destruct aa; destruct Hq as (? & ? & ?); done).
  all: try (rewrite Hg in *; done).
  all: destruct aa; try done; by destruct Hq as (? & ? & ?).
Qed.

Lemma reachable_quiet input st :
  isGrouped s = false → reachable s input st → quiet st.
Proof.
  intros Hg. revert st. apply rtc_ind_r.
  - done.
  - intros st st' _ [l Hstep] IH. by eapply quiet_step.
Qed.

Lemma accepted_beforeError input e :
  e ∈ accepted s input → InEvent e ∈ beforeError input.
Proof.
  induction input as [|[evt'|c|] input IH]; simpl.
  - by intros ?%elem_of_nil.
  - destruct (shouldDiscard s evt'); set_solver.
  - by intros ?%elem_of_nil.
  - set_solver.
Qed.

End upstreamErrors.

Lemma afterError_suffix (l : list item) : afterError l `suffix_of` l.
Proof.
  induction l as [|[] l IH]; simpl; try done.
  - by apply suffix_cons_r.
  - by apply suffix_cons_r.
  - by apply suffix_cons_r.
Qed.

(** X3: An error of the upstream ends the accept loop: it is surfaced once,
    wrapped as an event stream error, nothing behind it is read, and no
    event behind it gets into a history.  Once the pipeline has finished,
    the wrapped upstream errors among what was surfaced are exactly the
    first upstream error of the input, if it has one. *)
Theorem upstream_error_once s input st :
  reachable s input st →
  (length (streamErrors (outErrors st)) ≤ 1)%nat
  ∧ (∀ cause, cause ∈ streamErrors (outErrors st) →
              firstError input = Some cause)
  ∧ afterError input `suffix_of` stream.input st
  ∧ (finished st →
     streamErrors (outErrors st) = option_list (firstError input)
     ∧ stream.input st = afterError input)
  ∧ (∀ h e, h ∈ out st → e ∈ events h → InEvent e ∈ beforeError input).
Proof.
  intros Hr. pose proof (reachable_errorsHandled s _ _ Hr) as Hk.
  unfold errorsHandled in Hk. split_and!.
  - destruct (acceptAt st); destruct Hk as [-> Hk]; simpl; try lia.
    all: destruct (firstError input); simpl; lia.
  - intros cause. destruct (acceptAt st); destruct Hk as [-> Hk];
      try (by intros ?%elem_of_nil).
    all: destruct (firstError input); simpl;
      [by intros ->%list_elem_of_singleton|by intros ?%elem_of_nil].
  - destruct (acceptAt st).
    all: try (destruct Hk as (_ & _ & <-); apply afterError_suffix).
    all: destruct Hk as (_ & Hk); try destruct Hk as (_ & Hk);
      by rewrite Hk.
  - intros (Ha & _). rewrite Ha in Hk. done.
  - intros h e Hh He.
    destruct (emitted_sound s _ _ _ Hr Hh) as (group & Hsg & Hgroup).
    apply sortGroup_out in Hsg as (_ & Hev & _).
    rewrite Hev, arranged_perm in He.
    rewrite Forall_forall in Hgroup. destruct (Hgroup e He) as [_ Hacc].
    by eapply accepted_beforeError.
Qed.

Lemma upstream_error_once_witness :
  streamErrors (outErrors (finish (configure []) sampleStreams.failing))
  = ["connection lost"]
  ∧ stream.input (finish (configure []) sampleStreams.failing)
    = [InEvent (evt "foo" 1 2 false)].
Proof.
  destruct (upstream_error_once (configure []) sampleStreams.failing
              (finish (configure []) sampleStreams.failing))
    as (_ & _ & _ & H & _).
  - apply exec_reaches.
  - apply H. vm_compute. repeat split.
Defined.

(** X4: Without [Grouped] the pipeline delivers nothing, neither a history nor
    an error, while the accept stage is still in its loop: whenever
    something has been received from [out] or [outErrors], the stream had
    been read to its end or to its first upstream error. *)
Theorem ungrouped_waits s input st :
  isGrouped s = false →
  reachable s input st →
  out st ≠ [] ∨ outErrors st ≠ [] →
  loopLeft st ∧ stream.input st = afterError input.
Proof.
  intros Hg Hr Hne.
  pose proof (reachable_quiet s _ _ Hg Hr) as Hq.
  pose proof (reachable_errorsHandled s _ _ Hr) as Hk.
  unfold quiet, errorsHandled, loopLeft in *.
  destruct (acceptAt st); try done.
  all: try (destruct Hq as (_ & Ho & Hoe); destruct Hne; congruence).
  all: by destruct Hk as [_ Hk].
Qed.

Lemma ungrouped_waits_witness :
  stream.input (finish (configure []) interleaved) = [].
Proof.
  destruct (ungrouped_waits (configure []) interleaved
              (finish (configure []) interleaved)) as [_ H].
  - reflexivity.
  - apply exec_reaches.
  - left. vm_compute. discriminate.
  - exact H.
Defined.

End pipeline.

(** * Facts about projection jobs and their cache *)

Module jobs.
Import event project.

Section hashed.
Context (hash : applyConfig → query.Query → N).

Lemma load_alloc_old w elems s :
  (∀ a, s = Some a → (a < length (heap w))%nat) →
  load (alloc elems w).2 s = load w s.
Proof.
  intros Hs. destruct s as [a|]; [|done]. simpl.
  by rewrite lookup_app_l by auto.
Qed.

Lemma load_alloc_new w elems :
  load (alloc elems w).2 (alloc elems w).1 = elems.
Proof.
  simpl. rewrite lookup_app_r by done.
  by rewrite Nat.sub_diag.
Qed.


Lemma ensure_hit cfg q proj fetch w events :
  cache w !! hash cfg q = Some events →
  ensure hash cfg q proj fetch w
  = ((Some (length (heap w)), None),
     {| heap := heap w ++ [load w events]; cache := cache w;
        queried := queried w |}).
Proof.
  intros Hhit. unfold ensure, ensureLookup, lookupCache, mbind, M_bind.
  simpl. by rewrite Hhit.
Qed.

Lemma ensure_miss_failed cfg q proj fetch w events err w' :
  cache w !! hash cfg q = None →
  fetch w = ((events, Some err), w') →
  ensure hash cfg q proj fetch w = ((events, Some err), w').
Proof.
  intros Hmiss Hf. unfold ensure, ensureLookup, lookupCache, mbind, M_bind.
  simpl. rewrite Hmiss. simpl. by rewrite Hf.
Qed.

Lemma ensure_miss_fetched cfg q proj fetch w events w' :
  cache w !! hash cfg q = None →
  fetch w = ((events, None), w') →
  ensure hash cfg q proj fetch w
  = ((Some (length (heap w')), None),
     {| heap := heap w' ++ [load w' events];
        cache := <[hash cfg q := events]> (cache w');
        queried := queried w' |}).
Proof.
  intros Hmiss Hf. unfold ensure, ensureLookup, lookupCache, mbind, M_bind.
  simpl. rewrite Hmiss. simpl. by rewrite Hf.
Qed.

(** What the fetch function of [eventsFor] does: it asks the store once
    and leaves the cache alone. *)
Lemma fetchEvents_spec j q w :
  ∃ r h,
    fetchEvents j q w
    = (r, {| heap := h; cache := cache w; queried := queried w ++ [q] |})
    ∧ match store j (queried w) q with
      | Refused cause => r = (None, Some (QueryEvents cause)) ∧ h = heap w
      | Streamed items =>
          match streams.Drain items with
          | (_, Some cause) =>
              r = (None, Some (DrainEvents cause)) ∧ h = heap w
          | (evs, None) =>
              r = (Some (length (heap w)), None) ∧ h = heap w ++ [evs]
          end
      end.
Proof.
  unfold fetchEvents, Query, mbind, M_bind. simpl.
  destruct (store j (queried w) q) as [cause|items]; simpl; [by eauto|].
  destruct (streams.Drain items) as [evs [cause|]]; simpl; by eauto.
Qed.

Lemma eventsFor_failed j p cfg q w r err w1 :
  eventsFor hash j p cfg q w = ((r, Some err), w1) →
  cache w !! hash cfg q = None
  ∧ r = None ∧ heap w1 = heap w ∧ cache w1 = cache w
  ∧ queried w1 = queried w ++ [q].
Proof.
  unfold eventsFor. intros He.
  destruct (cache w !! hash cfg q) as [c|] eqn:Hc.
  { by rewrite (ensure_hit _ _ _ _ _ _ Hc) in He. }
  destruct (fetchEvents_spec j q w) as ([r' [e'|]] & h & Hf & Hstore).
  - rewrite (ensure_miss_failed _ _ _ _ _ _ _ _ Hc Hf) in He.
    simplify_eq. split_and!; try done.
    all: destruct (store j (queried w) q) as [?|items];
      [by destruct Hstore; simplify_eq|].
    all: destruct (streams.Drain items) as [? [?|]];
      by destruct Hstore; simplify_eq.
  - by rewrite (ensure_miss_fetched _ _ _ _ _ _ _ Hc Hf) in He.
Qed.

Lemma eventsFor_miss j p cfg q w :
  cache w !! hash cfg q = None →
  queried (eventsFor hash j p cfg q w).2 = queried w ++ [q].
Proof.
  intros Hc. unfold eventsFor.
  destruct (fetchEvents_spec j q w) as ([r' [e'|]] & h & Hf & _).
  - by rewrite (ensure_miss_failed _ _ _ _ _ _ _ _ Hc Hf).
  - by rewrite (ensure_miss_fetched _ _ _ _ _ _ _ Hc Hf).
Qed.

(** C7: when [fetch] fails, [ensure] hands its result back and stores
    nothing: the world is the one [fetch] left.  For the fetch function
    of a job this means that the cache is as it was before the call, and
    that the next call with the same key asks the store again. *)
Theorem failed_fetch_not_cached cfg q proj fetch w events err w1 :
  cache w !! hash cfg q = None →
  fetch w = ((events, Some err), w1) →
  ensure hash cfg q proj fetch w = ((events, Some err), w1)
  ∧ ∀ j, fetch = fetchEvents j q →
      cache w1 = cache w
      ∧ cache w1 !! hash cfg q = None
      ∧ queried w1 = queried w ++ [q]
      ∧ queried (eventsFor hash j proj cfg q w1).2 = queried w1 ++ [q].
Proof.
  intros Hmiss Hf. split; [by apply ensure_miss_failed|].
  intros j ->.
  assert (eventsFor hash j proj cfg q w = ((events, Some err), w1)) as He
    by by apply ensure_miss_failed.
  apply eventsFor_failed in He as (_ & _ & _ & Hc & Hq).
  split_and!; try done.
  - by rewrite Hc.
  - apply eventsFor_miss. by rewrite Hc.
Qed.

Lemma buildQuery_latest j t :
  query.After t
  ∈ query.Times (buildQuery j (Some {| LatestEventTime := Some t |})
                   {| fromBase := false |}).
Proof.
  unfold buildQuery, query.Merge, query.New. simpl.
  destruct (subscriptionFilter j), (query_ j); simpl; set_solver.
Qed.


Lemma assign_spec s i evt w w' :
  assign s i evt w = Some w' →
  ∃ a arr, s = Some a ∧ heap w !! a = Some arr ∧ (i < length arr)%nat
           ∧ heap w' = <[a := <[i := evt]> arr]> (heap w)
           ∧ cache w' = cache w ∧ queried w' = queried w.
Proof.
  unfold assign. destruct s as [a|]; [|done].
  destruct (heap w !! a) as [arr|] eqn:Ha; [|done].
  case_decide; [|done]. intros [= <-]. by eauto 10.
Qed.


(** After a call of [eventsFor] that returned without error the cache
    holds the key, and the caller got a fresh copy of the cached slice,
    the last array of the heap. *)
Lemma eventsFor_returned j p cfg q w0 r1 w1 :
  allocated w0 →
  eventsFor hash j p cfg q w0 = ((r1, None), w1) →
  ∃ c h, cache w1 !! hash cfg q = Some c
         ∧ heap w1 = h ++ [load w1 c]
         ∧ r1 = Some (length h)
         ∧ (∀ a, c = Some a → (a < length h)%nat)
         ∧ allocated w1
         ∧ (length (queried w1) ≤ S (length (queried w0)))%nat
         ∧ heap w0 `prefix_of` h.
Proof.
  intros Hw He. unfold eventsFor in He.
  destruct (cache w0 !! hash cfg q) as [c|] eqn:Hc.
  - rewrite (ensure_hit _ _ _ _ _ _ Hc) in He. simplify_eq.
    assert (∀ a, c = Some a → (a < length (heap w0))%nat) as Hca
      by (intros a ->; by eapply Hw).
    exists c, (heap w0). simpl. split_and!; try done.
    + f_equal. f_equal. destruct c as [a|]; [|done]. simpl.
      by rewrite lookup_app_l by auto.
    + intros k a Hk. simpl in *. rewrite length_app. simpl.
      specialize (Hw k a Hk). lia.
    + lia.
  - destruct (fetchEvents_spec j q w0) as ([r' [e'|]] & h & Hf & Hstore).
    { by rewrite (ensure_miss_failed _ _ _ _ _ _ _ _ Hc Hf) in He. }
    rewrite (ensure_miss_fetched _ _ _ _ _ _ _ Hc Hf) in He.
    assert (r' = Some (length (heap w0))
            ∧ ∃ evs, h = heap w0 ++ [evs]) as [-> [evs ->]].
    { destruct (store j (queried w0) q) as [?|items];
        [by destruct Hstore|].
      destruct (streams.Drain items) as [evs [?|]];
        destruct Hstore; simplify_eq. eauto. }
    simplify_eq. simpl.
    exists (Some (length (heap w0))), (heap w0 ++ [evs]). simpl.
    split_and!.
    + by rewrite lookup_insert_eq.
    + f_equal. f_equal.
      by rewrite (lookup_app_l (heap w0 ++ [evs]))
        by (rewrite length_app; simpl; lia).
    + done.
    + intros a [= <-]. rewrite length_app. simpl. lia.
    + intros k a. simpl. rewrite !length_app. simpl.
      destruct (decide (hash cfg q = k)) as [<-|Hne].
      * rewrite lookup_insert_eq. intros [= <-]. lia.
      * rewrite lookup_insert_ne by done. intros Hk.
        specialize (Hw k a Hk). lia.
    + rewrite length_app. simpl. lia.
    + by apply prefix_app_r.
Qed.

(** C10: a continuous job with a slice hands out that very slice on
    [Events] and on [EventsFor] without [fromBase], whatever the
    projection: nothing is copied, the store is not asked, the world is
    as before.  So what a caller assigns to an element of the slice is
    what the next call returns. *)
Theorem continuous_events_shared j a p opts w :
  events j = Some a →
  fromBase (configureApply opts) = false →
  continuousJob_Events hash j w = ((Some a, None), w)
  ∧ continuousJob_EventsFor hash j p opts w = ((Some a, None), w)
  ∧ (∀ i evt w', assign (Some a) i evt w = Some w' →
       continuousJob_Events hash j w' = ((Some a, None), w')
       ∧ load w' (Some a) = <[i := evt]> (load w (Some a))
       ∧ load w' (Some a) !! i = Some evt
       ∧ queried w' = queried w)
  ∧ (∀ opts' r w2 i evt w3,
       allocated w → (a < length (heap w))%nat →
       fromBase (configureApply opts') = true →
       continuousJob_EventsFor hash j p opts' w = ((r, None), w2) →
       assign r i evt w2 = Some w3 →
       r ≠ Some a ∧ load w3 (Some a) = load w (Some a)).
Proof.
  intros Hev Hb.
  assert (∀ w0, continuousJob_Events hash j w0 = ((Some a, None), w0)) as Hall.
  { intros w0. unfold continuousJob_Events, continuousJob_EventsFor.
    simpl. by rewrite Hev. }
  split_and!; [done| | |].
  - unfold continuousJob_EventsFor. rewrite Hb, Hev. done.
  - intros i evt w' (a' & arr & [= <-] & Ha & Hi & Hh & _ & Hq)%assign_spec.
    split_and!; try done.
    + simpl. rewrite Hh, Ha. simpl.
      by rewrite list_lookup_insert_eq by by eapply lookup_lt_Some.
    + simpl. rewrite Hh. simpl.
      rewrite list_lookup_insert_eq by by eapply lookup_lt_Some.
      simpl. by rewrite list_lookup_insert_eq.
  - intros opts' r w2 i evt w3 Hw Ha Hb' Hcall Hassign.
    unfold continuousJob_EventsFor in Hcall. rewrite Hb' in Hcall.
    simpl in Hcall. unfold baseJob_EventsFor in Hcall.
    destruct (eventsFor_returned _ _ _ _ _ _ _ Hw Hcall)
      as (c & h & _ & Hh & -> & _ & _ & _ & Hpre).
    pose proof (prefix_length _ _ Hpre) as Hlen.
    split; [intros [= ?]; lia|].
    apply assign_spec in Hassign
      as (a' & arr & [= <-] & _ & _ & Hh3 & _ & _).
    simpl. rewrite Hh3, list_lookup_insert_ne by lia.
    rewrite Hh. destruct Hpre as [k ->].
    rewrite <- app_assoc. by rewrite !lookup_app_l by done.
Qed.


End hashed.

Import sampleJobs.



Lemma failed_fetch_not_cached_witness :
  baseJob_EventsFor hash flakyJob None [] newWorld
  = ((None, Some (QueryEvents "connection reset")),
     {| heap := []; cache := ∅;
        queried := [buildQuery flakyJob None (configureApply [])] |}).
Proof.
  refine (proj1 (failed_fetch_not_cached hash (configureApply [])
                   (buildQuery flakyJob None (configureApply [])) None
                   (fetchEvents flakyJob
                      (buildQuery flakyJob None (configureApply [])))
                   newWorld None (QueryEvents "connection reset")
                   {| heap := []; cache := ∅;
                      queried := [buildQuery flakyJob None (configureApply [])] |}
                   _ _)).
  - reflexivity.
  - reflexivity.
Defined.


Lemma continuous_events_shared_witness :
  continuousJob_Events hash continuous
    {| heap := [[renamed]]; cache := newCache; queried := [] |}
  = ((Some 0%nat, None),
     {| heap := [[renamed]]; cache := newCache; queried := [] |})
  ∧ load {| heap := [[renamed]]; cache := newCache; queried := [] |}
      (Some 0%nat) !! 0%nat = Some renamed.
Proof.
  destruct (continuous_events_shared hash continuous 0%nat None [] subscribed
              eq_refl eq_refl) as (_ & _ & H & _).
  destruct (H 0%nat renamed
              {| heap := [[renamed]]; cache := newCache; queried := [] |}
              eq_refl) as (H1 & _ & H2 & _).
  split; [exact H1|exact H2].
Defined.

End jobs.

(** * Facts about the fan-in *)

Module faninFacts.
Import fanin.

Section FanIn.
Context {T : Type}.
Implicit Types (st : state T) (w : worker T) (ws : list (worker T))
  (ins : list (list T * bool)).

Lemma Forall_insert_worker (P : worker T → Prop) ws i w :
  Forall P ws → P w → Forall P (<[i := w]> ws).
Proof. intros. by apply Forall_insert. Qed.

Lemma orderly_init ins : orderly (FanIn ins).
Proof.
  split; [done|]. simpl. apply Forall_fmap, Forall_forall. by intros.
Qed.

Lemma closed_exited st i w :
  orderly st → outClosed st = true → workers st !! i = Some w →
  at_ w = Exited.
Proof.
  intros [Hc _] Ho Hi. specialize (Hc Ho).
  by eapply (Forall_lookup_1 _ _ _ _ Hc).
Qed.

Lemma orderly_step l st st' :
  orderly st → step l st = Some st' → orderly st'.
Proof.
  intros Hinv Hstep.
  destruct l; simpl in Hstep.
  1-4: destruct (workers st !! i) as [w|] eqn:Hi; simpl in Hstep; [|done].
  - (* Receive *)
    destruct (at_ w) eqn:Hat, (pending w) eqn:Hp; simplify_eq.
    destruct Hinv as [Hc He]. split; simpl.
    + intros Ho. pose proof (closed_exited _ _ _ (conj Hc He) Ho Hi). congruence.
    + by apply Forall_insert.
  - (* SeeClosed *)
    destruct (at_ w) eqn:Hat, (pending w) eqn:Hp, (closes w) eqn:Hcl;
      simplify_eq.
    destruct Hinv as [Hc He]. split; simpl.
    + intros Ho. apply Forall_insert; auto.
    + apply Forall_insert; [done|]. intros _. by right.
  - (* SeeStopped *)
    destruct (stopped st) eqn:Hs;
      [|by destruct (at_ w)].
    assert (st' = setWorker st i
                    {| pending := pending w; closes := closes w;
                       at_ := Exited |}) as ->
      by (destruct (at_ w); by simplify_eq).
    destruct Hinv as [Hc He]. split; simpl.
    + intros Ho. apply Forall_insert; auto.
    + rewrite Hs. apply Forall_insert.
      * eapply Forall_impl; [done|]. simpl. by intros; left.
      * by left.
  - (* Deliver *)
    destruct (at_ w) eqn:Hat; simplify_eq.
    destruct Hinv as [Hc He]. split; simpl.
    + intros Ho. pose proof (closed_exited _ _ _ (conj Hc He) Ho Hi). congruence.
    + by apply Forall_insert.
  - (* Stop *)
    simplify_eq. destruct Hinv as [Hc He]. split; simpl; [done|].
    eapply Forall_impl; [done|]. by intros; left.
  - (* Close *)
    destruct (forallb exited (workers st) && negb (outClosed st)) eqn:Hg;
      simplify_eq.
    apply andb_prop in Hg as [Hall _].
    destruct Hinv as [Hc He]. split; simpl; [|done].
    intros _. apply Forall_forall. intros w Hw.
    rewrite forallb_forall in Hall.
    specialize (Hall w ltac:(by apply list_elem_of_In)).
    unfold exited in Hall. by destruct (at_ w).
Qed.

Lemma reachable_orderly ins st : reachable ins st → orderly st.
Proof.
  revert st. apply rtc_ind_r; [apply orderly_init|].
  intros st st' _ [l Hstep] IH. by eapply orderly_step.
Qed.

Lemma steps_orderly st st' : orderly st → rtc steps st st' → orderly st'.
Proof.
  intros Hinv Hr. induction Hr as [|st st1 st2 [l Hstep] _ IH]; [done|].
  apply IH. by eapply orderly_step.
Qed.







Lemma fanin_exec_reaches fuel st : rtc steps st (exec fuel st).
Proof.
  revert st. induction fuel as [|fuel IH]; intros st; simpl; [done|].
  destruct (next st) as [l|]; [|done].
  destruct (step l st) as [st'|] eqn:Hstep; [|done].
  eapply rtc_l; [by exists l|]. apply IH.
Qed.





End FanIn.


End faninFacts.

Module faninOrder.
Import fanin faninViews.

Section FanIn.
Context {T : Type}.
Implicit Types (st : state T) (w : worker T) (ws : list (worker T))
  (ins : list (list T * bool)) (ds : list (list T)).

Lemma accounted_init ins : accounted ins (FanIn ins) (replicate (length ins) []).
Proof.
  split_and!.
  - by rewrite length_replicate.
  - simpl. by rewrite length_fmap.
  - intros i w d inp Hw Hd Hin. simpl in Hw.
    rewrite list_lookup_fmap, Hin in Hw. simplify_eq/=.
    apply lookup_replicate in Hd as [-> _]. split; [done|]. by right.
Qed.

(** A step that changes goroutine [i] alone, and neither [stopped]
    nor what was delivered. *)
Lemma accounted_worker ins st ds i w w' :
  accounted ins st ds →
  workers st !! i = Some w →
  closes w' = closes w →
  (∀ d inp, ds !! i = Some d → ins !! i = Some inp →
     (at_ w = Exited ∧ stopped st = true ∧ d `prefix_of` inp.1)
     ∨ d ++ held w ++ pending w = inp.1 →
     (at_ w' = Exited ∧ stopped st = true ∧ d `prefix_of` inp.1)
     ∨ d ++ held w' ++ pending w' = inp.1) →
  accounted ins (setWorker st i w') ds.
Proof.
  intros (Hl1 & Hl2 & Hall) Hi Hcl Hw'. split_and!; [done| |].
  - simpl. by rewrite length_insert.
  - intros k wk d inp Hk Hd Hin. simpl in Hk.
    destruct (decide (k = i)) as [->|Hne].
    + rewrite list_lookup_insert_eq in Hk by by eapply lookup_lt_Some.
      simplify_eq. destruct (Hall _ _ _ _ Hi Hd Hin) as [Hc Hor].
      split; [congruence|]. by eapply Hw'.
    + rewrite list_lookup_insert_ne in Hk by done.
      by eapply Hall.
Qed.

Lemma accounted_step ins l st st' ds :
  accounted ins st ds → step l st = Some st' →
  ∃ ds', accounted ins st' ds'
         ∧ (merges ds (delivered st) → merges ds' (delivered st')).
Proof.
  intros Hacc Hstep.
  destruct l; simpl in Hstep.
  1-4: destruct (workers st !! i) as [w|] eqn:Hi; simpl in Hstep; [|done].
  - (* Receive *)
    destruct (at_ w) eqn:Hat, (pending w) eqn:Hp; simplify_eq.
    exists ds. split; [|done].
    eapply accounted_worker; [done..|].
    intros d inp _ _ [(? & _)|Heq]; [congruence|]. right.
    unfold held in *. rewrite Hat, Hp in Heq. simpl in *. done.
  - (* SeeClosed *)
    destruct (at_ w) eqn:Hat, (pending w) eqn:Hp, (closes w) eqn:Hcl;
      simplify_eq.
    exists ds. split; [|done].
    eapply accounted_worker; [done..|].
    intros d inp _ _ [(? & _)|Heq]; [congruence|]. right.
    unfold held in *. rewrite Hat, Hp in Heq. simpl in *. done.
  - (* SeeStopped *)
    destruct (stopped st) eqn:Hs; [|by destruct (at_ w)].
    assert (st' = setWorker st i
                    {| pending := pending w; closes := closes w;
                       at_ := Exited |}) as ->
      by (destruct (at_ w); by simplify_eq).
    exists ds. split; [|done].
    eapply accounted_worker; [done..|].
    intros d inp _ _ [(? & ? & ?)|Heq]; [by left|]. left.
    split_and!; [done..|]. rewrite <- Heq. by apply prefix_app_r.
  - (* Deliver *)
    destruct (at_ w) eqn:Hat; simplify_eq.
    destruct Hacc as (Hl1 & Hl2 & Hall).
    assert (is_Some (ds !! i)) as [d Hd].
    { apply lookup_lt_is_Some. rewrite Hl1, <- Hl2.
      by eapply lookup_lt_Some. }
    exists (<[i := d ++ [v]]> ds). split.
    + split_and!.
      * by rewrite length_insert.
      * simpl. by rewrite length_insert.
      * intros k wk dk inp Hk Hdk Hin. simpl in *.
        destruct (decide (k = i)) as [->|Hne].
        -- rewrite list_lookup_insert_eq in Hk by by eapply lookup_lt_Some.
           rewrite list_lookup_insert_eq in Hdk by by eapply lookup_lt_Some.
           simplify_eq. destruct (Hall _ _ _ _ Hi Hd Hin) as [Hc Hor].
           split; [done|]. right.
           destruct Hor as [(? & _)|Heq]; [congruence|].
           unfold held in *. rewrite Hat in Heq. simpl in *.
           by rewrite <- app_assoc.
        -- rewrite list_lookup_insert_ne in Hk by done.
           rewrite list_lookup_insert_ne in Hdk by done.
           by eapply Hall.
    + simpl. intros Hm. by apply merges_snoc.
  - (* Stop *)
    simplify_eq. exists ds. split; [|done].
    destruct Hacc as (Hl1 & Hl2 & Hall). split_and!; [done..|].
    intros k wk dk inp Hk Hdk Hin. simpl in *.
    destruct (Hall _ _ _ _ Hk Hdk Hin) as [Hc Hor]. split; [done|].
    destruct Hor as [(? & _ & ?)|Heq]; [by left|by right].
  - (* Close *)
    destruct (forallb exited (workers st) && negb (outClosed st)) eqn:Hg;
      simplify_eq.
    exists ds. split; [|done]. done.
Qed.

Lemma reachable_accounted ins st :
  reachable ins st →
  ∃ ds, accounted ins st ds ∧ merges ds (delivered st).
Proof.
  revert st. apply rtc_ind_r.
  - exists (replicate (length ins) []). split; [apply accounted_init|].
    apply merges_nil.
  - intros st st' _ [l Hstep] (ds & Hacc & Hm).
    destruct (accounted_step _ _ _ _ _ Hacc Hstep) as (ds' & Hacc' & Hm').
    eauto.
Qed.

(** X5: What comes out of [FanIn] is an interleaving of what went in: the
    consumer receives, in the order of each input, a prefix of that
    input, nothing else and nothing twice; and when [out] is closed
    without [stop] having been called, it has received every value of
    every input. *)
Theorem fanin_interleaves ins st :
  reachable ins st →
  ∃ ds, merges ds (delivered st)
        ∧ length ds = length ins
        ∧ (∀ i d inp, ds !! i = Some d → ins !! i = Some inp →
                      d `prefix_of` inp.1)
        ∧ (outClosed st = true → stopped st = false → ds = fst <$> ins).
Proof.
  intros Hr. destruct (reachable_accounted _ _ Hr) as (ds & Hacc & Hm).
  exists ds. destruct Hacc as (Hl1 & Hl2 & Hall). split_and!; [done..| |].
  - intros i d inp Hd Hin.
    assert (is_Some (workers st !! i)) as [w Hw].
    { apply lookup_lt_is_Some. rewrite Hl2. by eapply lookup_lt_Some. }
    destruct (Hall _ _ _ _ Hw Hd Hin) as [_ [(_ & _ & ?)|Heq]]; [done|].
    rewrite <- Heq. by apply prefix_app_r.
  - intros Ho Hs. apply list_eq. intros i.
    rewrite list_lookup_fmap.
    destruct (ins !! i) as [inp|] eqn:Hin; simpl.
    + assert (is_Some (workers st !! i)) as [w Hw].
      { apply lookup_lt_is_Some. rewrite Hl2. by eapply lookup_lt_Some. }
      assert (is_Some (ds !! i)) as [d Hd].
      { apply lookup_lt_is_Some. rewrite Hl1. by eapply lookup_lt_Some. }
      rewrite Hd. f_equal.
      destruct (Hall _ _ _ _ Hw Hd Hin) as [_ [(_ & ? & _)|Heq]];
        [congruence|].
      pose proof (faninFacts.reachable_orderly _ _ Hr) as Hord.
      pose proof (faninFacts.closed_exited _ _ _ Hord Ho Hw) as Hat.
      destruct Hord as [_ He].
      pose proof (Forall_lookup_1 _ _ _ _ He Hw Hat) as [?|[Hp _]];
        [congruence|].
      unfold held in Heq. rewrite Hat, Hp in Heq.
      by rewrite !app_nil_r in Heq.
    + apply lookup_ge_None. rewrite Hl1. by apply lookup_ge_None.
Qed.

End FanIn.

Lemma fanin_interleaves_witness :
  ∃ ds, merges ds (delivered (exec 20 (FanIn [([1; 2], true); ([3], true)])))
        ∧ ds = [[1; 2]; [3]].
Proof.
  destruct (fanin_interleaves [([1; 2], true); ([3], true)]
              (exec 20 (FanIn [([1; 2], true); ([3], true)])))
    as (ds & Hm & _ & _ & Hall).
  - apply faninFacts.fanin_exec_reaches.
  - exists ds. split; [done|]. apply Hall; vm_compute; reflexivity.
Defined.

End faninOrder.

(** * Facts about draining and in-memory streams *)

Module drainFacts.
Import event streams eventstream.

Lemma drainFrom_undisturbed out items :
  undisturbed items → drainFrom out items = (out ++ received items, None).
Proof.
  revert out. induction items as [|i items IH]; intros out Hu; simpl.
  - by rewrite app_nil_r.
  - apply Forall_cons in Hu as [Hi Hu]. destruct i; try done.
    + rewrite IH by done. simpl. by rewrite <- app_assoc.
    + by rewrite IH.
Qed.

Lemma drainFrom_app out pre rest :
  undisturbed pre →
  drainFrom out (pre ++ rest) = drainFrom (out ++ received pre) rest.
Proof.
  revert out. induction pre as [|i pre IH]; intros out Hu; simpl.
  - by rewrite app_nil_r.
  - apply Forall_cons in Hu as [Hi Hu]. destruct i; try done.
    + rewrite IH by done. simpl. by rewrite <- app_assoc.
    + by rewrite IH.
Qed.

Lemma undisturbed_Slice events : undisturbed (Slice events).
Proof. apply Forall_fmap, Forall_forall. by intros. Qed.

Lemma received_Slice events : received (Slice events) = events.
Proof.
  induction events as [|e events IH]; [done|].
  change (received (Slice (e :: events)))
    with (e :: received (Slice events)).
  by rewrite IH.
Qed.

Lemma Drain_undisturbed items :
  undisturbed items → Drain items = (received items, None).
Proof. intros Hu. unfold Drain. by rewrite drainFrom_undisturbed. Qed.

Lemma Drain_failed pre cause post :
  undisturbed pre →
  Drain (pre ++ Failed cause :: post) = (received pre, Some cause).
Proof. intros Hu. unfold Drain. by rewrite drainFrom_app. Qed.

(** X6: Draining a channel made by [Slice] gives back the events, in order
    and without an error; the error channel may be seen closed at any
    moment in between. *)
Theorem drain_slice events items :
  undisturbed items → received items = events →
  Drain items = (events, None) ∧ Drain (Slice events) = (events, None).
Proof.
  intros Hu Hr. unfold Drain. split.
  - by rewrite drainFrom_undisturbed, Hr.
  - rewrite drainFrom_undisturbed by apply undisturbed_Slice.
    by rewrite received_Slice.
Qed.

Lemma drain_slice_witness :
  Drain (ErrorsClosed :: Slice [sampleJobs.created; sampleJobs.renamed])
  = ([sampleJobs.created; sampleJobs.renamed], None).
Proof.
  apply (drain_slice [sampleJobs.created; sampleJobs.renamed]
           (ErrorsClosed :: Slice [sampleJobs.created; sampleJobs.renamed])).
  - vm_compute. repeat constructor.
  - reflexivity.
Defined.

(** X7: [Drain] stops at the first error of the error channels and at the
    cancellation of the context: it returns the events it has drained
    until then together with the error, and does not look at what
    follows. *)
Theorem drain_stops pre cause post :
  undisturbed pre →
  Drain (pre ++ Failed cause :: post) = (received pre, Some cause)
  ∧ (∃ err, Drain (pre ++ Cancelled :: post) = (received pre, Some err))
  ∧ ∀ items, (Drain items).1 `prefix_of` received items.
Proof.
  intros Hu. unfold Drain. split_and!.
  - by rewrite drainFrom_app.
  - eexists. by rewrite drainFrom_app.
  - intros items.
    assert (∀ out, (drainFrom out items).1 `prefix_of` out ++ received items)
      as Hall; [|apply (Hall [])].
    induction items as [|i items IH]; intros out; simpl.
    + by apply prefix_app_r.
    + destruct i; simpl.
      * etrans; [apply IH|]. by rewrite <- app_assoc.
      * by apply prefix_app_r.
      * apply IH.
      * by apply prefix_app_r.
Qed.

Lemma drain_stops_witness :
  Drain ([Received sampleJobs.created] ++ Failed "timeout"
           :: [Received sampleJobs.renamed])
  = ([sampleJobs.created], Some "timeout").
Proof.
  apply (drain_stops [Received sampleJobs.created] "timeout"
           [Received sampleJobs.renamed]).
  vm_compute. repeat constructor.
Defined.

End drainFacts.

Module memstreamFacts.
Import memstream.

Lemma collect_open fuel (c : stream) acc :
  closed c = false →
  (length (events c) - pos c < fuel)%nat →
  ∃ c', collect fuel c acc
        = Some (acc ++ (Some <$> drop (pos c) (events c)), c')
        ∧ events c' = events c
        ∧ pos c' = Nat.max (pos c) (length (events c))
        ∧ err c' = None
        ∧ closed c' = false.
Proof.
  revert c acc. induction fuel as [|fuel IH]; intros c acc Hc Hf; [lia|].
  simpl. unfold stream_Next. rewrite Hc.
  case_bool_decide as Hp.
  - exists {| events := events c; event_ := event_ c; pos := pos c;
              err := None; closed := false |}.
    split_and!; try done; simpl.
    + by rewrite drop_ge, app_nil_r by done.
    + lia.
  - assert (is_Some (events c !! pos c)) as [e He]
      by (apply lookup_lt_is_Some; lia).
    edestruct (IH {| events := events c; event_ := events c !! pos c;
                     pos := S (pos c); err := None; closed := false |}
                 (acc ++ [events c !! pos c]))
      as (c' & Hcol & He' & Hp' & Herr & Hcl); [done|simpl; lia|].
    exists c'. simpl in *. rewrite Hcol. split_and!; try done; [|lia].
    do 2 f_equal. rewrite <- app_assoc. f_equal.
    rewrite (drop_S _ e _ He). simpl. by rewrite He.
Qed.

(** X8: [All] on an open in-memory stream returns the events from the
    cursor on, in order, without an error, and leaves the stream closed:
    a fresh stream gives back the events it was made of.  The loop ends
    after one call of [Next] more than there are events left. *)
Theorem all_events fuel (c : stream) :
  closed c = false →
  (length (events c) - pos c < fuel)%nat →
  ∃ c', All fuel c = Some (Some <$> drop (pos c) (events c), None, c')
        ∧ closed c' = true
        ∧ events c' = events c
        ∧ pos c' = Nat.max (pos c) (length (events c)).
Proof.
  intros Hc Hf.
  destruct (collect_open fuel c [] Hc Hf) as (c' & Hcol & He & Hp & Herr & _).
  unfold All. rewrite Hcol. simpl. rewrite Herr.
  eexists. split; [done|]. simpl. by rewrite He, Hp.
Qed.

Lemma all_events_witness :
  ∃ c', All 3 (New [sampleJobs.created; sampleJobs.renamed])
        = Some ([Some sampleJobs.created; Some sampleJobs.renamed], None, c')
        ∧ closed c' = true.
Proof.
  destruct (all_events 3 (New [sampleJobs.created; sampleJobs.renamed]))
    as (c' & H & Hcl & _).
  - reflexivity.
  - simpl. lia.
  - exists c'. split; [exact H|exact Hcl].
Defined.

(** X9: A closed in-memory stream gives nothing: [Next] fails with
    [ErrClosed] without moving the cursor, [All] returns no event and
    [ErrClosed], and closing it again changes nothing.  In particular a
    second [All] on a stream gets [ErrClosed]. *)
Theorem closed_stream (c : stream) fuel :
  closed c = true →
  (Next c).1 = false
  ∧ Err (Next c).2 = Some ErrClosed
  ∧ pos (Next c).2 = pos c
  ∧ Event (Next c).2 = Event c
  ∧ Close c = (None, c)
  ∧ (∃ c', All (S fuel) c = Some ([], Some ErrClosed, c')
           ∧ closed c' = true).
Proof.
  intros Hc. unfold All. simpl. unfold stream_Next, stream_Close.
  rewrite Hc. simpl. split_and!; try done.
  - destruct c; simpl in *. by subst.
  - eexists. split; [done|]. done.
Qed.

Lemma closed_stream_witness :
  ∃ c', All 1 (Close (New [sampleJobs.created])).2
        = Some ([], Some ErrClosed, c').
Proof.
  destruct (closed_stream (Close (New [sampleJobs.created])).2 0)
    as (_ & _ & _ & _ & _ & c' & H & _).
  - reflexivity.
  - exists c'. exact H.
Defined.

End memstreamFacts.

(** * Facts about projections and what jobs tell about their events *)

Module projectionFacts.
Import event projection.

Section Base.
Context {S : Type}.
Implicit Types (a : Base S) (h : handler S) (regs : list (string * handler S)).

Lemma registerAll_snoc a regs r :
  registerAll a (regs ++ [r])
  = RegisterEventHandler (registerAll a regs) r.1 r.2.
Proof. unfold registerAll. by rewrite foldl_app. Qed.

(** X10: However many handlers are registered one after the other on a new
    [Base], an event is handled by the handler registered last under
    its name, and by that one alone; an event whose name no handler
    was registered for leaves the projection as it is. *)
Theorem last_registration_wins regs (evt : Event) (st : S) :
  ApplyEvent (registerAll New regs) evt st
  = match last (base.filter (λ r, r.1 = Name evt) regs) with
    | Some r => r.2 evt st
    | None => st
    end.
Proof.
  induction regs as [|r regs IH] using rev_ind; [done|].
  rewrite registerAll_snoc, filter_app.
  unfold ApplyEvent, RegisterEventHandler in *. simpl.
  destruct (decide (r.1 = Name evt)) as [Heq|Hne].
  - rewrite filter_cons_True by done. rewrite filter_nil, last_snoc.
    by rewrite Heq, lookup_insert_eq.
  - rewrite filter_cons_False by done. rewrite filter_nil, app_nil_r.
    by rewrite lookup_insert_ne.
Qed.

End Base.

End projectionFacts.

Module jobqueryFacts.
Import event project jobqueries.

Lemma nameAmong_spec n names : nameAmong n names = true ↔ n ∈ names.
Proof.
  induction names as [|name names IH]; simpl.
  - split; [done|]. by intros ?%elem_of_nil.
  - case_decide; [set_solver|]. rewrite IH. set_solver.
Qed.

Lemma filterByName_spec names events :
  filterByName names events = base.filter (λ e, Name e ∈ names) events.
Proof.
  unfold filterByName.
  assert (∀ acc,
            foldl (λ filtered evt,
                     if nameAmong (Name evt) names
                     then filtered ++ [evt] else filtered) acc events
            = acc ++ base.filter (λ e, Name e ∈ names) events) as Hall;
    [|apply (Hall [])].
  induction events as [|e events IH]; intros acc; simpl.
  - by rewrite app_nil_r.
  - rewrite IH. destruct (nameAmong (Name e) names) eqn:Hn.
    + apply nameAmong_spec in Hn. rewrite filter_cons_True by done.
      by rewrite <- app_assoc.
    + rewrite filter_cons_False; [done|].
      rewrite <- nameAmong_spec. by rewrite Hn.
Qed.

(** The ids of the events of aggregate name [name], in event order. *)
Lemma collectIDs_lookup events name :
  collectIDs events !! name
  = if decide (name = "") then None
    else match AggregateID <$> base.filter (λ e, AggregateName e = name) events with
         | [] => None
         | ids => Some ids
         end.
Proof.
  unfold collectIDs.
  set (f := λ (out : gmap string (list UUID)) evt,
              if decide (AggregateName evt = "") then out
              else <[AggregateName evt :=
                       default [] (out !! AggregateName evt)
                       ++ [AggregateID evt]]> out).
  assert (∀ m,
            foldl f m events !! name
            = if decide (name = "") then m !! name
              else match AggregateID
                           <$> base.filter (λ e, AggregateName e = name) events with
                   | [] => m !! name
                   | ids => Some (default [] (m !! name) ++ ids)
                   end) as Hall.
  { induction events as [|e events IH]; intros m; simpl.
    - by case_decide.
    - rewrite IH.
      destruct (decide (name = "")) as [->|Hname].
      + unfold f. case_decide; [done|]. by rewrite lookup_insert_ne.
      + destruct (decide (AggregateName e = name)) as [He|He].
        * rewrite filter_cons_True by done. rewrite fmap_cons. subst name.
          assert (f m e !! AggregateName e
                  = Some (default [] (m !! AggregateName e)
                          ++ [AggregateID e])) as ->.
          { unfold f. rewrite decide_False by done.
            by rewrite lookup_insert_eq. }
          simpl.
          destruct (AggregateID <$> base.filter _ events); simpl; [done|].
          by rewrite <- app_assoc.
        * rewrite filter_cons_False by done.
          assert (f m e !! name = m !! name) as ->; [|done].
          unfold f. case_decide; [done|]. by rewrite lookup_insert_ne. }
  rewrite Hall. rewrite lookup_empty. case_decide; [done|].
  by destruct (AggregateID <$> base.filter _ events).
Qed.

Lemma filter_none {A} (P : A → Prop) `{∀ x, Decision (P x)} (l : list A) :
  Forall (λ x, ¬ P x) l → base.filter P l = [].
Proof.
  induction 1 as [|x l Hx Hl IH]; [done|].
  by rewrite filter_cons_False.
Qed.

Lemma AggregatesOf_concat (m : gmap string (list UUID)) names :
  foldl (λ out name, out ++ default [] (m !! name)) [] names
  = concat ((λ n, default [] (m !! n)) <$> names).
Proof.
  assert (∀ acc,
            foldl (λ out name, out ++ default [] (m !! name)) acc names
            = acc ++ concat ((λ n, default [] (m !! n)) <$> names)) as Hall;
    [|apply (Hall [])].
  induction names as [|n names IH]; intros acc; simpl.
  - by rewrite app_nil_r.
  - by rewrite IH, <- app_assoc.
Qed.

Section jobs.
Context (unique : list UUID → list UUID).
Context (hash : applyConfig → query.Query → N).

Lemma continuous_Events j a w :
  events j = Some a →
  continuousJob_Events hash j w = ((Some a, None), w).
Proof.
  intros Hev. unfold continuousJob_Events, continuousJob_EventsFor.
  simpl. by rewrite Hev.
Qed.

(** X11: [EventsOf] of a continuous job that carries a slice returns a new
    slice with exactly the events of the job whose name is among
    [names], in their order and each once however often a name is
    repeated; without a match the result is empty but not nil.  The
    store is not asked and the slice of the job is left as it is. *)
Theorem continuous_events_of j a names w :
  events j = Some a →
  (a < length (heap w))%nat →
  ∃ w',
    continuousJob_EventsOf hash j names w
    = ((Some (length (heap w)), None), w')
    ∧ load w' (Some (length (heap w)))
      = base.filter (λ e, Name e ∈ names) (load w (Some a))
    ∧ Some (length (heap w)) ≠ Some a
    ∧ load w' (Some a) = load w (Some a)
    ∧ cache w' = cache w
    ∧ queried w' = queried w.
Proof.
  intros Hev Ha. unfold continuousJob_EventsOf, EventsOf.
  rewrite (continuous_Events _ _ _ Hev).
  eexists. split; [done|]. split_and!; try done.
  - rewrite <- filterByName_spec.
    apply (jobs.load_alloc_new w).
  - intros [= ?]. lia.
  - apply (jobs.load_alloc_old w). intros ? [= <-]. done.
Qed.

Lemma continuous_Aggregates_lookup j a w :
  events j = Some a →
  ∃ m,
    continuousJob_Aggregates unique hash j w = ((m, None), w)
    ∧ ∀ name,
        m !! name
        = if decide (name = "") then None
          else match AggregateID
                       <$> base.filter (λ e, AggregateName e = name)
                             (load w (Some a)) with
               | [] => None
               | ids => Some (unique ids)
               end.
Proof.
  intros Hev. unfold continuousJob_Aggregates, Aggregates.
  rewrite (continuous_Events _ _ _ Hev).
  eexists. split; [done|]. intros name.
  rewrite lookup_fmap, collectIDs_lookup.
  case_decide; [done|].
  by destruct (AggregateID <$> base.filter _ _).
Qed.

(** X12: [Aggregates] of a continuous job that carries a slice: the map has
    an entry for exactly the non-empty aggregate names that occur
    among the events of the job, and the entry is what [unique.UUID]
    makes of the ids of the events with that aggregate name, taken in
    event order.  The store is not asked. *)
Theorem continuous_aggregates j a w :
  events j = Some a →
  ∃ m,
    continuousJob_Aggregates unique hash j w = ((m, None), w)
    ∧ ∀ name,
        m !! name
        = if decide (name = "") then None
          else match AggregateID
                       <$> base.filter (λ e, AggregateName e = name)
                             (load w (Some a)) with
               | [] => None
               | ids => Some (unique ids)
               end.
Proof. apply continuous_Aggregates_lookup. Qed.

(** X13: [AggregatesOf] lines up the entries of the names it is given, a
    repeated name giving its ids again, and [Aggregate] returns the
    first id of the entry of its name; it returns [uuid.Nil], and no
    error, for the empty name and for a name that is the aggregate
    name of no event of the job. *)
Theorem continuous_aggregate j a w names name :
  events j = Some a →
  ∃ m,
    continuousJob_Aggregates unique hash j w = ((m, None), w)
    ∧ continuousJob_AggregatesOf unique hash j names w
      = ((concat ((λ n, default [] (m !! n)) <$> names), None), w)
    ∧ continuousJob_Aggregate unique hash j name w
      = ((default Nil (head (default [] (m !! name))), None), w)
    ∧ (name = ""
       ∨ Forall (λ e, AggregateName e ≠ name) (load w (Some a)) →
       continuousJob_Aggregate unique hash j name w = ((Nil, None), w)).
Proof.
  intros Hev.
  destruct (continuous_Aggregates_lookup j a w Hev) as (m & Hm & Hlook).
  exists m. split; [done|].
  unfold continuousJob_Aggregate, continuousJob_AggregatesOf,
    Aggregate, AggregatesOf.
  unfold continuousJob_Aggregates in Hm. rewrite Hm.
  assert (∀ n, foldl (λ out name0, out ++ default [] (m !! name0)) [] [n]
               = default [] (m !! n)) as Hone by done.
  split_and!.
  - by rewrite AggregatesOf_concat.
  - rewrite Hone. by destruct (default [] (m !! name)).
  - intros Hnone. rewrite Hone.
    assert (m !! name = None) as ->; [|done].
    rewrite Hlook. case_decide; [done|].
    destruct Hnone as [?|Hall]; [done|].
    rewrite filter_none; [done|].
    eapply Forall_impl; [done|]. simpl. by intros e He ?.
Qed.

(** X14: When the store refuses the query of a periodic job, every method
    of the job that looks at the events comes back with the wrapped
    error and a zero result; the store has been asked once and the
    cache of the job is as before. *)
Theorem periodic_refused j w cause names name :
  cache w !! hash (configureApply [])
               (buildQuery (base_ j) None (configureApply [])) = None →
  store (base_ j) (queried w)
    (buildQuery (base_ j) None (configureApply [])) = Refused cause →
  ∃ w1,
    heap w1 = heap w ∧ cache w1 = cache w
    ∧ queried w1
      = queried w ++ [buildQuery (base_ j) None (configureApply [])]
    ∧ periodicJob_EventsOf hash j names w
      = ((None, Some (QueryEvents cause)), w1)
    ∧ periodicJob_Aggregates unique hash j w
      = ((∅, Some (QueryEvents cause)), w1)
    ∧ periodicJob_AggregatesOf unique hash j names w
      = (([], Some (QueryEvents cause)), w1)
    ∧ periodicJob_Aggregate unique hash j name w
      = ((Nil, Some (QueryEvents cause)), w1).
Proof.
  intros Hmiss Hstore.
  set (q := buildQuery (base_ j) None (configureApply [])) in *.
  destruct (jobs.fetchEvents_spec (base_ j) q w) as (r & h & Hf & Hr).
  rewrite Hstore in Hr. destruct Hr as [-> ->].
  pose proof (jobs.ensure_miss_failed hash _ _ None _ _ _ _ _ Hmiss Hf)
    as He.
  eexists. split_and!; [| | |
    unfold periodicJob_EventsOf, EventsOf
   |unfold periodicJob_Aggregates, Aggregates
   |unfold periodicJob_AggregatesOf, AggregatesOf, Aggregates
   |unfold periodicJob_Aggregate, Aggregate, AggregatesOf, Aggregates].
  4-7: unfold baseJob_Events, baseJob_EventsFor, eventsFor;
    fold q; rewrite He; reflexivity.
  all: done.
Qed.

(** X15: When the cache of a periodic job has no entry for the query and
    the store streams its events without an error, [EventsOf] returns
    those of the streamed events whose name is among [names], in the
    order of the stream; the store has been asked once, and what it
    streamed is in the cache afterwards. *)
Theorem periodic_events_of j w items names :
  cache w !! hash (configureApply [])
               (buildQuery (base_ j) None (configureApply [])) = None →
  store (base_ j) (queried w)
    (buildQuery (base_ j) None (configureApply []))
  = Streamed items →
  eventstream.undisturbed items →
  ∃ r w' c,
    periodicJob_EventsOf hash j names w = ((r, None), w')
    ∧ r ≠ None
    ∧ load w' r
      = base.filter (λ e, Name e ∈ names) (eventstream.received items)
    ∧ queried w'
      = queried w ++ [buildQuery (base_ j) None (configureApply [])]
    ∧ cache w' !! hash (configureApply [])
                    (buildQuery (base_ j) None (configureApply []))
      = Some c
    ∧ load w' c = eventstream.received items.
Proof.
  intros Hmiss Hstore Hu.
  set (q := buildQuery (base_ j) None (configureApply [])) in *.
  destruct (jobs.fetchEvents_spec (base_ j) q w) as (r & h & Hf & Hr).
  rewrite Hstore in Hr.
  rewrite (drainFacts.Drain_undisturbed items Hu) in Hr. destruct Hr as [-> ->].
  pose proof (jobs.ensure_miss_fetched hash _ _ None _ _ _ _ Hmiss Hf)
    as He.
  unfold periodicJob_EventsOf, EventsOf.
  unfold baseJob_Events, baseJob_EventsFor, eventsFor. fold q.
  rewrite He. simpl.
  eexists _, _, _. split; [done|]. simpl. split_and!.
  - done.
  - rewrite lookup_app_r by done. rewrite Nat.sub_diag. simpl.
    rewrite filterByName_spec. f_equal.
    rewrite lookup_app_r by done. rewrite Nat.sub_diag. simpl.
    rewrite lookup_app_r by done. by rewrite Nat.sub_diag.
  - done.
  - by rewrite lookup_insert_eq.
  - simpl.
    rewrite lookup_app_l by (rewrite !length_app; simpl; lia).
    rewrite lookup_app_l by (rewrite !length_app; simpl; lia).
    rewrite lookup_app_r by done. by rewrite Nat.sub_diag.
Qed.

End jobs.

Import sampleJobs samplePeriodic.

Lemma continuous_events_of_witness :
  ∃ w', continuousJob_EventsOf hash continuous ["changed"; "changed"] mixed
        = ((Some 1%nat, None), w')
        ∧ load w' (Some 1%nat) = [created; renamed].
Proof.
  destruct (continuous_events_of hash continuous 0 ["changed"; "changed"]
              mixed) as (w' & H1 & H2 & _).
  - reflexivity.
  - simpl. lia.
  - exists w'. split; [exact H1|].
    change (length (heap mixed)) with 1%nat in H2.
    rewrite H2. vm_compute. reflexivity.
Defined.

Lemma continuous_aggregates_witness :
  ∃ m, continuousJob_Aggregates remove_dups hash continuous mixed
       = ((m, None), mixed)
       ∧ m !! "foo" = Some [1%N] ∧ m !! "baz" = None.
Proof.
  destruct (continuous_aggregates remove_dups hash continuous 0 mixed)
    as (m & H1 & H2).
  - reflexivity.
  - exists m. split; [exact H1|]. rewrite !H2. split; vm_compute; reflexivity.
Defined.

Lemma continuous_aggregate_witness :
  continuousJob_Aggregate remove_dups hash continuous "baz" mixed
  = ((Nil, None), mixed).
Proof.
  destruct (continuous_aggregate remove_dups hash continuous 0 mixed
              ["foo"] "baz") as (m & _ & _ & _ & H).
  - reflexivity.
  - apply H. right. vm_compute. repeat constructor; discriminate.
Defined.

Lemma periodic_refused_witness :
  ∃ w1, periodicJob_Aggregate remove_dups hash refusedJob "foo" newWorld
        = ((Nil, Some (QueryEvents "unavailable")), w1)
        ∧ cache w1 = newCache.
Proof.
  destruct (periodic_refused remove_dups hash refusedJob newWorld
              "unavailable" ["foo"] "foo")
    as (w1 & _ & Hc & _ & _ & _ & _ & H).
  - reflexivity.
  - reflexivity.
  - exists w1. split; [exact H|exact Hc].
Defined.

Lemma periodic_events_of_witness :
  ∃ r w', periodicJob_EventsOf hash steadyPeriodic ["changed"] newWorld
          = ((r, None), w')
          ∧ load w' r = [created; renamed].
Proof.
  destruct (periodic_events_of hash steadyPeriodic newWorld
              [streams.Received created; streams.Received renamed]
              ["changed"])
    as (r & w' & c & H1 & _ & H2 & _).
  - reflexivity.
  - reflexivity.
  - vm_compute. repeat constructor.
  - exists r, w'. split; [exact H1|]. rewrite H2. vm_compute. reflexivity.
Defined.

End jobqueryFacts.

(** * Facts about the codec registry *)

Module codecFacts.
Import codec.

Section registry.
Context {value W : Type}.
Context (write : bytes → W → option error * W).
Context (marshalBinary marshalText : value → option (bytes + error)).

Implicit Types (r : Registry value W) (D : type value)
  (enc : Encoder value W) (dec : Decoder value).

Lemma codec_registerAll_snoc r regs reg :
  registerAll r (regs ++ [reg])
  = Register reg.1.1.1 (registerAll r regs) reg.1.1.2 reg.1.2 reg.2.
Proof. unfold registerAll. by rewrite foldl_app. Qed.

Lemma registerAll_unknown regs name :
  name ∉ (λ reg, reg.1.1.2) <$> regs →
  encoders (registerAll (@New value W) regs) !! name = None
  ∧ decoders (registerAll (@New value W) regs) !! name = None
  ∧ factories (registerAll (@New value W) regs) !! name = None.
Proof.
  induction regs as [|reg regs IH] using rev_ind; [done|].
  rewrite fmap_app, not_elem_of_app. intros [Hregs Hreg].
  destruct (IH Hregs) as (He & Hd & Hf).
  rewrite codec_registerAll_snoc. simpl.
  assert (reg.1.1.2 ≠ name) by set_solver.
  by rewrite !lookup_insert_ne.
Qed.

(** X16: A name that was never registered is not found, however many other
    names were: [Encode] of data without a marshaler of its own
    writes nothing and returns an error that is [ErrNotFound],
    [Decode] returns the zero value and such an error, and [Make]
    returns [ErrMissingFactory]. *)
Theorem unknown_name regs D name data w in_ :
  name ∉ (λ reg, reg.1.1.2) <$> regs →
  encodeCustomMarshaler write marshalBinary marshalText w data = None →
  Encode write marshalBinary marshalText (registerAll New regs) w name data
  = Returned (Some (GetEncoder name), w)
  ∧ Decode D (registerAll New regs) in_ name
    = Returned (zero D, Some (GetDecoder name))
  ∧ Make D (registerAll New regs) name = (zero D, Some ErrMissingFactory)
  ∧ isNotFound (GetEncoder name) = true
  ∧ isNotFound (GetDecoder name) = true.
Proof.
  intros Hname Hcustom.
  destruct (registerAll_unknown regs name Hname) as (He & Hd & Hf).
  unfold Encode, Decode, decodeWith, Make. unfold Decoder, Encoder in *.
  split_and!; try done.
  - by rewrite Hcustom, He.
  - by rewrite Hf, Hd.
  - by rewrite Hf.
Qed.

(** X17: What is registered under a name is what is used for it, the last
    registration replacing earlier ones: for data that has no
    marshaler of its own and a type without unmarshaler, [Encode]
    returns what the registered encoder returns, and [Decode] hands
    the reader to the registered decoder and returns what it decoded,
    so that a decoder that inverts the encoder gives the data back. *)
Theorem registered_round_trip r D name enc dec v v0 w w' b :
  holds D v = true →
  assert_ D (zero D) = Some v0 →
  unmarshalBinary D = None → unmarshalText D = None →
  marshalBinary v = None → marshalText v = None →
  enc (Some v) w = (None, w') →
  dec (Bytes b) = (Some v, None) →
  Encode write marshalBinary marshalText (Register D r name enc dec) w name (Some v)
  = Returned (None, w')
  ∧ Decode D (Register D r name enc dec) (Bytes b) name
    = Returned (Some v, None).
Proof.
  intros Hv Hz Hub Hut Hmb Hmt Henc Hdec.
  unfold Encode, encodeCustomMarshaler, Decode, decodeWith,
    Make, decodeCustomMarshaler, Register, registerWithFactoryFunc.
  simpl. rewrite Hmb, Hmt, !lookup_insert_eq. simpl.
  rewrite Hv, Henc, Hz, Hub, Hut, Hdec. simpl. by rewrite Hv.
Qed.

(** X18: Marshalers of the data's own go first on both sides: whatever is
    registered under the name, [Encode] writes what [MarshalBinary]
    returns, and [Decode] lets [UnmarshalBinary] fill the value the
    factory made from all the bytes of the reader, without calling
    the registered encoder or decoder; so a type whose
    [UnmarshalBinary] inverts its [MarshalBinary] makes the round
    trip. *)
Theorem custom_round_trip r D name enc dec v v0 unmarshal w b :
  marshalBinary v = Some (inl b) →
  assert_ D (zero D) = Some v0 →
  unmarshalBinary D = Some unmarshal →
  unmarshal b (Some v0) = (Some v, None) →
  Encode write marshalBinary marshalText (Register D r name enc dec) w name (Some v)
  = Returned (write b w)
  ∧ Decode D (Register D r name enc dec) (Bytes b) name
    = Returned (Some v, None)
  ∧ ∀ r' name', Encode write marshalBinary marshalText r' w name' (Some v) = Returned (write b w).
Proof.
  intros Hmb Hz Hub Hu.
  unfold Encode, encodeCustomMarshaler, Decode, Make,
    decodeCustomMarshaler, Register, registerWithFactoryFunc.
  simpl. rewrite Hmb, !lookup_insert_eq. simpl.
  by rewrite Hz, Hub, Hu.
Qed.

(** X19: Errors on the way in: when reading fails, or [UnmarshalBinary]
    fails, [Decode] returns the error wrapped as a custom unmarshaler
    error together with the value as it then is, not the zero value;
    when the registered decoder fails, it returns the zero value and
    the decoder's error as it is; and when the decoder returns
    something that is not a [D], it panics. *)
Theorem decode_failures r D name enc dec v0 :
  assert_ D (zero D) = Some v0 →
  (∀ cause,
     Decode D (Register D r name enc dec) (Broken cause) name
     = Returned (Some v0, Some (CustomUnmarshaler (ReaderError cause))))
  ∧ (∀ unmarshal b data err,
       unmarshalBinary D = Some unmarshal →
       unmarshal b (Some v0) = (data, Some err) →
       Decode D (Register D r name enc dec) (Bytes b) name
       = Returned (data, Some (CustomUnmarshaler (UnmarshalBinary err))))
  ∧ (∀ b decoded err,
       unmarshalBinary D = None → unmarshalText D = None →
       dec (Bytes b) = (decoded, Some err) →
       Decode D (Register D r name enc dec) (Bytes b) name
       = Returned (zero D, Some err))
  ∧ (∀ b decoded,
       unmarshalBinary D = None → unmarshalText D = None →
       dec (Bytes b) = (decoded, None) →
       assert_ D decoded = None →
       Decode D (Register D r name enc dec) (Bytes b) name = Panicked).
Proof.
  intros Hz.
  unfold Decode, decodeWith, Make, decodeCustomMarshaler, Register,
    registerWithFactoryFunc.
  simpl. rewrite !lookup_insert_eq. simpl. rewrite Hz.
  split_and!.
  - done.
  - intros unmarshal b data err -> ->. done.
  - intros b decoded err -> -> ->. done.
  - intros b decoded -> -> -> ->. done.
Qed.

(** X22: The methods of [*Registry] work with the type argument [any]:
    for a name registered with a type whose zero value is a value,
    [New] returns that zero value, and [Decode] always hands the
    bytes to the registered decoder and returns what it decoded, also
    when the registered type has an unmarshaler of its own, which
    the generic [Decode] would use instead.  For a name registered
    with an interface type, whose zero value is nil, [New] and
    [Decode] return a cast error and the decoder is not asked. *)
Theorem registry_methods r D name enc dec b decoded :
  dec (Bytes b) = (Some decoded, None) →
  (∀ v0, zero D = Some v0 → holds D v0 = true →
     Registry_New (Register D r name enc dec) name = (Some v0, None)
     ∧ Registry_Decode (Register D r name enc dec) (Bytes b) name
       = Returned (Some decoded, None)
     ∧ ∀ unmarshal data,
         unmarshalBinary D = Some unmarshal →
         unmarshal b (Some v0) = (data, None) →
         Decode D (Register D r name enc dec) (Bytes b) name
         = Returned (data, None))
  ∧ (zero D = None →
     Registry_New (Register D r name enc dec) name
     = (None, Some CannotCast)
     ∧ Registry_Decode (Register D r name enc dec) (Bytes b) name
       = Returned (None, Some CannotCast)).
Proof.
  intros Hdec.
  unfold Registry_New, Registry_Decode, Decode, decodeWith, Make,
    decodeCustomMarshaler, Register, registerWithFactoryFunc, assert_.
  simpl. rewrite !lookup_insert_eq. simpl. split.
  - intros v0 -> Hv0. simpl. rewrite Hdec, Hv0. split_and!; try done.
    by intros unmarshal data -> ->.
  - by intros ->.
Qed.

End registry.

Import sampleCodec.

Lemma unknown_name_witness :
  Encode write marshalBinary marshalText
    (registerAll New [(counterType, "counter", counterEncoder, counterDecoder)])
    [] "total" (Some (Counter 2))
  = Returned (Some (GetEncoder "total"), []).
Proof.
  apply (unknown_name write marshalBinary marshalText
           [(counterType, "counter", counterEncoder, counterDecoder)]
           counterType "total" (Some (Counter 2)) [] (Bytes [])).
  - intros [H|H]%elem_of_cons; [discriminate H|by apply elem_of_nil in H].
  - reflexivity.
Defined.

Lemma registered_round_trip_witness :
  Decode counterType
    (Register counterType New "counter" counterEncoder counterDecoder)
    (Bytes [Byte.x01; Byte.x01]) "counter"
  = Returned (Some (Counter 2), None).
Proof.
  apply (registered_round_trip write marshalBinary marshalText New
           counterType "counter" counterEncoder counterDecoder
           (Counter 2) (Counter 0) [] [Byte.x01; Byte.x01]
           [Byte.x01; Byte.x01]); reflexivity.
Defined.

Lemma custom_round_trip_witness :
  Decode stampType
    (Register stampType New "stamp" counterEncoder counterDecoder)
    (Bytes [Byte.x02]) "stamp"
  = Returned (Some (Stamp [Byte.x02]), None).
Proof.
  apply (custom_round_trip write marshalBinary marshalText New
           stampType "stamp" counterEncoder counterDecoder
           (Stamp [Byte.x02]) (Stamp [])
           (λ b _, (Some (Stamp b), None)) [] [Byte.x02]); reflexivity.
Defined.

Lemma decode_failures_witness :
  Decode counterType
    (Register counterType New "counter" counterEncoder counterDecoder)
    (Broken "unexpected EOF") "counter"
  = Returned (Some (Counter 0),
              Some (CustomUnmarshaler (ReaderError "unexpected EOF"))).
Proof.
  apply (decode_failures New counterType "counter" counterEncoder
           counterDecoder (Counter 0)).
  reflexivity.
Defined.

Lemma registry_methods_witness :
  Registry_Decode
    (Register stampType New "stamp" counterEncoder counterDecoder)
    (Bytes [Byte.x02]) "stamp"
  = Returned (Some (Counter 1), None).
Proof.
  destruct (registry_methods (W:=bytes) New stampType "stamp"
              counterEncoder counterDecoder [Byte.x02] (Counter 1))
    as [H _]; [reflexivity|].
  destruct (H (Stamp [])) as (_ & H' & _); [reflexivity..|].
  exact H'.
Defined.

End codecFacts.

(** * Facts about overlapping and failing fetches *)

Module overlapFacts.
Import event project overlapping.

Section hashed.
Context (hash : applyConfig → query.Query → N).
Context (cfg : applyConfig) (q : query.Query) (j : baseJob).
Context (items : list streams.item).
Hypothesis steady : ∀ served, store j served q = Streamed items.
Hypothesis calm : eventstream.undisturbed items.

Lemma fetch_steady w :
  fetchEvents j q w
  = ((Some (length (heap w)), None),
     {| heap := heap w ++ [eventstream.received items];
        cache := cache w; queried := queried w ++ [q] |}).
Proof.
  destruct (jobs.fetchEvents_spec j q w) as (r & h & Hf & Hr).
  rewrite steady in Hr.
  rewrite (drainFacts.Drain_undisturbed items calm) in Hr.
  by destruct Hr as [-> ->].
Qed.

Lemma sharing_sym key evs n a b w :
  sharing key evs n a b w → sharing key evs n b a w.
Proof.
  intros [[Ha Hb] Hh [Hnd Hg] Hc Hs]. split.
  - done.
  - intros s Hin. apply Hh. set_solver.
  - split.
    + apply NoDup_app in Hnd as (H1 & H2 & H3).
      apply NoDup_app. split_and!; [done| |done].
      intros x Hx Hx'. by eapply H2.
    + intros s Hin. destruct (Hg s) as (H1 & H2 & H3); [set_solver|].
      done.
  - intros Hne. apply Hc. intros Heq.
    apply app_eq_nil in Heq as [H1 H2]. apply Hne.
    by rewrite H1, H2.
  - lia.
Qed.

(** A slice that is in the heap keeps its elements when the heap
    grows. *)
Lemma load_grow (h : list (list Event)) c qs extra qs' c' s :
  (∃ addr, s = Some addr ∧ (addr < length h)%nat) →
  load {| heap := h ++ extra; cache := c'; queried := qs' |} s
  = load {| heap := h; cache := c; queried := qs |} s.
Proof.
  intros (addr & -> & Hlt). simpl. by rewrite lookup_app_l.
Qed.

Lemma fresh_unheld key evs n a b w s :
  sharing key evs n a b w →
  s ∈ holding a ++ holding b ++ option_list (cache w !! key) →
  s ≠ Some (length (heap w)).
Proof.
  intros Hsh Hin. destruct (sh_holds _ _ _ _ _ _ Hsh s Hin)
    as [(addr & -> & Hlt) _].
  intros [= ->]. lia.
Qed.

Lemma given_holding pt : given pt ⊆ holding pt.
Proof. destruct pt; set_solver. Qed.

Lemma sharing_step evs n a b w a' w' :
  evs = eventstream.received items →
  sharing (hash cfg q) evs n a b w →
  ensureStep hash cfg q (fetchEvents j q) a w = (a', w') →
  sharing (hash cfg q) evs n a' b w'.
Proof.
  intros Hevs Hsh Hstep.
  pose proof (λ s, fresh_unheld _ _ _ _ _ _ s Hsh) as Hfresh.
  destruct Hsh as [[Ha Hb] Hh [Hnd Hg] Hc Hs].
  destruct a as [| |s|r]; simpl in Hstep.
  - (* the lookup *)
    unfold ensureLookup, lookupCache, copySlice, alloc, mbind, mret,
      M_bind, M_ret in Hstep. simpl in Hstep.
    destruct (cache w !! hash cfg q) as [c|] eqn:Hcache;
      simpl in Hstep; simplify_eq.
    + assert (c ≠ Some (length (heap w))) as Hcfresh
        by (apply Hfresh; set_solver).
      destruct (Hh c ltac:(set_solver)) as [Hc1 Hc2].
      split; simpl.
      * done.
      * rewrite Hcache. simpl.
        intros s [->|Hin]%elem_of_cons.
        -- split; [eexists; split; [done|]; rewrite length_app; simpl; lia|].
           simpl. rewrite lookup_app_r by done.
           by rewrite Nat.sub_diag.
        -- destruct (Hh s ltac:(set_solver)) as [(addr & -> & Hlt) Hl].
           split; [eexists; split; [done|]; rewrite length_app; simpl; lia|].
           rewrite <- Hl. simpl. by rewrite lookup_app_l.
      * rewrite Hcache. simpl. split.
        -- apply NoDup_cons. split; [|by simpl in Hnd].
           intros Hin. eapply (Hfresh (Some (length (heap w)))); [|done].
           pose proof (given_holding b). set_solver.
        -- intros s [->|Hin]%elem_of_cons.
           ++ split_and!; [|done|].
              ** by intros Heq%list_elem_of_singleton.
              ** intros <-. eapply (Hfresh (Some (length (heap w))));
                   [|done]. set_solver.
           ++ destruct (Hg s ltac:(set_solver)) as (H1 & H2 & H3).
              done.
      * rewrite Hcache. eauto.
      * simpl in *. lia.
    + split; simpl; try done.
      * by rewrite Hcache.
      * rewrite Hcache. simpl. split; [done|].
        intros s Hin. by destruct (Hg s Hin) as (H1 & H2 & H3).
      * by rewrite Hcache.
  - (* the fetch *)
    unfold mbind, mret, M_bind, M_ret in Hstep.
    rewrite fetch_steady in Hstep. simpl in Hstep. simplify_eq.
    split; simpl.
    + done.
    + intros s [->|Hin]%elem_of_cons.
      * split; [eexists; split; [done|]; rewrite length_app; simpl; lia|].
        simpl. rewrite lookup_app_r by done. by rewrite Nat.sub_diag.
      * destruct (Hh s ltac:(set_solver)) as [(addr & -> & Hlt) Hl].
        split; [eexists; split; [done|]; rewrite length_app; simpl; lia|].
        rewrite <- Hl. simpl. by rewrite lookup_app_l.
    + split; [done|]. intros s Hin.
      destruct (Hg s Hin) as (H1 & H2 & H3). split_and!; [done| |done].
      intros [= ->]. eapply (Hfresh (Some (length (heap w)))); [|done].
      pose proof (given_holding b). set_solver.
    + done.
    + rewrite length_app. simpl in *. lia.
  - (* the store *)
    unfold ensureStore, storeCache, copySlice, alloc, mbind, mret,
      M_bind, M_ret in Hstep. simpl in Hstep. simplify_eq.
    destruct (Hh s ltac:(set_solver)) as [Hs1 Hs2].
    split; simpl.
    + done.
    + rewrite lookup_insert_eq. simpl.
      intros s' Hin.
      assert (s' = Some (length (heap w))
              ∨ s' ∈ holding (AtStore s) ++ holding b) as [->|Hin']
        by set_solver.
      * split; [eexists; split; [done|]; rewrite length_app; simpl; lia|].
        simpl. rewrite lookup_app_r by done.
        by rewrite Nat.sub_diag.
      * destruct (Hh s' ltac:(set_solver)) as [(addr & -> & Hlt) Hl].
        split; [eexists; split; [done|]; rewrite length_app; simpl; lia|].
        rewrite <- Hl. simpl. by rewrite lookup_app_l.
    + rewrite lookup_insert_eq. simpl. split.
      * apply NoDup_cons. split; [|by simpl in Hnd].
        intros Hin. eapply (Hfresh (Some (length (heap w)))); [|done].
        pose proof (given_holding b). set_solver.
      * intros s' [->|Hin]%elem_of_cons.
        -- split_and!; [|done|].
           ++ intros Heq%list_elem_of_singleton.
              eapply (Hfresh s); [set_solver|done].
           ++ intros <-. eapply (Hfresh (Some (length (heap w))));
                [|done]. set_solver.
        -- destruct (Hg s' ltac:(set_solver)) as (H1 & H2 & H3).
           split_and!; [|done|done].
           intros ->%list_elem_of_singleton. done.
    + rewrite lookup_insert_eq. eauto.
    + simpl in *. lia.
  - (* returned *)
    unfold mret, M_ret in Hstep. by simplify_eq.
Qed.

Lemma sharing_overlap evs n sched a b w a' b' w' :
  evs = eventstream.received items →
  sharing (hash cfg q) evs n a b w →
  overlap hash cfg q (fetchEvents j q) sched a b w = ((a', b'), w') →
  sharing (hash cfg q) evs n a' b' w'.
Proof.
  intros Hevs. revert a b w.
  induction sched as [|[] sched IH]; intros a b w Hsh; simpl.
  - unfold mret, M_ret. by intros [= <- <- <-].
  - unfold mbind, M_bind.
    destruct (ensureStep hash cfg q (fetchEvents j q) a w)
      as [a1 w1] eqn:Hstep.
    apply IH. by eapply sharing_step.
  - unfold mbind, M_bind.
    destruct (ensureStep hash cfg q (fetchEvents j q) b w)
      as [b1 w1] eqn:Hstep.
    intros Hov. eapply IH; [|done].
    apply sharing_sym. eapply sharing_step; [done| |done].
    by apply sharing_sym.
Qed.

End hashed.

(** X20: Two callers of [ensure] with the same key may overlap in any way:
    when the store answers the query with the same events each time,
    both get, without an error, a slice of their own that holds these
    events, the cache ends up with a third one that holds them too, and
    the store has been asked at most twice. *)
Theorem overlapping_callers hash cfg q j items sched w ra rb w' :
  (∀ served, store j served q = Streamed items) →
  eventstream.undisturbed items →
  cache w !! hash cfg q = None →
  overlap hash cfg q (fetchEvents j q) sched AtLookup AtLookup w
  = ((Returned ra, Returned rb), w') →
  ra.2 = None ∧ rb.2 = None
  ∧ load w' ra.1 = eventstream.received items
  ∧ load w' rb.1 = eventstream.received items
  ∧ ra.1 ≠ rb.1
  ∧ (∃ c, cache w' !! hash cfg q = Some c
          ∧ load w' c = eventstream.received items
          ∧ c ≠ ra.1 ∧ c ≠ rb.1)
  ∧ (length (queried w') ≤ length (queried w) + 2)%nat.
Proof.
  intros Hsteady Hcalm Hmiss Hov.
  assert (sharing (hash cfg q) (eventstream.received items)
            (length (queried w)) AtLookup AtLookup w) as Hsh.
  { split; simpl; try done.
    - rewrite Hmiss. simpl. by intros s ?%elem_of_nil.
    - split; [constructor|]. by intros s ?%elem_of_nil.
    - lia. }
  eapply sharing_overlap in Hsh; [|done..].
  destruct Hsh as [[Ha Hb] Hh [Hnd Hg] Hc Hs]. simpl in *.
  destruct Hc as [c Hcache]; [done|]. rewrite Hcache in *. simpl in *.
  split_and!; try done.
  - apply Hh. set_solver.
  - apply Hh. set_solver.
  - apply NoDup_cons in Hnd as [Hnd _]. set_solver.
  - exists c. split; [done|]. split_and!.
    + apply Hh. set_solver.
    + destruct (Hg ra.1 ltac:(set_solver)) as [H _]. set_solver.
    + destruct (Hg rb.1 ltac:(set_solver)) as [H _]. set_solver.
  - lia.
Qed.

Import sampleJobs.

Lemma overlapping_callers_witness :
  ∃ ra rb w',
    overlap hash (configureApply [])
      (buildQuery steadyJob None (configureApply []))
      (fetchEvents steadyJob (buildQuery steadyJob None (configureApply [])))
      [true; false; true; false; true; false] AtLookup AtLookup newWorld
    = ((Returned ra, Returned rb), w')
    ∧ load w' ra.1 = [created; renamed]
    ∧ load w' rb.1 = [created; renamed]
    ∧ ra.1 ≠ rb.1.
Proof.
  eexists _, _, _. split; [vm_compute; reflexivity|].
  edestruct (overlapping_callers hash (configureApply [])
               (buildQuery steadyJob None (configureApply [])) steadyJob
               [streams.Received created; streams.Received renamed]
               [true; false; true; false; true; false] newWorld)
    as (_ & _ & H1 & H2 & H3 & _).
  - reflexivity.
  - vm_compute. repeat constructor.
  - reflexivity.
  - vm_compute. reflexivity.
  - split_and!; [exact H1|exact H2|exact H3].
Defined.

Section failures.
Context (hash : applyConfig → query.Query → N).

(** X21: When the stream of the store fails on the way, [EventsFor] of a
    job returns the wrapped error and a nil slice, not the events
    that were drained before the failure; nothing is put in the
    cache, and the store has been asked once. *)
Theorem drain_failure_drops_events j p opts w pre cause post :
  cache w !! hash (configureApply opts)
               (buildQuery j p (configureApply opts)) = None →
  store j (queried w) (buildQuery j p (configureApply opts))
  = Streamed (pre ++ streams.Failed cause :: post) →
  eventstream.undisturbed pre →
  baseJob_EventsFor hash j p opts w
  = ((None, Some (DrainEvents cause)),
     {| heap := heap w; cache := cache w;
        queried := queried w ++ [buildQuery j p (configureApply opts)] |}).
Proof.
  intros Hmiss Hstore Hpre. unfold baseJob_EventsFor, eventsFor.
  set (q := buildQuery j p (configureApply opts)) in *.
  destruct (jobs.fetchEvents_spec j q w) as (r & h & Hf & Hr).
  rewrite Hstore in Hr.
  rewrite (drainFacts.Drain_failed pre cause post Hpre) in Hr.
  destruct Hr as [-> ->].
  by rewrite (jobs.ensure_miss_failed hash _ _ _ _ _ _ _ _ Hmiss Hf).
Qed.

End failures.

Lemma drain_failure_drops_events_witness :
  (baseJob_EventsFor hash samplePeriodic.breakingJob None [] newWorld).1
  = (None, Some (DrainEvents "broken pipe")).
Proof.
  rewrite (drain_failure_drops_events hash samplePeriodic.breakingJob None
             [] newWorld [streams.Received created] "broken pipe"
             [streams.Received renamed]).
  - reflexivity.
  - reflexivity.
  - reflexivity.
  - vm_compute. repeat constructor.
Defined.

End overlapFacts.
